(** * PyEPO: TSP optimisation models and the SPO+ loss

    A shallow embedding of
      - [pyepo/model/grb/tsp.py]  (the GG, DFJ and MTZ formulations of the
        travelling salesman problem on top of a Gurobi model), and
      - [pkg/pyepo/func/spoplus.py] (the SPO+ autograd function),
    and the properties of them that the specification states.

    Conventions.
    - Real numbers (numpy / torch floats, Gurobi values) are the canonical
      rationals [Qc]: arithmetic is exact and equality is Leibniz equality.
      The one place where rounding decides what the program does, the
      consistency check of [forward], is evaluated in float32 as numpy
      evaluates it.
    - A Python exception is a value of [exn]; a call that may raise returns
      a [result].
    - The Gurobi backend (branch and bound) is not part of the repository:
      it is a parameter [optimize] of the definitions that call it. *)

From Stdlib Require Import QArith Qcanon.
From Stdlib Require Import Floats.SpecFloat.
From stdpp Require Import base numbers list gmap strings.

Set Default Proof Using "Type".

(* ================================================================== *)
(** * Exceptions and results *)
(* ================================================================== *)

(** The exceptions that the model classes of [tsp.py] and the solver
    behind them can raise. *)
Inductive exn :=
| ValueError (msg : string)
| RuntimeError (msg : string)
| KeyError
| IndexError
| GurobiError.

(** The outcome of a call.  [Diverge] belongs to the model, not to
    Python: a [while] loop is run with a bound on its number of
    iterations, and [Diverge] says that the bound was reached before the
    loop ended. *)
Inductive result (E A : Type) :=
| Ok (a : A)
| Raise (e : E)
| Diverge.
Arguments Ok {E A} a.
Arguments Raise {E A} e.
Arguments Diverge {E A}.

#[global] Instance result_ret {E} : MRet (result E) := λ A a, Ok a.
#[global] Instance result_bind {E} : MBind (result E) := λ A B f r,
  match r with Ok a => f a | Raise e => Raise e | Diverge => Diverge end.

(** [for a in l: f a], collecting the results, stopping at the first
    exception. *)
Fixpoint forM {E A B} (l : list A) (f : A → result E B) : result E (list B) :=
  match l with
  | [] => Ok []
  | a :: l' => b ← f a; bs ← forM l' f; Ok (b :: bs)
  end.

(** Python's [enumerate]. *)
Definition enumerate {A} (l : list A) : list (nat * A) :=
  imap (λ k a, (k, a)) l.

(** [l[i]] on a Python list or a numpy array. *)
Definition getitem {A} (l : list A) (i : nat) : result exn A :=
  match l !! i with Some a => Ok a | None => Raise IndexError end.

(* ================================================================== *)
(** * Numbers *)
(* ================================================================== *)

Definition Qc_of_Z (z : Z) : Qc := Q2Qc (inject_Z z).
Definition Qc_of_nat (n : nat) : Qc := Qc_of_Z (Z.of_nat n).

(** The activation threshold [1e-2] of [getTour], [solve] and the
    subtour callback. *)
Definition threshold : Qc := Q2Qc (1 # 100).

(** [v > 1e-2] *)
Definition active (v : Qc) : bool := bool_decide (threshold < v)%Qc.

(* ================================================================== *)
(** * The Gurobi model, as far as [tsp.py] builds it *)
(* ================================================================== *)

Inductive vtype := BINARY | CONTINUOUS.

#[global] Instance vtype_eq_dec : EqDecision vtype.
Proof. solve_decision. Defined.

(** A decision variable.  [UB = None] is Gurobi's default upper bound
    (infinity; 1 for a binary variable). *)
Record grbvar := GrbVar {
  VarName : string;
  VarKey : list nat;
  VType : vtype;
  UB : option Qc
}.

(** Linear expressions, kept the way the source writes them.  [Var v] is
    the variable of index [v] in the model's variable list. *)
#[warnings="-register-all"]
Inductive linexpr :=
| Var (v : nat)
| Const (q : Qc)
| Add (a b : linexpr)
| Sub (a b : linexpr)
| Mul (q : Qc) (a : linexpr)
| quicksum (l : list linexpr).

Inductive csense := LESS_EQUAL | EQUAL | GREATER_EQUAL.

Record constr := Constr {
  lhs : linexpr;
  sense : csense;
  rhs : linexpr
}.

Inductive grbsense := GRB_MINIMIZE | GRB_MAXIMIZE.

(** [gp.tupledict] over pairs: keys in insertion order, each with the
    index of its variable. *)
Abbreviation tupledict := (list (nat * nat * nat)).
(** The tupledict of [addVars(self.nodes, ...)], keyed by one node. *)
Abbreviation tupledict1 := (list (nat * nat)).

Record grbmodel := GrbModel {
  Vars : list grbvar;
  Constrs : list constr;
  Objective : linexpr;
  ModelSense : grbsense;
  outputFlag : nat;
  lazyConstraints : nat;
  (* the attributes [m._x] and [m._n] that the DFJ model attaches *)
  m_x : option tupledict;
  m_n : option nat
}.

(** [gp.Model("tsp")] *)
Definition gp_Model : grbmodel :=
  {| Vars := []; Constrs := []; Objective := Const 0;
     ModelSense := GRB_MINIMIZE; outputFlag := 1; lazyConstraints := 0;
     m_x := None; m_n := None |}.

Definition set_Vars (m : grbmodel) (vs : list grbvar) : grbmodel :=
  {| Vars := vs; Constrs := Constrs m; Objective := Objective m;
     ModelSense := ModelSense m; outputFlag := outputFlag m;
     lazyConstraints := lazyConstraints m; m_x := m_x m; m_n := m_n m |}.

Definition set_Constrs (m : grbmodel) (cs : list constr) : grbmodel :=
  {| Vars := Vars m; Constrs := cs; Objective := Objective m;
     ModelSense := ModelSense m; outputFlag := outputFlag m;
     lazyConstraints := lazyConstraints m; m_x := m_x m; m_n := m_n m |}.

(** [m.setObjective(obj)] *)
Definition setObjective (m : grbmodel) (obj : linexpr) : grbmodel :=
  {| Vars := Vars m; Constrs := Constrs m; Objective := obj;
     ModelSense := ModelSense m; outputFlag := outputFlag m;
     lazyConstraints := lazyConstraints m; m_x := m_x m; m_n := m_n m |}.

(** [m.modelSense = s] *)
Definition set_ModelSense (m : grbmodel) (s : grbsense) : grbmodel :=
  {| Vars := Vars m; Constrs := Constrs m; Objective := Objective m;
     ModelSense := s; outputFlag := outputFlag m;
     lazyConstraints := lazyConstraints m; m_x := m_x m; m_n := m_n m |}.

(** [m.Params.outputFlag = v] *)
Definition set_outputFlag (m : grbmodel) (v : nat) : grbmodel :=
  {| Vars := Vars m; Constrs := Constrs m; Objective := Objective m;
     ModelSense := ModelSense m; outputFlag := v;
     lazyConstraints := lazyConstraints m; m_x := m_x m; m_n := m_n m |}.

(** [m._x = x; m._n = n; m.Params.lazyConstraints = 1] *)
Definition set_lazy (m : grbmodel) (x : tupledict) (n : nat) : grbmodel :=
  {| Vars := Vars m; Constrs := Constrs m; Objective := Objective m;
     ModelSense := ModelSense m; outputFlag := outputFlag m;
     lazyConstraints := 1; m_x := Some x; m_n := Some n |}.

(** [m.addVars(keys, name=.., vtype=.., ub=..)] for pair keys: one new
    variable per key, appended to the model; the tupledict maps each key
    to its variable. *)
Definition addVars (m : grbmodel) (keys : list (nat * nat)) (name : string)
    (vt : vtype) (ub : option Qc) : grbmodel * tupledict :=
  let base := length (Vars m) in
  (set_Vars m (Vars m ++
     ((λ k : nat * nat, GrbVar name [k.1; k.2] vt ub) <$> keys)),
   imap (λ p k, (k, base + p)) keys).

(** [m.addVars(self.nodes, name=..)] *)
Definition addVars1 (m : grbmodel) (keys : list nat) (name : string)
    (vt : vtype) (ub : option Qc) : grbmodel * tupledict1 :=
  let base := length (Vars m) in
  (set_Vars m (Vars m ++ ((λ k : nat, GrbVar name [k] vt ub) <$> keys)),
   imap (λ p k, (k, base + p)) keys).

(** [m.addConstr(c)] *)
Definition addConstr_grb (m : grbmodel) (c : constr) : grbmodel :=
  set_Constrs m (Constrs m ++ [c]).

(** [m.addConstrs(gen)] *)
Definition addConstrs (m : grbmodel) (cs : list constr) : grbmodel :=
  set_Constrs m (Constrs m ++ cs).

(** [d[i, j]] *)
Definition td_get (d : tupledict) (i j : nat) : result exn nat :=
  match list_find (λ e : nat * nat * nat, e.1 = (i, j)) d with
  | Some (_, e) => Ok e.2
  | None => Raise KeyError
  end.

(** [d[i]] *)
Definition td1_get (d : tupledict1) (i : nat) : result exn nat :=
  match list_find (λ e : nat * nat, e.1 = i) d with
  | Some (_, e) => Ok e.2
  | None => Raise KeyError
  end.

(** [d[i, j] = v]: a new key goes to the end, an old one keeps its place. *)
Definition td_set (d : tupledict) (i j : nat) (v : nat) : tupledict :=
  match list_find (λ e : nat * nat * nat, e.1 = (i, j)) d with
  | Some (p, _) => <[p := ((i, j), v)]> d
  | None => d ++ [((i, j), v)]
  end.

(** [d.sum(i, "*")] *)
Definition td_sum_row (d : tupledict) (i : nat) : linexpr :=
  quicksum (Var <$> (filter (λ e : nat * nat * nat, e.1.1 = i) d).*2).

(** [d.sum("*", j)] *)
Definition td_sum_col (d : tupledict) (j : nat) : linexpr :=
  quicksum (Var <$> (filter (λ e : nat * nat * nat, e.1.2 = j) d).*2).

(** The value of an expression under an assignment of the variables
    (a variable without a value counts 0). *)
Fixpoint eval (vals : list Qc) (e : linexpr) : Qc :=
  match e with
  | Var v => default 0%Qc (vals !! v)
  | Const q => q
  | Add a b => (eval vals a + eval vals b)%Qc
  | Sub a b => (eval vals a - eval vals b)%Qc
  | Mul q a => (q * eval vals a)%Qc
  | quicksum l =>
      (fix go (l : list linexpr) : Qc :=
         match l with
         | [] => 0%Qc
         | a :: l' => (eval vals a + go l')%Qc
         end) l
  end.

Definition holds (vals : list Qc) (c : constr) : bool :=
  match sense c with
  | LESS_EQUAL => bool_decide (eval vals (lhs c) ≤ eval vals (rhs c))%Qc
  | EQUAL => bool_decide (eval vals (lhs c) = eval vals (rhs c))
  | GREATER_EQUAL => bool_decide (eval vals (rhs c) ≤ eval vals (lhs c))%Qc
  end.

(* ================================================================== *)
(** * The TSP models of [tsp.py] *)
(* ================================================================== *)

(** The concrete classes; [type(self)] of a model object. *)
Inductive model_type :=
| tspGGModel
| tspGGModelRel
| tspDFJModel
| tspMTZModel
| tspMTZModelRel.

#[global] Instance model_type_eq_dec : EqDecision model_type.
Proof. solve_decision. Defined.

(** A model object: the attributes that [tspABModel.__init__] and the
    constructor of the base class set. *)
Record tspmodel := TspModel {
  type_self : model_type;
  num_nodes : nat;
  nodes : list nat;
  edges : list (nat * nat);
  _model : grbmodel;
  x : tupledict
}.

(** [[(i, j) for i in range(n) for j in range(n) if i < j]] *)
Definition edges_of (n : nat) : list (nat * nat) :=
  i ← seq 0 n; j ← seq 0 n; if bool_decide (i < j) then [(i, j)] else [].

(** [self.edges + [(j, i) for (i, j) in self.edges]] *)
Definition directed_edges_of (es : list (nat * nat)) : list (nat * nat) :=
  es ++ ((λ e : nat * nat, (e.2, e.1)) <$> es).

(** [num_cost] *)
Definition num_cost (self : tspmodel) : nat := length (edges self).

(** ** Building the Gurobi model: [_getModel] *)

(** The four constraint families shared by [tspGGModel._getModel] and
    [tspGGModelRel._getModel]. *)
Definition GG_constraints (ns : list nat) (xd yd : tupledict)
    : result exn (list constr) :=
  let c1 := (λ j, Constr (td_sum_col xd j) EQUAL (Const 1)) <$> ns in
  let c2 := (λ i, Constr (td_sum_row xd i) EQUAL (Const 1)) <$> ns in
  c3 ← forM (tail ns) (λ i,
          ys ← forM (filter (λ j, j ≠ i) (tail ns))
                    (λ j, v ← td_get yd j i; Ok (Var v));
          Ok (Constr (Sub (td_sum_row yd i) (quicksum ys)) EQUAL (Const 1)));
  c4 ← forM (filter (λ k : nat * nat, k.1 ≠ 0) xd.*1) (λ k,
          vy ← td_get yd k.1 k.2;
          vx ← td_get xd k.1 k.2;
          Ok (Constr (Var vy) LESS_EQUAL
                (Mul (Qc_of_Z (Z.of_nat (length ns) - 1)) (Var vx))));
  Ok (c1 ++ c2 ++ c3 ++ c4).

Definition tspGGModel_getModel (ns : list nat) (es : list (nat * nat))
    : result exn (grbmodel * tupledict) :=
  let m := gp_Model in
  let directed_edges := directed_edges_of es in
  let '(m, xd) := addVars m directed_edges "x" BINARY None in
  let '(m, yd) := addVars m directed_edges "y" CONTINUOUS None in
  let m := set_ModelSense m GRB_MINIMIZE in
  cs ← GG_constraints ns xd yd;
  Ok (addConstrs m cs, xd).

Definition tspGGModelRel_getModel (ns : list nat) (es : list (nat * nat))
    : result exn (grbmodel * tupledict) :=
  let m := gp_Model in
  let m := set_outputFlag m 0 in
  let directed_edges := directed_edges_of es in
  let '(m, xd) := addVars m directed_edges "x" CONTINUOUS (Some 1%Qc) in
  let '(m, yd) := addVars m directed_edges "y" CONTINUOUS None in
  let m := set_ModelSense m GRB_MINIMIZE in
  cs ← GG_constraints ns xd yd;
  Ok (addConstrs m cs, xd).

(** [for i, j in self.edges: x[j, i] = x[i, j]] *)
Fixpoint mirror_keys (es : list (nat * nat)) (xd : tupledict)
    : result exn tupledict :=
  match es with
  | [] => Ok xd
  | (i, j) :: es' => v ← td_get xd i j; mirror_keys es' (td_set xd j i v)
  end.

Definition tspDFJModel_getModel (ns : list nat) (es : list (nat * nat))
    : result exn (grbmodel * tupledict) :=
  let m := gp_Model in
  let m := set_outputFlag m 0 in
  let '(m, xd) := addVars m es "x" BINARY None in
  xd ← mirror_keys es xd;
  let m := set_ModelSense m GRB_MINIMIZE in
  let m := addConstrs m
    ((λ i, Constr (td_sum_row xd i) EQUAL (Const 2)) <$> ns) in
  let m := set_lazy m xd (length ns) in
  Ok (m, xd).

(** The constraints of [tspMTZModel._getModel] and
    [tspMTZModelRel._getModel]. *)
Definition MTZ_constraints (ns : list nat) (directed_edges : list (nat * nat))
    (xd : tupledict) (ud : tupledict1) : result exn (list constr) :=
  let c1 := (λ j, Constr (td_sum_col xd j) EQUAL (Const 1)) <$> ns in
  let c2 := (λ i, Constr (td_sum_row xd i) EQUAL (Const 1)) <$> ns in
  c3 ← forM (filter (λ e : nat * nat, e.1 ≠ 0 ∧ e.2 ≠ 0) directed_edges)
         (λ e,
          uj ← td1_get ud e.2;
          ui ← td1_get ud e.1;
          xij ← td_get xd e.1 e.2;
          Ok (Constr (Sub (Var uj) (Var ui)) GREATER_EQUAL
                (Add (Mul (Qc_of_nat (length ns)) (Sub (Var xij) (Const 1)))
                     (Const 1))));
  Ok (c1 ++ c2 ++ c3).

Definition tspMTZModel_getModel (ns : list nat) (es : list (nat * nat))
    : result exn (grbmodel * tupledict) :=
  let m := gp_Model in
  let m := set_outputFlag m 0 in
  let '(m, xd) := addVars m es "x" BINARY None in
  xd ← mirror_keys es xd;
  let '(m, ud) := addVars1 m ns "u" CONTINUOUS None in
  let m := set_ModelSense m GRB_MINIMIZE in
  let directed_edges := directed_edges_of es in
  let '(m, xd) := addVars m directed_edges "x" BINARY None in
  let '(m, ud) := addVars1 m ns "u" CONTINUOUS None in
  let m := set_ModelSense m GRB_MINIMIZE in
  cs ← MTZ_constraints ns directed_edges xd ud;
  Ok (addConstrs m cs, xd).

Definition tspMTZModelRel_getModel (ns : list nat) (es : list (nat * nat))
    : result exn (grbmodel * tupledict) :=
  let m := gp_Model in
  let m := set_outputFlag m 0 in
  let '(m, xd) := addVars m es "x" BINARY None in
  xd ← mirror_keys es xd;
  let '(m, ud) := addVars1 m ns "u" CONTINUOUS None in
  let m := set_ModelSense m GRB_MINIMIZE in
  let directed_edges := directed_edges_of es in
  let '(m, xd) := addVars m directed_edges "x" CONTINUOUS (Some 1%Qc) in
  let '(m, ud) := addVars1 m ns "u" CONTINUOUS None in
  let m := set_ModelSense m GRB_MINIMIZE in
  cs ← MTZ_constraints ns directed_edges xd ud;
  Ok (addConstrs m cs, xd).

(** Method resolution of [self._getModel()]. *)
Definition _getModel (t : model_type) (ns : list nat) (es : list (nat * nat))
    : result exn (grbmodel * tupledict) :=
  match t with
  | tspGGModel => tspGGModel_getModel ns es
  | tspGGModelRel => tspGGModelRel_getModel ns es
  | tspDFJModel => tspDFJModel_getModel ns es
  | tspMTZModel => tspMTZModel_getModel ns es
  | tspMTZModelRel => tspMTZModelRel_getModel ns es
  end.

(** [t(num_nodes)]: [tspABModel.__init__], then the constructor of the
    base class.

    Modelled from the spec: the base class [optGRBModel] is not among the
    sources; its constructor is taken to do what the class docstrings of
    [tsp.py] say of the attributes: it calls [_getModel] and keeps the
    Gurobi model as [_model] and the variables as [x]. *)
Definition tsp_init (t : model_type) (n : nat) : result exn tspmodel :=
  let ns := seq 0 n in
  let es := edges_of n in
  '(m, xd) ← _getModel t ns es;
  Ok (TspModel t n ns es m xd).

Definition set_model (self : tspmodel) (m : grbmodel) : tspmodel :=
  {| type_self := type_self self; num_nodes := num_nodes self;
     nodes := nodes self; edges := edges self; _model := m; x := x self |}.

(** ** [setObj] *)

(** [quicksum(c[k] * (x[i,j] + x[j,i]) for k, (i,j) in enumerate(edges))] *)
Definition sym_terms (c : list Qc) (es : list (nat * nat)) (xd : tupledict)
    : result exn linexpr :=
  ts ← forM (enumerate es) (λ ke,
          ck ← getitem c ke.1;
          xij ← td_get xd ke.2.1 ke.2.2;
          xji ← td_get xd ke.2.2 ke.2.1;
          Ok (Mul ck (Add (Var xij) (Var xji))));
  Ok (quicksum ts).

(** [quicksum(c[i] * x[k] for i, k in enumerate(edges))] *)
Definition dfj_terms (c : list Qc) (es : list (nat * nat)) (xd : tupledict)
    : result exn linexpr :=
  ts ← forM (enumerate es) (λ ke,
          ci ← getitem c ke.1;
          xk ← td_get xd ke.2.1 ke.2.2;
          Ok (Mul ci (Var xk)));
  Ok (quicksum ts).

(** [tspGGModel.setObj] and [tspMTZModel.setObj] (the same text), also
    inherited by the two relaxations. *)
Definition tspGGModel_setObj (self : tspmodel) (c : list Qc)
    : result exn tspmodel :=
  if bool_decide (length c ≠ num_cost self) then
    Raise (ValueError "Size of cost vector cannot match vars.")
  else
    obj ← sym_terms c (edges self) (x self);
    Ok (set_model self (setObjective (_model self) obj)).

Definition tspDFJModel_setObj (self : tspmodel) (c : list Qc)
    : result exn tspmodel :=
  if bool_decide (length c ≠ num_cost self) then
    Raise (ValueError "Size of cost vector cannot match vars.")
  else
    obj ← dfj_terms c (edges self) (x self);
    Ok (set_model self (setObjective (_model self) obj)).

Definition setObj (self : tspmodel) (c : list Qc) : result exn tspmodel :=
  match type_self self with
  | tspDFJModel => tspDFJModel_setObj self c
  | _ => tspGGModel_setObj self c
  end.

(** ** Methods that make a new object: [copy], [relax], [addConstr]

    Model objects live in a store, and a reference to one is its address.
    A constructor call puts the new object at an address that is not in
    use; [new_model._model.addConstr(..)] changes the object at the
    address [new_model]. *)

Abbreviation store := (gmap nat tspmodel).

Definition deref (σ : store) (self : nat) : result exn tspmodel :=
  match σ !! self with Some o => Ok o | None => Raise KeyError end.

(** [t(n)] as an expression: construct, and place in the store. *)
Definition new (t : model_type) (n : nat) (σ : store)
    : result exn (nat * store) :=
  o ← tsp_init t n;
  let l := fresh (dom σ) in
  Ok (l, <[l := o]> σ).

(** [tspABModel.copy]: [type(self)(self.num_nodes)] *)
Definition copy (self : nat) (σ : store) : result exn (nat * store) :=
  o ← deref σ self;
  new (type_self o) (num_nodes o) σ.

(** [relax], by class.  [tspDFJModel] defines none: it has the method of
    the base class, which is not among the sources and is the parameter
    [base_relax]. *)
Definition relax (base_relax : nat → store → result exn (nat * store))
    (self : nat) (σ : store) : result exn (nat * store) :=
  o ← deref σ self;
  match type_self o with
  | tspGGModel => new tspGGModelRel (num_nodes o) σ
  | tspMTZModel => new tspMTZModelRel (num_nodes o) σ
  | tspGGModelRel | tspMTZModelRel =>
      Raise (RuntimeError "Model has already been relaxed.")
  | tspDFJModel => base_relax self σ
  end.

(** [tspGGModel.addConstr] and [tspMTZModel.addConstr] (the same text),
    also inherited by the two relaxations. *)
Definition tspGGModel_addConstr (self : nat) (coefs : list Qc) (r : Qc)
    (σ : store) : result exn (nat * store) :=
  o ← deref σ self;
  if bool_decide (length coefs ≠ num_cost o) then
    Raise (ValueError "Size of coef vector cannot cost.")
  else
    '(new_model, σ) ← copy self σ;
    o' ← deref σ new_model;
    e ← sym_terms coefs (edges o') (x o');
    Ok (new_model,
        <[new_model := set_model o'
            (addConstr_grb (_model o') (Constr e LESS_EQUAL (Const r)))]> σ).

Definition tspDFJModel_addConstr (self : nat) (coefs : list Qc) (r : Qc)
    (σ : store) : result exn (nat * store) :=
  o ← deref σ self;
  if bool_decide (length coefs ≠ num_cost o) then
    Raise (ValueError "Size of coef vector cannot cost.")
  else
    '(new_model, σ) ← copy self σ;
    o' ← deref σ new_model;
    e ← dfj_terms coefs (edges o') (x o');
    Ok (new_model,
        <[new_model := set_model o'
            (addConstr_grb (_model o') (Constr e LESS_EQUAL (Const r)))]> σ).

Definition addConstr (self : nat) (coefs : list Qc) (r : Qc) (σ : store)
    : result exn (nat * store) :=
  o ← deref σ self;
  match type_self o with
  | tspDFJModel => tspDFJModel_addConstr self coefs r σ
  | _ => tspGGModel_addConstr self coefs r σ
  end.

(** ** [getTour] *)

(** [edges[j].append(k)] on a [defaultdict(list)] *)
Definition dd_append (d : gmap nat (list nat)) (j k : nat)
    : gmap nat (list nat) :=
  <[j := default [] (d !! j) ++ [k]]> d.

(** [edges[i]] on a [defaultdict(list)]: a missing key is entered with
    the empty list. *)
Definition dd_get (d : gmap nat (list nat)) (i : nat)
    : list nat * gmap nat (list nat) :=
  match d !! i with
  | Some l => (l, d)
  | None => ([], <[i := []]> d)
  end.

(** The first loop of [getTour]: the adjacency lists of the active
    edges; [p] is the index of the head of [es] in [self.edges]. *)
Fixpoint active_edges (es : list (nat * nat)) (p : nat) (sol : list Qc)
    (d : gmap nat (list nat)) : result exn (gmap nat (list nat)) :=
  match es with
  | [] => Ok d
  | (j, k) :: es' =>
      v ← getitem sol p;
      if active v then
        active_edges es' (S p) sol (dd_append (dd_append d j k) k j)
      else active_edges es' (S p) sol d
  end.

(** The [while] loop of [getTour], at most [fuel] iterations. *)
Fixpoint tour_loop (fuel : nat) (d : gmap nat (list nat))
    (visited : gset nat) (tour : list nat)
    : result exn (gmap nat (list nat) * list nat) :=
  if bool_decide (size visited < size d) then
    match fuel with
    | 0 => Diverge
    | S fuel' =>
        match last tour with
        | None => Raise IndexError
        | Some i =>
            let '(nb, d) := dd_get d i in
            match list_find (λ j, j ∉ visited) nb with
            | Some (_, j) => tour_loop fuel' d ({[j]} ∪ visited) (tour ++ [j])
            | None => tour_loop fuel' d visited tour
            end
        end
    end
  else Ok (d, tour).

(** [tspABModel.getTour] *)
Definition tspABModel_getTour (fuel : nat) (self : tspmodel) (sol : list Qc)
    : result exn (list nat) :=
  d ← active_edges (edges self) 0 sol ∅;
  '(d, tour) ← tour_loop fuel d {[0]} [0];
  match last tour with
  | None => Raise IndexError
  | Some i =>
      if bool_decide (0 ∈ (dd_get d i).1) then Ok (tour ++ [0]) else Ok tour
  end.

Definition getTour (fuel : nat) (self : tspmodel) (sol : list Qc)
    : result exn (list nat) :=
  match type_self self with
  | tspGGModelRel | tspMTZModelRel =>
      Raise (RuntimeError "Relaxation Model has no integer solution.")
  | _ => tspABModel_getTour fuel self sol
  end.

(** ** The lazy-constraint callback of the DFJ model *)

(** [l.remove(a)]: the first occurrence goes. *)
Fixpoint list_remove (a : nat) (l : list nat) : result exn (list nat) :=
  match l with
  | [] => Raise (ValueError "list.remove(x): x not in list")
  | b :: l' =>
      if bool_decide (b = a) then Ok l'
      else l'' ← list_remove a l'; Ok (b :: l'')
  end.

(** [selected.select(current, "*")] *)
Definition select (selected : list (nat * nat)) (current : nat)
    : list (nat * nat) :=
  filter (λ e : nat * nat, e.1 = current) selected.

(** The inner [while neighbors] loop of [subtour]; the result is
    [thiscycle] and what is left of [unvisited]. *)
Fixpoint subtour_walk (fuel : nat) (selected : list (nat * nat))
    (neighbors unvisited thiscycle : list nat)
    : result exn (list nat * list nat) :=
  match neighbors with
  | [] => Ok (thiscycle, unvisited)
  | current :: _ =>
      match fuel with
      | 0 => Diverge
      | S fuel' =>
          let thiscycle := thiscycle ++ [current] in
          unvisited ← list_remove current unvisited;
          let neighbors :=
            filter (λ j, j ∈ unvisited) (select selected current).*2 in
          subtour_walk fuel' selected neighbors unvisited thiscycle
      end
  end.

(** The outer [while unvisited] loop of [subtour]. *)
Fixpoint subtour_loop (fuel : nat) (selected : list (nat * nat))
    (unvisited cycle : list nat) : result exn (list nat) :=
  match unvisited with
  | [] => Ok cycle
  | _ :: _ =>
      match fuel with
      | 0 => Diverge
      | S fuel' =>
          '(thiscycle, unvisited) ←
            subtour_walk fuel selected unvisited unvisited [];
          let cycle :=
            if bool_decide (length thiscycle < length cycle) then thiscycle
            else cycle in
          subtour_loop fuel' selected unvisited cycle
      end
  end.

(** [subtour(selected, n)].  Each round of either loop takes a node out
    of [unvisited], so [n + 1] rounds are never used up
    ([subtour_spec] below). *)
Definition subtour (selected : list (nat * nat)) (n : nat)
    : result exn (list nat) :=
  subtour_loop (S n) selected (seq 0 n) (seq 0 (n + 1)).

(** [itertools.combinations(l, 2)] *)
Fixpoint combinations2 (l : list nat) : list (nat * nat) :=
  match l with
  | [] => []
  | a :: l' => ((λ b, (a, b)) <$> l') ++ combinations2 l'
  end.

(** [x.x] of a variable after a solve, or its value in the candidate
    that a callback is shown. *)
Definition var_x (vals : list Qc) (v : nat) : result exn Qc :=
  match vals !! v with Some q => Ok q | None => Raise GurobiError end.

(** The pairs [(i, j)] of [model._x.keys()] with [xvals[i, j] > 1e-2],
    where [xvals = model.cbGetSolution(model._x)]. *)
Definition selected_of (xd : tupledict) (vals : list Qc)
    : result exn (list (nat * nat)) :=
  xvals ← forM xd (λ e, q ← var_x vals e.2; Ok (e.1, q));
  Ok (filter (λ e : nat * nat * Qc, active e.2) xvals).*1.

(** [tspDFJModel._subtourelim(model, GRB.Callback.MIPSOL)], shown the
    candidate [vals]; the result is the lazy constraint handed to
    [model.cbLazy], if any. *)
Definition _subtourelim (model : grbmodel) (vals : list Qc)
    : result exn (option constr) :=
  match m_x model, m_n model with
  | Some xd, Some n =>
      selected ← selected_of xd vals;
      tour ← subtour selected n;
      if bool_decide (length tour < n) then
        ts ← forM (combinations2 tour)
                  (λ ij, v ← td_get xd ij.1 ij.2; Ok (Var v));
        Ok (Some (Constr (quicksum ts) LESS_EQUAL
                    (Const (Qc_of_Z (Z.of_nat (length tour) - 1)))))
      else Ok None
  | _, _ => Raise GurobiError
  end.

(** ** [solve] *)

Section Solve.

(** The Gurobi optimiser: given a model and, for [optimize(callback)],
    the callback, the values of the variables (by index) and [objVal];
    [None] when there is no solution to read. *)
Context (optimize :
  grbmodel → option (grbmodel → list Qc → result exn (option constr)) →
  option (list Qc * Qc)).

(** [tspGGModel.solve] and [tspMTZModel.solve] (the same text). *)
Definition tspGGModel_solve (self : tspmodel) : result exn (list Qc * Qc) :=
  match optimize (_model self) None with
  | None => Raise GurobiError
  | Some (vals, objVal) =>
      sol ← forM (edges self) (λ e,
               xij ← td_get (x self) e.1 e.2;
               a ← var_x vals xij;
               if active a then Ok 1%Qc
               else
                 xji ← td_get (x self) e.2 e.1;
                 b ← var_x vals xji;
                 if active b then Ok 1%Qc else Ok 0%Qc);
      Ok (sol, objVal)
  end.

(** [tspGGModelRel.solve] and [tspMTZModelRel.solve] (the same text). *)
Definition tspGGModelRel_solve (self : tspmodel)
    : result exn (list Qc * Qc) :=
  match optimize (_model self) None with
  | None => Raise GurobiError
  | Some (vals, objVal) =>
      sol ← forM (edges self) (λ e,
               xij ← td_get (x self) e.1 e.2;
               a ← var_x vals xij;
               xji ← td_get (x self) e.2 e.1;
               b ← var_x vals xji;
               Ok (a + b)%Qc);
      Ok (sol, objVal)
  end.

(** [tspDFJModel.solve]: the optimiser runs with the subtour callback. *)
Definition tspDFJModel_solve (self : tspmodel) : result exn (list Qc * Qc) :=
  match optimize (_model self) (Some _subtourelim) with
  | None => Raise GurobiError
  | Some (vals, objVal) =>
      sol ← forM (edges self) (λ e,
               xe ← td_get (x self) e.1 e.2;
               a ← var_x vals xe;
               if active a then Ok 1%Qc else Ok 0%Qc);
      Ok (sol, objVal)
  end.

Definition solve (self : tspmodel) : result exn (list Qc * Qc) :=
  match type_self self with
  | tspGGModel | tspMTZModel => tspGGModel_solve self
  | tspGGModelRel | tspMTZModelRel => tspGGModelRel_solve self
  | tspDFJModel => tspDFJModel_solve self
  end.

End Solve.

(* ================================================================== *)
(** * The SPO+ loss of [spoplus.py] *)
(* ================================================================== *)

(** [EPO.MINIMIZE] and [EPO.MAXIMIZE], the values of the attribute
    [optmodel.modelSense]. *)
Inductive EPO := MINIMIZE | MAXIMIZE.

(** What [SPOPlus] uses of an [optModel]: [setObj], [solve], and, for the
    pool, the construction of a new model of the same class from the
    constructor arguments of a given one. *)
Class optModel (M : Type) := {
  om_setObj : M → list Qc → result exn M;
  om_solve : M → result exn (list Qc * Qc);
  (* [type(optmodel)] applied to the arguments [getArgs(optmodel)] *)
  om_rebuild : M → result exn M
}.

(** The exceptions of [forward]: its own assertion, those of the numpy
    operations on the batch, and those that a model method raises. *)
Inductive loss_exn :=
| AssertionError
| NumpyError
| ModelError (e : exn).

Definition of_model {A} (r : result exn A) : result loss_exn A :=
  match r with
  | Ok a => Ok a
  | Raise e => Raise (ModelError e)
  | Diverge => Diverge
  end.

(** A batch: the four tensors, as lists of rows.  [true_obj] has one
    entry per row (a column). *)
Record batch := Batch {
  pred_cost : list (list Qc);
  true_cost : list (list Qc);
  true_sol : list (list Qc);
  true_obj : list Qc
}.

(** ** numpy *)

Definition np_getitem {A} (a : list A) (i : nat) : result loss_exn A :=
  match a !! i with Some r => Ok r | None => Raise NumpyError end.

(** [np.dot(a, b)] of two vectors. *)
Definition np_dot (a b : list Qc) : result loss_exn Qc :=
  if bool_decide (length a = length b) then
    Ok (foldr Qcplus 0%Qc (zip_with Qcmult a b))
  else Raise NumpyError.

(** [2 * a - b] of two vectors of the same length (numpy's broadcasting
    of an operand of length one is not modelled). *)
Definition surrogate_cost (a b : list Qc) : result loss_exn (list Qc) :=
  if bool_decide (length a = length b) then
    Ok (zip_with (λ p q, 2 * p - q)%Qc a b)
  else Raise NumpyError.

(** ** float32

    The tensors of a batch are float32 (IEEE 754 binary32: 24 bits of
    precision, exponents below 128), and numpy computes on them in
    float32, every operation rounded to the nearest float32, ties to
    even.  The operations are those of [SpecFloat], the specification of
    IEEE 754 arithmetic of the standard library, at these parameters. *)

(** The float32 nearest to [q]: [q] itself where [q] is a float32, as
    the entries of a tensor are.  Numerator and denominator are taken as
    integers with exponent 0, and [SFdiv] rounds their quotient. *)
Definition float32 (q : Qc) : spec_float :=
  match Qnum q with
  | Z0 => S754_zero false
  | Zpos n =>
      SFdiv 24 128 (S754_finite false n 0) (S754_finite false (Qden q) 0)
  | Zneg n =>
      SFdiv 24 128 (S754_finite true n 0) (S754_finite false (Qden q) 0)
  end.

(** [1e-3] *)
Definition tolerance : Qc := Q2Qc (1 # 1000).

(** [abs(z - d) / (abs(z) + 1e-3) >= 1e-3] for [z = z[i]], an array of
    one float32, and [d = np.dot(c[i], w[i])], a float32: the Python
    float [1e-3] is cast to float32 at both places, the difference, the
    sum and the quotient are rounded to float32, and [>=] compares two
    float32.  A comparison with a NaN is false.  [d] is given as the
    exact dot product and stands for the float32 nearest to it (numpy
    leaves the order of the additions to the BLAS library; every order
    gives this number when the partial sums are float32 numbers, as with
    integer costs below 2^24 and 0/1 solutions). *)
Definition inconsistent (z d : Qc) : bool :=
  let eps := float32 tolerance in
  SFleb eps
    (SFdiv 24 128
       (SFabs (SFsub 24 128 (float32 z) (float32 d)))
       (SFadd 24 128 (SFabs (float32 z)) eps)).

(** The loop "check sol" of [forward]. *)
Fixpoint check_sol (rows : list nat) (c w : list (list Qc)) (z : list Qc)
    : result loss_exn () :=
  match rows with
  | [] => Ok ()
  | i :: rows' =>
      zi ← np_getitem z i;
      ci ← np_getitem c i;
      wi ← np_getitem w i;
      d ← np_dot ci wi;
      if inconsistent zi d then Raise AssertionError
      else check_sol rows' c w z
  end.

(** ** The solves *)

(** The calls made on optimisation models, in order. *)
Inductive call :=
| Rebuild
| SetObj (c : list Qc)
| Solve.

Section SPOPlus.

Context {M : Type} `{!optModel M}.

(** [-objq + 2 * np.dot(cp[i], w[i]) - z[i]] *)
Definition loss_entry (b : batch) (i : nat) (objq : Qc) : result loss_exn Qc :=
  cpi ← np_getitem (pred_cost b) i;
  wi ← np_getitem (true_sol b) i;
  d ← np_dot cpi wi;
  zi ← np_getitem (true_obj b) i;
  Ok (- objq + 2 * d - zi)%Qc.

(** The single-core loop.  The state is the model (which [setObj]
    changes) and the calls made so far; [loss] and [sol] are the two
    lists that the loop appends to. *)
Fixpoint single_core (rows : list nat) (b : batch) (optmodel : M)
    (log : list call) (loss : list Qc) (sol : list (list Qc))
    : result loss_exn (list Qc * list (list Qc)) * M * list call :=
  match rows with
  | [] => (Ok (loss, sol), optmodel, log)
  | i :: rows' =>
      match (cpi ← np_getitem (pred_cost b) i;
             ci ← np_getitem (true_cost b) i;
             surrogate_cost cpi ci) with
      | Ok cost =>
          let log := log ++ [SetObj cost] in
          match om_setObj optmodel cost with
          | Ok optmodel =>
              let log := log ++ [Solve] in
              match om_solve optmodel with
              | Ok (solq, objq) =>
                  match loss_entry b i objq with
                  | Ok l =>
                      single_core rows' b optmodel log
                        (loss ++ [l]) (sol ++ [solq])
                  | Raise e => (Raise e, optmodel, log)
                  | Diverge => (Diverge, optmodel, log)
                  end
              | Raise e => (Raise (ModelError e), optmodel, log)
              | Diverge => (Diverge, optmodel, log)
              end
          | Raise e => (Raise (ModelError e), optmodel, log)
          | Diverge => (Diverge, optmodel, log)
          end
      | Raise e => (Raise e, optmodel, log)
      | Diverge => (Diverge, optmodel, log)
      end
  end.

(** [solveWithObj4Par(cost, args, model_type)], where [optmodel] is the
    model that [args] and [model_type] were taken from. *)
Definition solveWithObj4Par (cost : list Qc) (optmodel : M)
    : result exn (list Qc * Qc) :=
  optmodel ← om_rebuild optmodel;
  optmodel ← om_setObj optmodel cost;
  om_solve optmodel.

(** [2 * cp - c] of two matrices with the same number of rows. *)
Definition surrogate_costs (cp c : list (list Qc))
    : result loss_exn (list (list Qc)) :=
  if bool_decide (length cp = length c) then
    forM (zip cp c) (λ r, surrogate_cost r.1 r.2)
  else Raise NumpyError.

(** [pool.amap(solveWithObj4Par, costs, [args] * ins_num,
    [model_type] * ins_num).get()]: one task per cost vector (as many as
    the shortest argument list has), results in the order of the
    arguments. *)
Definition amap (costs : list (list Qc)) (ins_num : nat) (optmodel : M)
    : result loss_exn (list (list Qc * Qc)) :=
  forM (take ins_num costs) (λ cost, of_model (solveWithObj4Par cost optmodel)).

(** The calls of the tasks of the pool. *)
Definition amap_log (costs : list (list Qc)) (ins_num : nat) : list call :=
  cost ← take ins_num costs; [Rebuild; SetObj cost; Solve].

(** The multi-core branch. *)
Definition multi_core (ins_num : nat) (b : batch) (optmodel : M)
    : result loss_exn (list Qc * list (list Qc)) * list call :=
  match surrogate_costs (pred_cost b) (true_cost b) with
  | Ok costs =>
      (res ← amap costs ins_num optmodel;
       let sol := res.*1 in
       let obj := res.*2 in
       loss ← forM (seq 0 ins_num) (λ i,
                 o ← np_getitem obj i; loss_entry b i o);
       Ok (loss, sol),
       amap_log costs ins_num)
  | Raise e => (Raise e, [])
  | Diverge => (Diverge, [])
  end.

(** What [ctx.save_for_backward(true_sol, sol)] keeps. *)
Record saved_tensors := Saved {
  saved_w : list (list Qc);
  saved_wq : list (list Qc)
}.

(** [SPOPlus.forward].  The two globals [_SPO_FUNC_SPOP_OPTMODEL] and
    [_SPO_FUNC_SPOP_PROCESSES] are the arguments [optmodel] and
    [processes]; [modelSense] is the attribute [optmodel.modelSense],
    which no method of the model reads.  The result is the loss and the
    saved tensors, with the model as the call leaves it and the calls
    made on models. *)
Definition forward (modelSense : EPO) (optmodel : M) (processes : nat)
    (b : batch)
    : result loss_exn (list Qc * saved_tensors) * M * list call :=
  let ins_num := length (true_obj b) in
  match check_sol (seq 0 ins_num) (true_cost b) (true_sol b) (true_obj b) with
  | Ok _ =>
      let '(r, optmodel, log) :=
        if bool_decide (processes = 1) then
          single_core (seq 0 ins_num) b optmodel [] [] []
        else
          let '(r, log) := multi_core ins_num b optmodel in
          (r, optmodel, log) in
      (match r with
       | Ok (loss, sol) =>
           let loss :=
             match modelSense with
             | MINIMIZE => loss
             | MAXIMIZE => Qcopp <$> loss
             end in
           Ok (loss, Saved (true_sol b) sol)
       | Raise e => Raise e
       | Diverge => Diverge
       end,
       optmodel, log)
  | Raise e => (Raise e, optmodel, [])
  | Diverge => (Diverge, optmodel, [])
  end.

End SPOPlus.

(** ** [backward] *)

(** [a - b] of two matrices, entry by entry. *)
Definition mat_sub (a b : list (list Qc)) : list (list Qc) :=
  zip_with (zip_with Qcminus) a b.

(** [a.mean(0)]: the mean of the rows of a matrix. *)
Definition mean0 (a : list (list Qc)) : list Qc :=
  let d := length (hd [] a) in
  (λ s, s / Qc_of_nat (length a))%Qc <$>
    foldr (zip_with Qcplus) (replicate d 0%Qc) a.

(** [SPOPlus.backward]: the four gradients; [grad_output] has the shape
    of the loss (one entry per row), and its product with [grad] is
    numpy's broadcast of a column against a row. *)
Definition backward (modelSense : EPO) (ctx : saved_tensors)
    (grad_output : list Qc)
    : list (list Qc) * option () * option () * option () :=
  let w := saved_w ctx in
  let wq := saved_wq ctx in
  let grad :=
    match modelSense with
    | MINIMIZE => Qcmult 2 <$> mean0 (mat_sub w wq)
    | MAXIMIZE => Qcmult 2 <$> mean0 (mat_sub wq w)
    end in
  ((λ g, Qcmult g <$> grad) <$> grad_output, None, None, None).

(* ================================================================== *)
(** * The TSP models as [optModel]s *)
(* ================================================================== *)

(** Modelled from the spec: [getArgs] ([pyepo.utlis]) is not among the
    sources.  By the spec (WorkerArgs) the recipe to rebuild a model in a
    worker is the model variant and its constructor arguments, for a TSP
    model the node count; so [type(optmodel)] applied to
    [getArgs(optmodel)] is the constructor call
    [type(optmodel)(optmodel.num_nodes)]. *)
Definition tsp_rebuild (optmodel : tspmodel) : result exn tspmodel :=
  tsp_init (type_self optmodel) (num_nodes optmodel).

Definition tsp_optModel
    (optimize :
       grbmodel → option (grbmodel → list Qc → result exn (option constr)) →
       option (list Qc * Qc))
    : optModel tspmodel :=
  {| om_setObj := setObj;
     om_solve := solve optimize;
     om_rebuild := tsp_rebuild |}.

(** ** An optimiser for small pure binary models

    Exhaustive search: every 0/1 assignment of the variables is tried in
    turn; a candidate is kept when it meets the constraints of the model
    and the callback, shown the candidate, adds no lazy constraint; the
    first candidate with the best objective value wins.  It stands in
    for Gurobi wherever a statement is checked on a concrete instance. *)

Fixpoint assignments (n : nat) : list (list Qc) :=
  match n with
  | 0 => [[]]
  | S n' => a ← assignments n'; [0%Qc :: a; 1%Qc :: a]
  end.

Definition accepts
    (cb : option (grbmodel → list Qc → result exn (option constr)))
    (m : grbmodel) (vals : list Qc) : bool :=
  match cb with
  | None => true
  | Some f => match f m vals with Ok None => true | _ => false end
  end.

Definition better (s : grbsense) (a b : Qc) : bool :=
  match s with
  | GRB_MINIMIZE => bool_decide (a < b)%Qc
  | GRB_MAXIMIZE => bool_decide (b < a)%Qc
  end.

Fixpoint best (s : grbsense) (obj : linexpr) (cands : list (list Qc))
    (cur : option (list Qc * Qc)) : option (list Qc * Qc) :=
  match cands with
  | [] => cur
  | a :: cands' =>
      let v := eval a obj in
      match cur with
      | Some (_, v0) =>
          if better s v v0 then best s obj cands' (Some (a, v))
          else best s obj cands' cur
      | None => best s obj cands' (Some (a, v))
      end
  end.

Definition exhaustive (m : grbmodel)
    (cb : option (grbmodel → list Qc → result exn (option constr)))
    : option (list Qc * Qc) :=
  if forallb (λ v, bool_decide (VType v = BINARY)) (Vars m) then
    best (ModelSense m) (Objective m)
      (filter (λ a, forallb (holds a) (Constrs m) && accepts cb m a)
              (assignments (length (Vars m))))
      None
  else None.

(* ================================================================== *)
(** * The vocabulary of the specification *)
(* ================================================================== *)

(** ** Batches *)

(** A batch of [n] examples over [d] edges: tensors of shapes [(n, d)],
    [(n, d)], [(n, d)] and [(n, 1)]. *)
Definition batch_shape (n d : nat) (b : batch) : Prop :=
  length (true_obj b) = n ∧
  length (pred_cost b) = n ∧ Forall (λ r, length r = d) (pred_cost b) ∧
  length (true_cost b) = n ∧ Forall (λ r, length r = d) (true_cost b) ∧
  length (true_sol b) = n ∧ Forall (λ r, length r = d) (true_sol b).

(** [dot(a, b)] *)
Definition dot (a b : list Qc) : Qc :=
  foldr Qcplus 0%Qc (zip_with Qcmult a b).

(** The relative gap [|z - d| / (|z| + 1e-3)] between an objective
    value [z] and a dot product [d], computed in float32. *)
Definition relative_gap32 (z d : Qc) : spec_float :=
  SFdiv 24 128
    (SFabs (SFsub 24 128 (float32 z) (float32 d)))
    (SFadd 24 128 (SFabs (float32 z)) (float32 tolerance)).

(** Example [i] of the batch violates the consistency check:
    [|z - dot(c, w)| / (|z| + 1e-3) >= 1e-3], in float32. *)
Definition violates (b : batch) (i : nat) : Prop :=
  ∃ z c w,
    true_obj b !! i = Some z ∧ true_cost b !! i = Some c ∧
    true_sol b !! i = Some w ∧
    SFleb (float32 tolerance) (relative_gap32 z (dot c w)) = true.

(** The same inequality over the rationals, without rounding. *)
Definition Qcabs (q : Qc) : Qc :=
  if bool_decide (q < 0)%Qc then (- q)%Qc else q.

Definition violates_exactly (b : batch) (i : nat) : Prop :=
  ∃ z c w,
    true_obj b !! i = Some z ∧ true_cost b !! i = Some c ∧
    true_sol b !! i = Some w ∧
    (tolerance ≤ Qcabs (z - dot c w) / (Qcabs z + tolerance))%Qc.

(** The true objectives of the batch pass the consistency check. *)
Definition consistent (b : batch) : Prop := ∀ i, ¬ violates b i.

(** The surrogate cost vectors [2 * predicted_cost - true_cost] of the
    batch, one per example. *)
Definition surrogates (b : batch) : list (list Qc) :=
  zip_with (zip_with (λ p q, 2 * p - q)%Qc) (pred_cost b) (true_cost b).

(** The SPO+ loss of one example, given its surrogate objective. *)
Definition spo_plus (s : EPO) (objq : Qc) (cp w : list Qc) (z : Qc) : Qc :=
  match s with
  | MINIMIZE => (- objq + 2 * dot cp w - z)%Qc
  | MAXIMIZE => (- (- objq + 2 * dot cp w - z))%Qc
  end.

(** The rows of the batch that the loss is computed from: predicted
    cost, true solution and true objective of each example. *)
Definition examples (b : batch) : list (list Qc * list Qc * Qc) :=
  zip (zip (pred_cost b) (true_sol b)) (true_obj b).

(** The losses of a batch, given the surrogate objectives. *)
Definition spo_plus_losses (s : EPO) (b : batch) (objs : list Qc) : list Qc :=
  zip_with (λ objq e, spo_plus s objq e.1.1 e.1.2 e.2) objs (examples b).

(** The calls that solving the objectives [costs] in turn on one model
    makes, and those of the tasks of a pool. *)
Definition calls_in_turn (costs : list (list Qc)) : list call :=
  cost ← costs; [SetObj cost; Solve].

Definition calls_in_pool (costs : list (list Qc)) : list call :=
  cost ← costs; [Rebuild; SetObj cost; Solve].

(** One model, given one objective after the other and solved each time. *)
Inductive solved_in_turn {M} `{!optModel M}
    : M → list (list Qc) → list (list Qc * Qc) → M → Prop :=
| solved_nil m : solved_in_turn m [] [] m
| solved_cons m cost m1 solq objq costs outs m' :
    om_setObj m cost = Ok m1 →
    om_solve m1 = Ok (solq, objq) →
    solved_in_turn m1 costs outs m' →
    solved_in_turn m (cost :: costs) ((solq, objq) :: outs) m'.

(** One model per objective, rebuilt from the type and the constructor
    arguments of [m], given the objective and solved. *)
Definition solved_in_pool {M} `{!optModel M}
    (m : M) (costs : list (list Qc)) (outs : list (list Qc * Qc)) : Prop :=
  Forall2 (λ cost out,
    ∃ m0 m1, om_rebuild m = Ok m0 ∧ om_setObj m0 cost = Ok m1 ∧
             om_solve m1 = Ok out) costs outs.

(** ** Gradients *)

(** Column [j] of a matrix. *)
Definition column (a : list (list Qc)) (j : nat) : list Qc :=
  (λ r, default 0%Qc (r !! j)) <$> a.

(** The mean over the batch (the rows) of a matrix with [d] columns. *)
Definition batch_mean (d : nat) (a : list (list Qc)) : list Qc :=
  (λ j, foldr Qcplus 0 (column a j) / Qc_of_nat (length a))%Qc <$> seq 0 d.

(** [2 * (a - b)], entry by entry. *)
Definition twice_diff (a b : list (list Qc)) : list (list Qc) :=
  zip_with (zip_with (λ p q, 2 * (p - q))%Qc) a b.

(** [g] times [v], for a column [g] and a row [v]. *)
Definition scaled_by (g : list Qc) (v : list Qc) : list (list Qc) :=
  (λ gi, (λ q, gi * q)%Qc <$> v) <$> g.

(** The two linear relaxations. *)
Definition is_relaxation (t : model_type) : Prop :=
  t = tspGGModelRel ∨ t = tspMTZModelRel.

(** [tspGGModelRel(3)] *)
Definition GGRel3 : tspmodel :=
  match tsp_init tspGGModelRel 3 with
  | Ok o => o
  | _ => TspModel tspGGModelRel 0 [] [] gp_Model []
  end.

(** The surrogate solutions and objectives [outs] that [forward] obtains
    from [optmodel] for the cost vectors [costs]: from the model itself,
    one cost after the other, with one worker; from a model rebuilt for
    each cost otherwise. *)
Definition surrogate_answers {M} `{!optModel M} (optmodel : M)
    (processes : nat) (costs : list (list Qc))
    (outs : list (list Qc * Qc)) : Prop :=
  if bool_decide (processes = 1) then
    ∃ optmodel', solved_in_turn optmodel costs outs optmodel'
  else solved_in_pool optmodel costs outs.

(** What a constructed model is known to be. *)
Record constructed (t : model_type) (n : nat) (o : tspmodel) : Prop := {
  c_type : type_self o = t;
  c_num_nodes : num_nodes o = n;
  c_nodes : nodes o = seq 0 n;
  c_edges : edges o = edges_of n;
  c_keys : ∀ k, k ∈ (x o).*1 ↔ k ∈ directed_edges_of (edges_of n);
  c_objective : Objective (_model o) = Const 0%Qc
}.

(** [quicksum] of the coefficients against the edge variables, as the
    class [t] writes it in [setObj] and [addConstr]. *)
Definition edge_terms (t : model_type) (c : list Qc) (o : tspmodel)
    : result exn linexpr :=
  match t with
  | tspDFJModel => dfj_terms c (edges o) (x o)
  | _ => sym_terms c (edges o) (x o)
  end.

(** A model object of [tsp.py]: one that a constructor built, with the
    objective that was last set and the constraints that were added. *)
Definition tsp_object (o : tspmodel) : Prop :=
  ∃ base obj cs,
    tsp_init (type_self o) (num_nodes o) = Ok base ∧
    o = set_model base
          (set_Constrs (setObjective (_model base) obj)
             (Constrs (_model base) ++ cs)).

(** [o] with the one constraint [coefs . x <= r] added. *)
Definition with_constr (o : tspmodel) (e : linexpr) (r : Qc) : tspmodel :=
  set_model o (addConstr_grb (_model o) (Constr e LESS_EQUAL (Const r))).

(** The decision variables of the MTZ formulation as the specification
    has them: a binary [x] per directed edge and a continuous [u] per
    node. *)
Definition MTZ_variables (n : nat) : list grbvar :=
  ((λ k : nat * nat, GrbVar "x" [k.1; k.2] BINARY None)
     <$> directed_edges_of (edges_of n)) ++
  ((λ i : nat, GrbVar "u" [i] CONTINUOUS None) <$> seq 0 n).

(** The variables that the first, overwritten calls of [addVars] in
    [tspMTZModel._getModel] leave in the model. *)
Definition MTZ_leftover_variables (n : nat) : list grbvar :=
  ((λ k : nat * nat, GrbVar "x" [k.1; k.2] BINARY None) <$> edges_of n) ++
  ((λ i : nat, GrbVar "u" [i] CONTINUOUS None) <$> seq 0 n).

(** ** Tours *)

(** The position after [i] on a cycle of [n] nodes. *)
Definition cyc_next (n i : nat) : nat :=
  if bool_decide (S i < n) then S i else 0.

(** [b] comes right after [a] on the cycle [cyc] (the first node comes
    after the last). *)
Definition on_cycle (cyc : list nat) (a b : nat) : Prop :=
  ∃ i, cyc !! i = Some a ∧ cyc !! cyc_next (length cyc) i = Some b.

(** [{a, b}] is an edge of the cycle. *)
Definition cycle_edge (cyc : list nat) (a b : nat) : Prop :=
  on_cycle cyc a b ∨ on_cycle cyc b a.

(** The entries of [sol] above the threshold are exactly the edges of
    the cycle [cyc], which passes through each of the [n] nodes once. *)
Record hamiltonian (n : nat) (cyc : list nat) (sol : list Qc) : Prop := {
  ham_nodes : cyc ≡ₚ seq 0 n;
  ham_length : length sol = length (edges_of n);
  ham_edges : ∀ k a b v,
    edges_of n !! k = Some (a, b) → sol !! k = Some v →
    (threshold < v)%Qc ↔ cycle_edge cyc a b
}.

#[global] Instance on_cycle_dec (cyc : list nat) (a b : nat) :
  Decision (on_cycle cyc a b).
Proof.
  refine (cast_if (decide (Exists
    (λ i, cyc !! i = Some a ∧ cyc !! cyc_next (length cyc) i = Some b)
    (seq 0 (length cyc))))).
  - abstract (apply Exists_exists in e as (i & _ & Hi); by exists i).
  - abstract (intros (i & Hi & Hb); apply n, Exists_exists; exists i;
              split; [| done]; apply elem_of_seq;
              apply lookup_lt_Some in Hi; lia).
Defined.

#[global] Instance cycle_edge_dec (cyc : list nat) (a b : nat) :
  Decision (cycle_edge cyc a b).
Proof. unfold cycle_edge. apply _. Defined.

(** [hamiltonian], computed. *)
Definition hamiltonian_b (n : nat) (cyc : list nat) (sol : list Qc) : bool :=
  bool_decide (cyc ≡ₚ seq 0 n) &&
  bool_decide (length sol = length (edges_of n)) &&
  forallb (λ e : nat * nat * Qc,
             bool_decide ((threshold < e.2)%Qc ↔ cycle_edge cyc e.1.1 e.1.2))
    (zip (edges_of n) sol).

(** [w] is in the adjacency list of [v]. *)
Definition in_dd (d : gmap nat (list nat)) (v w : nat) : Prop :=
  ∃ l, d !! v = Some l ∧ w ∈ l.

(** Edge [k] of [es], counted from [p], is active and joins [v] and [w]. *)
Definition active_between (es : list (nat * nat)) (p : nat) (sol : list Qc)
    (v w : nat) : Prop :=
  ∃ k a b q,
    es !! k = Some (a, b) ∧ sol !! (p + k) = Some q ∧ active q = true ∧
    ((a, b) = (v, w) ∨ (a, b) = (w, v)).

(** The position on [cyc] of position [i] of the cycle written from
    position [k]. *)
Definition rot_index (n k i : nat) : nat :=
  if bool_decide (i < n - k) then k + i else i - (n - k).

(** ** Subtours *)

(** Nodes joined by a chain of selected pairs. *)
Definition linked (sel : list (nat * nat)) : relation nat :=
  rtc (λ v w, (v, w) ∈ sel).

(** [comp] lists, each once, the nodes of one connected component of
    the graph on the nodes [0 .. n-1] whose edges are the pairs of
    [sel]. *)
Definition component (sel : list (nat * nat)) (n : nat) (comp : list nat)
    : Prop :=
  NoDup comp ∧ ∃ v, v < n ∧ ∀ w, w ∈ comp ↔ linked sel v w.

(** Each node of [l] is joined to the next one. *)
Definition chain (sel : list (nat * nat)) (l : list nat) : Prop :=
  ∀ i x y, l !! i = Some x → l !! S i = Some y → (x, y) ∈ sel.

(** The edges whose value in [vals] is above the threshold. *)
Definition chosen (n : nat) (vals : list Qc) : list (nat * nat) :=
  (filter (λ e : nat * nat * Qc, active e.2) (zip (edges_of n) vals)).*1.

(** The number of chosen edges at node [v]. *)
Definition degree (n : nat) (vals : list Qc) (v : nat) : nat :=
  length (filter (λ e : nat * nat, e.1 = v ∨ e.2 = v) (chosen n vals)).

Definition swap (e : nat * nat) : nat * nat := (e.2, e.1).

(** The chosen edges in both directions. *)
Definition selected_pairs (n : nat) (vals : list Qc) : list (nat * nat) :=
  chosen n vals ++ (swap <$> chosen n vals).

(** The tupledict [x] of [tspDFJModel(n)] written out: variable [p]
    under edge [p], then once more under the mirrored key. *)
Definition DFJ_x (n : nat) : tupledict :=
  imap (λ p k, (k, p)) (edges_of n) ++ imap (λ p k, (swap k, p)) (edges_of n).

(** Variable [k] is the variable of the edge between the two nodes of
    [ij]. *)
Definition edge_var (n : nat) (ij : nat * nat) (k : nat) : Prop :=
  edges_of n !! k = Some ij ∨ edges_of n !! k = Some (swap ij).

(** [ps] has each pair of different nodes of [l] once, in one order. *)
Definition pairs_of (l : list nat) (ps : list (nat * nat)) : Prop :=
  NoDup ps ∧
  (∀ i j, (i, j) ∈ ps → i ∈ l ∧ j ∈ l ∧ i ≠ j ∧ (j, i) ∉ ps) ∧
  (∀ i j, i ∈ l → j ∈ l → i ≠ j → (i, j) ∈ ps ∨ (j, i) ∈ ps).

(** [c] is the cut [sum of x[i, j] over the pairs inside comp
    <= len(comp) - 1]. *)
Definition subtour_cut (n : nat) (comp : list nat) (c : constr) : Prop :=
  ∃ ps ts,
    pairs_of comp ps ∧
    Forall2 (λ ij t, ∃ k, edge_var n ij k ∧ t = Var k) ps ts ∧
    c = Constr (quicksum ts) LESS_EQUAL
          (Const (Qc_of_Z (Z.of_nat (length comp) - 1))).

(** ** A four-node instance *)

Definition no_model : tspmodel := TspModel tspDFJModel 0 [] [] gp_Model [].

(** [tspDFJModel(4)] *)
Definition DFJ4 : tspmodel :=
  match tsp_init tspDFJModel 4 with Ok o => o | _ => no_model end.

(** [tspDFJModel(4).addConstr([1, 0, 0, 0, 0, 0], 0)]: edge (0, 1) is
    forbidden. *)
Definition DFJ4_without_01 : tspmodel :=
  match addConstr 0 [1; 0; 0; 0; 0; 0]%Qc 0%Qc {[0 := DFJ4]} with
  | Ok (l, σ) => default no_model (σ !! l)
  | _ => no_model
  end.

(** Costs over the edges (0,1) (0,2) (0,3) (1,2) (1,3) (2,3). *)
Definition costs4 : list Qc := Qc_of_Z <$> [1; 5; 1; 1; 5; 1]%Z.

(** The tour 0-1-2-3-0, the cheapest one, and the tour 0-2-1-3-0, the
    only one without the edge (0, 1). *)
Definition tour_0123 : list Qc := [1; 0; 1; 1; 0; 1]%Qc.
Definition tour_0213 : list Qc := [0; 1; 1; 1; 1; 0]%Qc.

(** One example: predicted and true cost are [costs4]; the true solution
    and objective are the optimum of the model without the edge (0, 1). *)
Definition batch4 : batch :=
  Batch [costs4] [costs4] [tour_0213] [Qc_of_Z 12].

(** The same with a true objective that is off by one. *)
Definition batch4_off : batch :=
  Batch [costs4] [costs4] [tour_0213] [Qc_of_Z 13].

(** One example at the edge of the tolerance: the true objective is
    33000 and the dot product of true cost and true solution is 32967,
    so that the gap is 33 and the exact quotient 33 / 33000.001 is below
    1e-3. *)
Definition batch_33000 : batch :=
  Batch [Qc_of_Z <$> [0; 32967; 0; 0; 0; 0]%Z]
        [Qc_of_Z <$> [0; 32967; 0; 0; 0; 0]%Z]
        [tour_0213] [Qc_of_Z 33000].

(** Costs with one cheapest tour, 0-1-2-3-0 at 5, and one most expensive
    tour, 0-2-1-3-0 at 13 (the third tour, 0-1-3-2-0, costs 12), and a
    batch of one example with them: predicted and true cost are these
    costs, the true solution is the tour 0-2-1-3-0, the true objective
    its cost. *)
Definition costs4_apart : list Qc := Qc_of_Z <$> [1; 5; 1; 2; 5; 1]%Z.

Definition batch4_apart : batch :=
  Batch [costs4_apart] [costs4_apart] [tour_0213] [Qc_of_Z 13].

(** [tspDFJModel(4)] with the optimisation sense of its Gurobi model
    changed to maximize ([_model.modelSense = GRB.MAXIMIZE]): the solver
    returns a most expensive tour. *)
Definition DFJ4_maximize : tspmodel :=
  set_model DFJ4 (set_ModelSense (_model DFJ4) GRB_MAXIMIZE).

(** ** A three-node instance *)

(** [tspDFJModel(3)], and the same with the sense maximize.  Three nodes
    have one tour only, so that both return it. *)
Definition DFJ3 : tspmodel :=
  match tsp_init tspDFJModel 3 with Ok o => o | _ => no_model end.

Definition DFJ3_maximize : tspmodel :=
  set_model DFJ3 (set_ModelSense (_model DFJ3) GRB_MAXIMIZE).

(** One example over the edges (0,1) (0,2) (1,2); the true objective
    3001 is within the tolerance of the dot product 3000. *)
Definition batch3 : batch :=
  Batch [Qc_of_Z <$> [1000; 1000; 1000]%Z]
        [Qc_of_Z <$> [1000; 1000; 1000]%Z]
        [[1; 1; 1]%Qc] [Qc_of_Z 3001].

(** ** A six-node instance *)

(** [tspDFJModel(6)] *)
Definition DFJ6 : tspmodel :=
  match tsp_init tspDFJModel 6 with Ok o => o | _ => no_model end.

(** The candidate with the two subtours 0-1-2-0 and 3-4-5-3; the edges
    are (0,1) (0,2) (0,3) (0,4) (0,5) (1,2) (1,3) (1,4) (1,5) (2,3) (2,4)
    (2,5) (3,4) (3,5) (4,5). *)
Definition two_triangles : list Qc :=
  [1; 1; 0; 0; 0; 1; 0; 0; 0; 0; 0; 0; 1; 1; 1]%Qc.

(** ** What the constructors build *)

(** The tupledict [x] of a model of class [t] on [n] nodes, written out.
    The two MTZ classes make their [x] after the variables of the first
    two [addVars] calls. *)
Definition x_of (t : model_type) (n : nat) : tupledict :=
  match t with
  | tspDFJModel => DFJ_x n
  | tspGGModel | tspGGModelRel =>
      imap (λ p k, (k, p)) (directed_edges_of (edges_of n))
  | tspMTZModel | tspMTZModelRel =>
      imap (λ p k, (k, length (edges_of n) + n + p))
        (directed_edges_of (edges_of n))
  end.

(** The number of variables of the Gurobi model. *)
Definition num_vars (t : model_type) (n : nat) : nat :=
  match t with
  | tspDFJModel => length (edges_of n)
  | tspGGModel | tspGGModelRel => 4 * length (edges_of n)
  | tspMTZModel | tspMTZModelRel => 3 * length (edges_of n) + 2 * n
  end.

(** A variable [x] made continuous between 0 and 1, as the relaxations
    declare it; other variables as they are. *)
Definition relaxed_var (v : grbvar) : grbvar :=
  if bool_decide (VarName v = "x") then
    GrbVar "x" (VarKey v) CONTINUOUS (Some 1%Qc)
  else v.

(** The class that [relax] constructs. *)
Definition relaxation_of (t : model_type) : model_type :=
  match t with
  | tspGGModel => tspGGModelRel
  | tspMTZModel => tspMTZModelRel
  | t => t
  end.

(** ** Solutions that are no tour *)

(** No edge of [es] has a value of [sol] above the threshold. *)
Definition no_active_edge (es : list (nat * nat)) (sol : list Qc) : Prop :=
  ∀ k e v, es !! k = Some e → sol !! k = Some v → active v = false.

(** Node 0 has no edge above the threshold, and some edge is above it. *)
Definition start_is_isolated (es : list (nat * nat)) (sol : list Qc) : Prop :=
  (∀ k j v, es !! k = Some (0, j) → sol !! k = Some v → active v = false) ∧
  ∃ k e v, es !! k = Some e ∧ sol !! k = Some v ∧ active v = true.

(** What [subtour] finds in any graph: a chain of different nodes below
    [n], walked from its first node along selected pairs. *)
Definition greedy_walk (sel : list (nat * nat)) (n : nat) (tour : list nat)
    : Prop :=
  tour ≠ [] ∧ NoDup tour ∧ (∀ v, v ∈ tour → v < n) ∧ chain sel tour.

(* ================================================================== *)
(** * [SPOPlus.__init__] and the globals of [spoplus.py] *)
(* ================================================================== *)

(** The module globals [_SPO_FUNC_SPOP_OPTMODEL] and
    [_SPO_FUNC_SPOP_PROCESSES], which [__init__] assigns and the static
    methods [forward] and [backward] read; [None] while unassigned. *)
Record spo_globals (M : Type) := SpoGlobals {
  OPTMODEL : option M;
  PROCESSES : option Z
}.
Arguments SpoGlobals {M}.
Arguments OPTMODEL {M}.
Arguments PROCESSES {M}.

(** The argument [optmodel] of [__init__]: an instance of [optModel] or
    any other object. *)
Inductive init_arg (M : Type) :=
| an_optModel (m : M)
| other_object.
Arguments an_optModel {M}.
Arguments other_object {M}.

(** The exceptions of [__init__]; the [ValueError] carries the two
    numbers that its message is formatted with. *)
Inductive init_exn :=
| TypeError (msg : string)
| InvalidProcessors (processes : Z) (cores : nat).

(** [SPOPlus.__init__(optmodel, processes)] on a machine with
    [cpu_count] cores (the [print] apart): the exception, if any, and the
    globals as the call leaves them. *)
Definition SPOPlus_init {M} (cpu_count : nat) (optmodel : init_arg M)
    (processes : Z) (g : spo_globals M)
    : result init_exn () * spo_globals M :=
  match optmodel with
  | other_object => (Raise (TypeError "arg model is not an optModel"), g)
  | an_optModel m =>
      let g := SpoGlobals (Some m) (PROCESSES g) in
      if bool_decide (0 ≤ processes ≤ Z.of_nat cpu_count)%Z then
        (Ok (), SpoGlobals (OPTMODEL g) (Some processes))
      else (Raise (InvalidProcessors processes cpu_count), g)
  end.

(** [forward] as the static method runs: on the globals.  [None] is the
    [NameError] of a global that was never assigned. *)
Definition forward_on_globals {M} `{!optModel M} (modelSense : M → EPO)
    (g : spo_globals M) (b : batch)
    : option (result loss_exn (list Qc * saved_tensors) * M * list call) :=
  match OPTMODEL g, PROCESSES g with
  | Some optmodel, Some processes =>
      Some (forward (modelSense optmodel) optmodel (Z.to_nat processes) b)
  | _, _ => None
  end.

(* ================================================================== *)
(** * [autoSklearnPred] of [autosklearnpred.py] *)
(* ================================================================== *)

Section TwoStage.

(** Arrays with their [shape]; the regressor of auto-sklearn with its
    [fit] and [predict]. *)
Context {A P : Type} (shape : A → list nat).
Context (regressor_fit : P → A → A → P) (regressor_predict : P → A → A).

Record autoSklearnPred := AutoSklearnPred {
  predictor : P;
  optimizer : tspmodel;
  trained : bool
}.

(** [autoSklearnPred(omodel)], with [regressor] the new
    [AutoSklearnRegressor]. *)
Definition autoSklearnPred_init (regressor : P) (omodel : tspmodel)
    : autoSklearnPred :=
  AutoSklearnPred regressor omodel false.

(** [fit(x, c)] *)
Definition fit (self : autoSklearnPred) (x c : A)
    : result exn autoSklearnPred :=
  if negb (bool_decide (length (shape c) = 2) &&
           bool_decide (last (shape c) = Some (num_cost (optimizer self))))
  then Raise (ValueError "Dimension of cost does not macth.")
  else Ok (AutoSklearnPred (regressor_fit (predictor self) x c)
             (optimizer self) true).

(** [predict(x)] *)
Definition predict (self : autoSklearnPred) (x : A) : result exn A :=
  if negb (trained self) then Raise (RuntimeError "Model is not fitted yet.")
  else Ok (regressor_predict (predictor self) x).

End TwoStage.

(** ** More instances *)

(** [DFJ4] after [setObj(costs4)]. *)
Definition DFJ4_priced : tspmodel :=
  match setObj DFJ4 costs4 with Ok o => o | _ => no_model end.

(** [tspGGModel(3)] *)
Definition GG3 : tspmodel :=
  match tsp_init tspGGModel 3 with Ok o => o | _ => no_model end.

(** [GGRel3] after [setObj([1, 2, 3])]. *)
Definition GGRel3_priced : tspmodel :=
  match setObj GGRel3 (Qc_of_Z <$> [1; 2; 3]%Z) with
  | Ok o => o
  | _ => no_model
  end.

(** Values of the twelve variables of [GGRel3]: half of each [x], and
    [y] at 0. *)
Definition halves : list Qc :=
  replicate 6 (Q2Qc (1 # 2)) ++ replicate 6 0%Qc.

(** A solver that answers [halves] with the objective value 6. *)
Definition answers_halves (m : grbmodel)
    (cb : option (grbmodel → list Qc → result exn (option constr)))
    : option (list Qc * Qc) :=
  Some (halves, Qc_of_Z 6).

(** On four nodes: the triangle 1-2-3-1, which leaves node 0 out. *)
Definition triangle_123 : list Qc := [0; 0; 0; 1; 1; 1]%Qc.

(** ** Tours in the DFJ model *)

(** The position before [i] on a cycle of [n] nodes. *)
Definition cyc_prev (n i : nat) : nat :=
  if bool_decide (i = 0) then n - 1 else i - 1.

(** [m] times one. *)
Definition ones (m : nat) : Qc := Nat.iter m (Qcplus 1) 0%Qc.

(* ================================================================== *)
(** * Properties *)
(* ================================================================== *)

(** C8.  On a linear-relaxation model ([tspGGModelRel] or
    [tspMTZModelRel]), whatever the store, the solution vector and the
    fuel, [relax()] raises the error "Model has already been relaxed."
    and [getTour()] raises the error "Relaxation Model has no integer
    solution."; neither returns a value. *)
Theorem relaxation_forbids_relax_and_getTour
    (base_relax : nat → store → result exn (nat * store))
    (σ : store) (self : nat) (o : tspmodel) (fuel : nat) (sol : list Qc) :
  σ !! self = Some o →
  is_relaxation (type_self o) →
  relax base_relax self σ
    = Raise (RuntimeError "Model has already been relaxed.") ∧
  getTour fuel o sol
    = Raise (RuntimeError "Relaxation Model has no integer solution.").
Proof.
  intros Hself [Ht | Ht]; unfold relax, deref, getTour;
    rewrite Hself; simpl; rewrite Ht; done.
Qed.

Lemma relaxation_forbids_witness :
  relax (λ _ _, Raise KeyError) 0 {[0 := GGRel3]}
    = Raise (RuntimeError "Model has already been relaxed.") ∧
  getTour 5 GGRel3 [1%Qc; 1%Qc; 1%Qc]
    = Raise (RuntimeError "Relaxation Model has no integer solution.").
Proof.
  apply (relaxation_forbids_relax_and_getTour _ {[0 := GGRel3]} 0 GGRel3).
  - reflexivity.
  - left. reflexivity.
Defined.

(* ================================================================== *)
(** * The backward pass *)
(* ================================================================== *)

Section Means.

Local Open Scope Qc_scope.

Lemma fmap_zip_with_Qcplus (f : Qc → Qc) (r s : list Qc) :
  (∀ p q, f (p + q) = f p + f q) →
  f <$> zip_with Qcplus r s = zip_with Qcplus (f <$> r) (f <$> s).
Proof.
  intros Hf. revert s. induction r as [|p r IH]; intros [|q s]; simpl; try done.
  by rewrite Hf, IH.
Qed.

(** The sum of the rows is linear. *)
Lemma sum_rows_linear (f : Qc → Qc) (d : nat) (a : list (list Qc)) :
  f 0 = 0 → (∀ p q, f (p + q) = f p + f q) →
  f <$> foldr (zip_with Qcplus) (replicate d 0) a
  = foldr (zip_with Qcplus) (replicate d 0) (fmap (M:=list) f <$> a).
Proof.
  intros H0 Hf. induction a as [|r a IH]; simpl.
  - rewrite fmap_replicate. by rewrite H0.
  - rewrite fmap_zip_with_Qcplus by done. by rewrite IH.
Qed.

Lemma mean0_linear (f : Qc → Qc) (a : list (list Qc)) :
  f 0 = 0 → (∀ p q, f (p + q) = f p + f q) → (∀ p q, f (p / q) = f p / q) →
  f <$> mean0 a = mean0 (fmap (M:=list) f <$> a).
Proof.
  intros H0 Hf Hd. unfold mean0.
  rewrite <- list_fmap_compose.
  assert (length (hd [] (fmap (M:=list) f <$> a)) = length (hd [] a)) as ->.
  { destruct a; simpl; [done | by rewrite length_fmap]. }
  rewrite length_fmap.
  rewrite <- (sum_rows_linear f) by done.
  rewrite <- list_fmap_compose.
  apply list_fmap_ext. intros _ s _. simpl. apply Hd.
Qed.

(** The sum of the rows of a matrix with [d] columns, column by column. *)
Lemma sum_rows_columns (d : nat) (a : list (list Qc)) :
  Forall (λ r, length r = d) a →
  foldr (zip_with Qcplus) (replicate d 0) a
  = (λ j, foldr Qcplus 0 (column a j)) <$> seq 0 d.
Proof.
  induction 1 as [|r a Hr Ha IH]; simpl.
  - apply list_eq. intros j.
    rewrite list_lookup_fmap.
    destruct (decide (j < d)%nat) as [Hj | Hj].
    + rewrite lookup_replicate_2, lookup_seq_lt by done. done.
    + rewrite lookup_ge_None_2 by (rewrite length_replicate; lia).
      rewrite lookup_seq_ge by lia. done.
  - rewrite IH. apply list_eq. intros j.
    rewrite lookup_zip_with, !list_lookup_fmap.
    destruct (decide (j < d)%nat) as [Hj | Hj].
    + rewrite lookup_seq_lt by done. simpl.
      destruct (lookup_lt_is_Some_2 r j) as [p Hp]; [lia |].
      rewrite Hp. simpl. done.
    + rewrite lookup_seq_ge by lia. simpl.
      rewrite lookup_ge_None_2 by lia. done.
Qed.

Lemma mean0_batch_mean (d : nat) (a : list (list Qc)) :
  a ≠ [] → Forall (λ r, length r = d) a → mean0 a = batch_mean d a.
Proof.
  intros Hne Ha. unfold mean0, batch_mean.
  assert (length (hd [] a) = d) as ->.
  { destruct a as [|r a]; [done |]. by inversion Ha. }
  rewrite sum_rows_columns by done.
  by rewrite <- list_fmap_compose.
Qed.

Lemma mat_sub_twice (a b : list (list Qc)) :
  fmap (M:=list) (Qcmult 2) <$> mat_sub a b = twice_diff a b.
Proof.
  unfold mat_sub, twice_diff. revert b.
  induction a as [|r a IH]; intros [|s b]; simpl; try done.
  f_equal; [| apply IH].
  clear. revert s. induction r as [|p r IH]; intros [|q s]; simpl; try done.
  by rewrite IH.
Qed.

Lemma twice_diff_shape (d : nat) (a b : list (list Qc)) :
  Forall (λ r, length r = d) a → Forall (λ r, length r = d) b →
  Forall (λ r, length r = d) (twice_diff a b).
Proof.
  intros Ha. revert b. induction Ha as [|r a Hr Ha IH]; intros b Hb.
  - constructor.
  - destruct Hb as [|s b Hs Hb]; [constructor |].
    unfold twice_diff; simpl. constructor; [| by apply IH].
    rewrite length_zip_with. lia.
Qed.

Lemma mat_sub_swap (a b : list (list Qc)) :
  mat_sub b a = fmap (M:=list) Qcopp <$> mat_sub a b.
Proof.
  unfold mat_sub. revert b.
  induction a as [|r a IH]; intros [|s b]; simpl; try done.
  f_equal; [| apply IH].
  clear. revert s. induction r as [|p r IH]; intros [|q s]; simpl; try done.
  rewrite IH. f_equal. ring.
Qed.

Lemma grad_swap (a b : list (list Qc)) :
  Qcmult 2 <$> mean0 (mat_sub b a)
  = Qcopp <$> (Qcmult 2 <$> mean0 (mat_sub a b)).
Proof.
  rewrite mat_sub_swap.
  rewrite <- (mean0_linear Qcopp).
  - rewrite <- !list_fmap_compose. apply list_fmap_ext.
    intros _ q _. simpl. ring.
  - ring.
  - intros; ring.
  - intros p q. unfold Qcdiv. ring.
Qed.

End Means.

(** C2.  For a batch of [n > 0] saved true solutions [w] and surrogate
    solutions [wq] of [d] entries each and every upstream gradient [g],
    [backward] returns [g] times the batch mean of [2 * (w - wq)] as the
    gradient for the predicted cost when the sense is minimize, [g]
    times the batch mean of [2 * (wq - w)] when it is maximize, and
    [None] for the true cost, the true solution and the true
    objective. *)
Theorem backward_is_scaled_mean_subgradient
    (n d : nat) (w wq : list (list Qc)) (g : list Qc) :
  0 < n →
  length w = n → Forall (λ r, length r = d) w →
  length wq = n → Forall (λ r, length r = d) wq →
  backward MINIMIZE (Saved w wq) g
    = (scaled_by g (batch_mean d (twice_diff w wq)), None, None, None) ∧
  backward MAXIMIZE (Saved w wq) g
    = (scaled_by g (batch_mean d (twice_diff wq w)), None, None, None).
Proof.
  intros Hn Hw Hwd Hq Hqd.
  assert (∀ a b : list (list Qc),
    length a = n → Forall (λ r, length r = d) a →
    length b = n → Forall (λ r, length r = d) b →
    Qcmult 2 <$> mean0 (mat_sub a b) = batch_mean d (twice_diff a b)) as Hgrad.
  { intros a b Ha Had Hb Hbd.
    rewrite (mean0_linear (Qcmult 2)).
    - rewrite mat_sub_twice. apply mean0_batch_mean.
      + destruct a, b; simpl in *; try lia. done.
      + by apply twice_diff_shape.
    - ring.
    - intros; ring.
    - intros p q. unfold Qcdiv. ring. }
  split; unfold backward, scaled_by; simpl; by rewrite Hgrad.
Qed.

Lemma backward_is_scaled_mean_subgradient_witness :
  backward MINIMIZE
      (Saved [[1; 0; 1]; [0; 1; 1]]%Qc [[1; 1; 0]; [1; 1; 0]]%Qc) [1; 2]%Qc
    = (scaled_by [1; 2]%Qc
         (batch_mean 3
            (twice_diff [[1; 0; 1]; [0; 1; 1]]%Qc [[1; 1; 0]; [1; 1; 0]]%Qc)),
       None, None, None) ∧
  backward MAXIMIZE
      (Saved [[1; 0; 1]; [0; 1; 1]]%Qc [[1; 1; 0]; [1; 1; 0]]%Qc) [1; 2]%Qc
    = (scaled_by [1; 2]%Qc
         (batch_mean 3
            (twice_diff [[1; 1; 0]; [1; 1; 0]]%Qc [[1; 0; 1]; [0; 1; 1]]%Qc)),
       None, None, None).
Proof.
  apply (backward_is_scaled_mean_subgradient 2 3).
  - lia.
  - reflexivity.
  - repeat constructor.
  - reflexivity.
  - repeat constructor.
Defined.

(** On the same saved tensors the gradient for maximize is the negated
    gradient for minimize. *)
Lemma backward_sense_flip (ctx : saved_tensors) (g : list Qc) :
  (backward MAXIMIZE ctx g)
  = (fmap (M:=list) Qcopp <$> (backward MINIMIZE ctx g).1.1.1, None, None, None).
Proof.
  unfold backward. simpl. f_equal. f_equal. f_equal.
  rewrite grad_swap.
  rewrite <- (list_fmap_compose _ (fmap Qcopp)).
  apply list_fmap_ext. intros _ gi _. simpl.
  rewrite <- !list_fmap_compose. apply list_fmap_ext. intros _ q _. simpl.
  ring.
Qed.

(* ================================================================== *)
(** * The forward pass *)
(* ================================================================== *)

Lemma forM_Ok_Forall2 {E A B} (f : A → result E B) (l : list A) (bs : list B) :
  forM l f = Ok bs ↔ Forall2 (λ a b, f a = Ok b) l bs.
Proof.
  revert bs. induction l as [|a l IH]; intros bs; simpl.
  - split.
    + intros [= <-]. constructor.
    + by inversion 1.
  - destruct (f a) as [b | e |] eqn:Hfa; simpl.
    + destruct (forM l f) as [bs' | e |] eqn:Hl; simpl.
      * split.
        -- intros [= <-]. constructor; [done | by apply IH].
        -- inversion 1 as [|? b' ? bs'' Hb Hbs]; subst.
           rewrite Hfa in Hb. injection Hb as <-.
           apply IH in Hbs. by injection Hbs as <-.
      * split; [done |]. inversion 1 as [|? b' ? bs'' Hb Hbs]; subst.
        by apply IH in Hbs.
      * split; [done |]. inversion 1 as [|? b' ? bs'' Hb Hbs]; subst.
        by apply IH in Hbs.
    + split; [done |]. inversion 1; subst. congruence.
    + split; [done |]. inversion 1; subst. congruence.
Qed.

Lemma forM_total {E A B} (f : A → result E B) (g : A → B) (l : list A) :
  Forall (λ a, f a = Ok (g a)) l → forM l f = Ok (g <$> l).
Proof.
  induction 1 as [|a l Ha Hl IH]; simpl; [done |].
  by rewrite Ha, IH.
Qed.

Lemma surrogate_cost_Ok (a b : list Qc) :
  length a = length b →
  surrogate_cost a b = Ok (zip_with (λ p q, 2 * p - q)%Qc a b).
Proof.
  intros H. unfold surrogate_cost. by rewrite bool_decide_eq_true_2.
Qed.


Section Shapes.

Context (n d : nat) (b : batch) (Hb : batch_shape n d b).

Lemma shape_rows (i : nat) :
  i < n →
  ∃ cp c w z,
    pred_cost b !! i = Some cp ∧ true_cost b !! i = Some c ∧
    true_sol b !! i = Some w ∧ true_obj b !! i = Some z ∧
    length cp = d ∧ length c = d ∧ length w = d.
Proof using Hb.
  destruct Hb as (Hz & Hcp & Hcpd & Hc & Hcd & Hw & Hwd). intros Hi.
  destruct (lookup_lt_is_Some_2 (pred_cost b) i) as [cp Ecp]; [lia |].
  destruct (lookup_lt_is_Some_2 (true_cost b) i) as [c Ec]; [lia |].
  destruct (lookup_lt_is_Some_2 (true_sol b) i) as [w Ew]; [lia |].
  destruct (lookup_lt_is_Some_2 (true_obj b) i) as [z Ez]; [lia |].
  exists cp, c, w, z. repeat split; try done.
  - by apply (Forall_lookup_1 _ _ _ _ Hcpd Ecp).
  - by apply (Forall_lookup_1 _ _ _ _ Hcd Ec).
  - by apply (Forall_lookup_1 _ _ _ _ Hwd Ew).
Qed.

Lemma check_sol_spec (rows : list nat) :
  Forall (λ i, i < n) rows →
  (check_sol rows (true_cost b) (true_sol b) (true_obj b) = Raise AssertionError
   ∧ ∃ i, i ∈ rows ∧ violates b i)
  ∨ (check_sol rows (true_cost b) (true_sol b) (true_obj b) = Ok ()
     ∧ ∀ i, i ∈ rows → ¬ violates b i).
Proof using Hb.
  induction 1 as [|i rows Hi Hrows IH]; simpl.
  - right. split; [done |]. intros i Hi. by apply elem_of_nil in Hi.
  - destruct (shape_rows i Hi) as (cp & c & w & z & Ecp & Ec & Ew & Ez & Lcp & Lc & Lw).
    unfold np_getitem, np_dot. rewrite Ez, Ec, Ew. simpl.
    rewrite bool_decide_eq_true_2 by congruence. simpl.
    fold (dot c w).
    destruct (inconsistent z (dot c w)) eqn:Hinc.
    + left. split; [done |]. exists i. split; [left |].
      exists z, c, w. repeat split; try done.
    + destruct IH as [[-> (j & Hj & Hv)] | [-> Hall]].
      * left. split; [done |]. exists j. split; [by right | done].
      * right. split; [done |]. intros j Hj (z' & c' & w' & Ez' & Ec' & Ew' & Hv).
        apply elem_of_cons in Hj as [-> | Hj].
        -- rewrite Ez in Ez'. rewrite Ec in Ec'. rewrite Ew in Ew'.
           injection Ez' as <-. injection Ec' as <-. injection Ew' as <-.
           change (inconsistent z (dot c w) = true) in Hv. congruence.
        -- apply (Hall j Hj). by exists z', c', w'.
Qed.

Lemma check_sol_consistent :
  consistent b →
  check_sol (seq 0 n) (true_cost b) (true_sol b) (true_obj b) = Ok ().
Proof using Hb.
  intros Hc.
  destruct (check_sol_spec (seq 0 n)) as [[_ (i & _ & Hv)] | [-> _]]; [| | done].
  - apply Forall_forall. intros i Hi. apply elem_of_seq in Hi. lia.
  - by destruct (Hc i).
Qed.

Lemma surrogates_lookup (i : nat) (cp c : list Qc) :
  pred_cost b !! i = Some cp → true_cost b !! i = Some c →
  surrogates b !! i = Some (zip_with (λ p q, 2 * p - q)%Qc cp c).
Proof.
  intros Ecp Ec. unfold surrogates.
  rewrite lookup_zip_with, Ecp. simpl. by rewrite Ec.
Qed.

Lemma surrogates_length : length (surrogates b) = n.
Proof using Hb.
  destruct Hb as (Hz & Hcp & Hcpd & Hc & Hcd & Hw & Hwd).
  unfold surrogates. rewrite length_zip_with. lia.
Qed.

Lemma examples_lookup (i : nat) (cp w : list Qc) (z : Qc) :
  pred_cost b !! i = Some cp → true_sol b !! i = Some w →
  true_obj b !! i = Some z → examples b !! i = Some (cp, w, z).
Proof.
  intros Ecp Ew Ez. unfold examples.
  rewrite lookup_zip_with. rewrite lookup_zip_with. rewrite Ecp. simpl. rewrite Ew. simpl. by rewrite Ez.
Qed.

Lemma loss_entry_spec (i : nat) (objq : Qc) :
  i < n →
  ∃ e, examples b !! i = Some e ∧
       loss_entry b i objq = Ok (spo_plus MINIMIZE objq e.1.1 e.1.2 e.2).
Proof using Hb.
  intros Hi.
  destruct (shape_rows i Hi) as (cp & c & w & z & Ecp & Ec & Ew & Ez & Lcp & Lc & Lw).
  exists (cp, w, z). split; [by apply examples_lookup |].
  unfold loss_entry, np_getitem, np_dot. rewrite Ecp, Ew, Ez. simpl.
  rewrite bool_decide_eq_true_2 by congruence. done.
Qed.


Context {M : Type} `{!optModel M}.

Lemma single_core_spec (m k : nat) (mdl : M) (log : list call)
    (loss : list Qc) (sol : list (list Qc))
    (L : list Qc) (S : list (list Qc)) (mdl' : M) (log' : list call) :
  k + m = n →
  single_core (seq k m) b mdl log loss sol = (Ok (L, S), mdl', log') ↔
  ∃ outs,
    solved_in_turn mdl (drop k (surrogates b)) outs mdl' ∧
    L = loss ++ zip_with (λ objq e, spo_plus MINIMIZE objq e.1.1 e.1.2 e.2)
                  outs.*2 (drop k (examples b)) ∧
    S = sol ++ outs.*1 ∧
    log' = log ++ calls_in_turn (drop k (surrogates b)).
Proof using Hb.
  revert k mdl log loss sol. induction m as [|m IH]; intros k mdl log loss sol Hk.
  - simpl. rewrite (drop_ge (surrogates b)) by (rewrite surrogates_length; lia).
    split.
    + intros [= <- <- <- <-]. exists []. split; [constructor |].
      simpl. by rewrite !app_nil_r.
    + intros (outs & Hs & -> & -> & ->). inversion Hs; subst.
      simpl. by rewrite !app_nil_r.
  - assert (k < n) as Hkn by lia.
    destruct (shape_rows k Hkn)
      as (cp & c & w & z & Ecp & Ec & Ew & Ez & Lcp & Lc & Lw).
    pose proof (surrogates_lookup k cp c Ecp Ec) as Hsur.
    pose proof (examples_lookup k cp w z Ecp Ew Ez) as Hex.
    rewrite (drop_S _ _ _ Hsur), (drop_S _ _ _ Hex).
    cbn [seq single_core].
    unfold np_getitem at 1 2. rewrite Ecp, Ec. cbn [mbind result_bind].
    unfold surrogate_cost. rewrite bool_decide_eq_true_2 by congruence.
    set (cost := zip_with (λ p q, 2 * p - q)%Qc cp c).
    destruct (om_setObj mdl cost) as [m1 | e |] eqn:Hset;
      [| split; [done | intros (outs & Hs & _); inversion Hs; congruence] ..].
    destruct (om_solve m1) as [[solq objq] | e |] eqn:Hsolve;
      [| split; [done | intros (outs & Hs & _); inversion Hs; subst;
                        congruence] ..].
    destruct (loss_entry_spec k objq Hkn) as (e & He & ->).
    rewrite Hex in He. injection He as <-.
    rewrite IH by lia. split.
    + intros (outs & Hs & -> & -> & ->).
      exists ((solq, objq) :: outs). split; [by econstructor |].
      simpl. unfold calls_in_turn. simpl.
      rewrite <- !(assoc_L (++)). done.
    + intros (outs & Hs & -> & -> & ->).
      inversion Hs as [| ? ? m1' solq' objq' ? outs' ? Hset' Hsolve' Hs']; subst.
      rewrite Hset in Hset'. injection Hset' as <-.
      rewrite Hsolve in Hsolve'. injection Hsolve' as <- <-.
      exists outs'. split; [done |].
      simpl. unfold calls_in_turn. simpl.
      rewrite <- !(assoc_L (++)). done.
Qed.


Lemma surrogate_costs_spec :
  surrogate_costs (pred_cost b) (true_cost b) = Ok (surrogates b).
Proof using Hb.
  destruct Hb as (Hz & Hcp & Hcpd & Hc & Hcd & Hw & Hwd).
  unfold surrogate_costs. rewrite bool_decide_eq_true_2 by congruence.
  unfold surrogates.
  clear Hz Hcp Hc Hw Hwd. revert Hcd. generalize (true_cost b).
  induction Hcpd as [|cp cps Hcp Hcps IH]; intros [|c cs] Hcd; try done.
  inversion Hcd as [|? ? Hc Hcs]; subst.
  cbn [zip_with forM fst snd].
  rewrite surrogate_cost_Ok by congruence.
  cbn [mbind result_bind].
  by rewrite (IH cs Hcs).
Qed.

Lemma solveWithObj4Par_Ok (cost : list Qc) (mdl : M) (out : list Qc * Qc) :
  of_model (solveWithObj4Par cost mdl) = Ok out ↔
  ∃ m0 m1, om_rebuild mdl = Ok m0 ∧ om_setObj m0 cost = Ok m1 ∧
           om_solve m1 = Ok out.
Proof.
  unfold solveWithObj4Par.
  destruct (om_rebuild mdl) as [m0 | e |]; simpl;
    [| split; [done | intros (? & ? & ? & _); congruence] ..].
  destruct (om_setObj m0 cost) as [m1 | e |] eqn:Hset; simpl;
    [| split; [done | intros (? & ? & [= <-] & ? & _); congruence] ..].
  destruct (om_solve m1) as [out' | e |] eqn:Hsolve; simpl.
  - split.
    + intros [= <-]. by exists m0, m1.
    + intros (? & ? & [= <-] & Hs & Ho). congruence.
  - split; [done |]. intros (? & ? & [= <-] & Hs & Ho). congruence.
  - split; [done |]. intros (? & ? & [= <-] & Hs & Ho). congruence.
Qed.

Lemma amap_spec (mdl : M) (outs : list (list Qc * Qc)) :
  amap (surrogates b) n mdl = Ok outs ↔ solved_in_pool mdl (surrogates b) outs.
Proof using Hb.
  unfold amap, solved_in_pool.
  rewrite take_ge by (rewrite surrogates_length; lia).
  rewrite forM_Ok_Forall2.
  split; intros H; eapply Forall2_impl; try exact H;
    intros cost out; by rewrite solveWithObj4Par_Ok.
Qed.

Lemma loss_loop_spec (objs : list Qc) :
  length objs = n →
  forM (seq 0 n) (λ i, o ← np_getitem objs i; loss_entry b i o)
  = Ok (zip_with (λ objq e, spo_plus MINIMIZE objq e.1.1 e.1.2 e.2)
          objs (examples b)).
Proof using Hb.
  intros Hobjs.
  set (g := λ i : nat,
    default 0%Qc
      (zip_with (λ objq e, spo_plus MINIMIZE objq e.1.1 e.1.2 e.2)
         objs (examples b) !! i)).
  rewrite (forM_total _ g).
  - f_equal. apply list_eq. intros i. rewrite list_lookup_fmap.
    destruct (decide (i < n)) as [Hi | Hi].
    + rewrite lookup_seq_lt by done. simpl. unfold g.
      destruct (lookup_lt_is_Some_2 objs i) as [o Ho]; [lia |].
      destruct (loss_entry_spec i o Hi) as (e & He & _).
      destruct (zip_with _ objs (examples b) !! i) as [v|] eqn:Hv; [done |].
      rewrite lookup_zip_with, Ho in Hv. simpl in Hv. by rewrite He in Hv.
    + rewrite lookup_seq_ge by lia. simpl. symmetry.
      apply lookup_ge_None_2. rewrite length_zip_with. lia.
  - apply Forall_forall. intros i Hi. apply elem_of_seq in Hi.
    assert (i < n) as Hin by lia.
    destruct (lookup_lt_is_Some_2 objs i) as [o Ho]; [lia |].
    destruct (loss_entry_spec i o Hin) as (e & He & Hl).
    unfold np_getitem. rewrite Ho. simpl. rewrite Hl. f_equal.
    unfold g. rewrite lookup_zip_with, Ho. simpl. by rewrite He.
Qed.

Lemma multi_core_spec (mdl : M) (L : list Qc) (S : list (list Qc))
    (log : list call) :
  multi_core n b mdl = (Ok (L, S), log) ↔
  ∃ outs,
    solved_in_pool mdl (surrogates b) outs ∧
    L = zip_with (λ objq e, spo_plus MINIMIZE objq e.1.1 e.1.2 e.2)
          outs.*2 (examples b) ∧
    S = outs.*1 ∧
    log = calls_in_pool (surrogates b).
Proof using Hb.
  unfold multi_core. rewrite surrogate_costs_spec.
  unfold amap_log. rewrite take_ge by (rewrite surrogates_length; lia).
  fold (calls_in_pool (surrogates b)).
  destruct (amap (surrogates b) n mdl) as [outs | e |] eqn:Hamap; simpl.
  - apply amap_spec in Hamap.
    assert (length outs.*2 = n) as Hlen.
    { rewrite length_fmap, <- (Forall2_length _ _ _ Hamap).
      apply surrogates_length. }
    rewrite (loss_loop_spec _ Hlen). simpl. split.
    + intros [= <- <- <-]. by exists outs.
    + intros (outs' & Hp & -> & -> & ->).
      assert (outs' = outs) as ->; [| done].
      clear -Hp Hamap. revert outs' Hp.
      induction Hamap as [|cost out costs outs Ho Hos IH]; intros outs' Hp;
        inversion Hp as [|? out' ? outs'' Ho' Hos']; subst; [done |].
      f_equal; [| by apply IH].
      destruct Ho as (m0 & m1 & H0 & H1 & H2).
      destruct Ho' as (m0' & m1' & H0' & H1' & H2'). congruence.
  - split; [done |]. intros (outs & Hp & _).
    apply amap_spec in Hp. congruence.
  - split; [done |]. intros (outs & Hp & _).
    apply amap_spec in Hp. congruence.
Qed.

Lemma losses_sense_flip (objs : list Qc) :
  Qcopp <$> spo_plus_losses MINIMIZE b objs = spo_plus_losses MAXIMIZE b objs.
Proof.
  unfold spo_plus_losses. generalize (examples b).
  induction objs as [|o objs IH]; intros [|e es]; simpl; try done.
  by rewrite IH.
Qed.

End Shapes.


(** The exceptions of the solves are not the assertion of the check. *)
Lemma forM_Raise {E A B} (f : A → result E B) (l : list A) (e : E) :
  forM l f = Raise e → ∃ a, a ∈ l ∧ f a = Raise e.
Proof.
  induction l as [|a l IH]; simpl; [done |].
  destruct (f a) as [b | e' |] eqn:Hfa; simpl; [| | done].
  - destruct (forM l f) as [bs | e' |]; simpl; try done.
    intros [= ->]. destruct IH as (a' & Ha' & Hf); [done |].
    exists a'. split; [by right | done].
  - intros [= ->]. exists a. split; [by left | done].
Qed.

Lemma np_getitem_not_assert {A} (a : list A) (i : nat) :
  np_getitem a i ≠ Raise AssertionError.
Proof. unfold np_getitem. by destruct (a !! i). Qed.

Lemma surrogate_cost_not_assert (a c : list Qc) :
  surrogate_cost a c ≠ Raise AssertionError.
Proof. unfold surrogate_cost. by case_bool_decide. Qed.

Lemma loss_entry_not_assert (b : batch) (i : nat) (objq : Qc) :
  loss_entry b i objq ≠ Raise AssertionError.
Proof.
  unfold loss_entry, np_getitem, np_dot.
  destruct (pred_cost b !! i); simpl; [| done].
  destruct (true_sol b !! i); simpl; [| done].
  case_bool_decide; simpl; [| done].
  by destruct (true_obj b !! i).
Qed.

Lemma of_model_not_assert {A} (r : result exn A) :
  of_model r ≠ Raise AssertionError.
Proof. by destruct r. Qed.

Section NoAssert.

Context {M : Type} `{!optModel M}.

Lemma single_core_not_assert (rows : list nat) (b : batch) (mdl : M)
    (log : list call) (loss : list Qc) (sol : list (list Qc)) :
  (single_core rows b mdl log loss sol).1.1 ≠ Raise AssertionError.
Proof.
  revert mdl log loss sol.
  induction rows as [|i rows IH]; intros mdl log loss sol; simpl; [done |].
  destruct (np_getitem (pred_cost b) i) as [cp | e |] eqn:Hcp; simpl;
    [| intros [= ->]; by eapply np_getitem_not_assert | done].
  destruct (np_getitem (true_cost b) i) as [c | e |] eqn:Hc; simpl;
    [| intros [= ->]; by eapply np_getitem_not_assert | done].
  destruct (surrogate_cost cp c) as [cost | e |] eqn:Hcost; simpl;
    [| intros [= ->]; by eapply surrogate_cost_not_assert | done].
  destruct (om_setObj mdl cost) as [m1 | e |]; simpl; [| done ..].
  destruct (om_solve m1) as [[solq objq] | e |]; simpl; [| done ..].
  destruct (loss_entry b i objq) as [l | e |] eqn:Hl; simpl;
    [| intros [= ->]; by eapply loss_entry_not_assert | done].
  apply IH.
Qed.

Lemma multi_core_not_assert (ins_num : nat) (b : batch) (mdl : M) :
  (multi_core ins_num b mdl).1 ≠ Raise AssertionError.
Proof.
  unfold multi_core.
  destruct (surrogate_costs (pred_cost b) (true_cost b))
    as [costs | e |] eqn:Hcosts; simpl; [| | done].
  - destruct (amap costs ins_num mdl) as [res | e |] eqn:Hres; simpl;
      [| | done].
    + destruct (forM (seq 0 ins_num) _) as [loss | e |] eqn:Hloss; simpl;
        [done | | done].
      intros [= ->]. apply forM_Raise in Hloss as (i & _ & Hi).
      destruct (np_getitem res.*2 i) eqn:Ho; simpl in Hi; try done.
      * by eapply loss_entry_not_assert.
      * injection Hi as ->. by eapply np_getitem_not_assert.
    + intros [= ->]. apply forM_Raise in Hres as (cost & _ & Hcost).
      by eapply of_model_not_assert.
  - intros [= ->]. unfold surrogate_costs in Hcosts.
    case_bool_decide; [| done].
    apply forM_Raise in Hcosts as (r & _ & Hr).
    by eapply surrogate_cost_not_assert.
Qed.

End NoAssert.

Lemma violates_lt (n d : nat) (b : batch) (i : nat) :
  batch_shape n d b → violates b i → i < n.
Proof.
  intros (Hz & _) (z & c & w & Ez & _). apply lookup_lt_Some in Ez. lia.
Qed.

(** C4, amended.  On a batch of [n] examples [forward] raises the
    inconsistent-solution error if and only if some example [i] has
    [|true_obj[i] - dot(true_cost[i], true_sol[i])| /
     (|true_obj[i]| + 1e-3) >= 1e-3] with the difference, the sum, the
    quotient and [1e-3] in float32, as numpy computes them; when one
    does, the error is raised before the model is touched: no objective
    is set, nothing is solved and no loss is returned. *)
Theorem forward_raises_iff_inconsistent
    {M : Type} `{!optModel M} (n d : nat) (b : batch)
    (modelSense : EPO) (optmodel : M) (processes : nat) :
  batch_shape n d b →
  ((forward modelSense optmodel processes b).1.1 = Raise AssertionError
   ↔ ∃ i, violates b i) ∧
  ((∃ i, violates b i) →
   forward modelSense optmodel processes b
   = (Raise AssertionError, optmodel, [])).
Proof.
  intros Hb.
  assert ((∃ i, violates b i) →
          forward modelSense optmodel processes b
          = (Raise AssertionError, optmodel, [])) as Hraise.
  { intros (i & Hi). unfold forward.
    destruct Hb as (Hz & Hb'). rewrite Hz.
    assert (batch_shape n d b) as Hb by (by split).
    destruct (check_sol_spec n d b Hb (seq 0 n)) as [[-> _] | [_ Hall]].
    - apply Forall_forall. intros j Hj. apply elem_of_seq in Hj. lia.
    - done.
    - destruct (Hall i); [| done]. apply elem_of_seq.
      pose proof (violates_lt n d b i Hb Hi). lia. }
  split; [| done]. split; [| by intros H; rewrite Hraise].
  unfold forward.
  destruct Hb as (Hz & Hb'). rewrite Hz.
  assert (batch_shape n d b) as Hb by (by split).
  destruct (check_sol_spec n d b Hb (seq 0 n)) as [[-> Hex] | [-> _]].
  - apply Forall_forall. intros j Hj. apply elem_of_seq in Hj. lia.
  - intros _. destruct Hex as (i & _ & Hi). by exists i.
  - case_bool_decide.
    + pose proof (single_core_not_assert (seq 0 n) b optmodel [] [] []) as Hna.
      destruct (single_core (seq 0 n) b optmodel [] [] []) as [[r m1] log1].
      simpl in *. destruct r as [[L S] | e |]; [done | | done].
      intros [= ->]. done.
    + pose proof (multi_core_not_assert n b optmodel) as Hna.
      destruct (multi_core n b optmodel) as [r log1].
      simpl in *. destruct r as [[L S] | e |]; [done | | done].
      intros [= ->]. done.
Qed.

(** What a successful [forward] has done: the check has passed, the
    surrogate costs have been solved, and the losses and the saved
    tensors come from the answers. *)
Lemma forward_Ok_inv {M : Type} `{!optModel M} (n d : nat) (b : batch)
    (modelSense : EPO) (optmodel : M) (processes : nat)
    (loss : list Qc) (ctx : saved_tensors) :
  batch_shape n d b →
  (forward modelSense optmodel processes b).1.1 = Ok (loss, ctx) →
  ∃ outs,
    surrogate_answers optmodel processes (surrogates b) outs ∧
    loss = spo_plus_losses modelSense b outs.*2 ∧
    ctx = Saved (true_sol b) outs.*1.
Proof.
  intros Hb. unfold forward, surrogate_answers.
  destruct Hb as (Hz & Hb'). rewrite Hz.
  assert (batch_shape n d b) as Hb by (by split).
  destruct (check_sol _ _ _ _) as [[] | e |]; [| done ..].
  assert (∀ L, (match modelSense with
                | MINIMIZE => spo_plus_losses MINIMIZE b L
                | MAXIMIZE => Qcopp <$> spo_plus_losses MINIMIZE b L
                end) = spo_plus_losses modelSense b L) as Hflip.
  { intros L. destruct modelSense; [done | apply losses_sense_flip]. }
  case_bool_decide as Hp.
  - destruct (single_core (seq 0 n) b optmodel [] [] [])
      as [[r m1] log1] eqn:Hsc.
    destruct r as [[L S] | e |]; [| done ..].
    apply (single_core_spec n d b Hb n 0) in Hsc; [| lia].
    rewrite !drop_0 in Hsc.
    destruct Hsc as (outs & Hs & -> & -> & ->). cbn [app fst snd].
    fold (spo_plus_losses MINIMIZE b outs.*2). rewrite Hflip.
    intros [= <- <-]. exists outs. split; [by exists m1 | done].
  - destruct (multi_core n b optmodel) as [r log1] eqn:Hmc.
    destruct r as [[L S] | e |]; [| done ..].
    apply (multi_core_spec n d b Hb) in Hmc.
    destruct Hmc as (outs & Hs & -> & -> & ->). cbn [fst snd].
    fold (spo_plus_losses MINIMIZE b outs.*2). rewrite Hflip.
    intros [= <- <-]. by exists outs.
Qed.

Lemma solved_in_turn_length {M} `{!optModel M} (m m' : M)
    (costs : list (list Qc)) (outs : list (list Qc * Qc)) :
  solved_in_turn m costs outs m' → length outs = length costs.
Proof. induction 1; simpl; congruence. Qed.

Lemma surrogate_answers_length {M} `{!optModel M} (m : M) (processes : nat)
    (costs : list (list Qc)) (outs : list (list Qc * Qc)) :
  surrogate_answers m processes costs outs → length outs = length costs.
Proof.
  unfold surrogate_answers. case_bool_decide.
  - intros (m' & Hs). by eapply solved_in_turn_length.
  - intros Hp. symmetry. by eapply Forall2_length.
Qed.

Lemma examples_length (n d : nat) (b : batch) :
  batch_shape n d b → length (examples b) = n.
Proof.
  intros (Hz & Hcp & _ & _ & _ & Hw & _). unfold examples.
  rewrite !length_zip_with. lia.
Qed.

(** The losses determine the surrogate objectives. *)
Lemma spo_plus_losses_inj (s : EPO) (b : batch) (objs objs' : list Qc) :
  length objs = length objs' → length objs ≤ length (examples b) →
  spo_plus_losses s b objs = spo_plus_losses s b objs' → objs = objs'.
Proof.
  unfold spo_plus_losses. generalize (examples b). revert objs'.
  induction objs as [|o objs IH]; intros [|o' objs'] es Hlen Hes; try done.
  destruct es as [|e es]; simpl in *; [lia |].
  intros [= Ho Heq]. f_equal.
  - destruct s; simpl in Ho.
    + apply (f_equal (λ q, - (q - (2 * dot e.1.1 e.1.2 - e.2)))%Qc) in Ho.
      ring_simplify in Ho. done.
    + apply (f_equal (λ q, q + (2 * dot e.1.1 e.1.2 - e.2))%Qc) in Ho.
      ring_simplify in Ho. done.
  - apply (IH objs' es); [lia | lia | done].
Qed.

(** C7, amended.  Two models are bound to the loss, one for the sense
    minimize and one for the sense maximize, and [forward] returns
    losses for both on the same batch with the same worker count.  Then
    both have solved the surrogate costs of the batch, the true
    solutions are saved with the surrogate solutions of each, and the
    losses for maximize are the negated losses for minimize if and only
    if the maximizing model has returned the same surrogate objectives
    as the minimizing one; when it has returned the same surrogate
    solutions, [backward] for maximize returns the negated gradient of
    [backward] for minimize. *)
Theorem sense_flip_negates_iff_the_surrogates_agree
    {M : Type} `{!optModel M} (n d : nat) (b : batch)
    (m_min m_max : M) (processes : nat)
    (loss loss' : list Qc) (ctx ctx' : saved_tensors)
    (grad_output : list Qc) :
  batch_shape n d b →
  (forward MINIMIZE m_min processes b).1.1 = Ok (loss, ctx) →
  (forward MAXIMIZE m_max processes b).1.1 = Ok (loss', ctx') →
  ∃ outs outs',
    surrogate_answers m_min processes (surrogates b) outs ∧
    surrogate_answers m_max processes (surrogates b) outs' ∧
    ctx = Saved (true_sol b) outs.*1 ∧
    ctx' = Saved (true_sol b) outs'.*1 ∧
    (loss' = Qcopp <$> loss ↔ outs'.*2 = outs.*2) ∧
    (outs'.*1 = outs.*1 →
     backward MAXIMIZE ctx' grad_output
     = (fmap (M:=list) Qcopp <$> (backward MINIMIZE ctx grad_output).1.1.1,
        None, None, None)).
Proof.
  intros Hb Hmin Hmax.
  destruct (forward_Ok_inv n d b MINIMIZE m_min processes loss ctx Hb Hmin)
    as (outs & Ha & -> & ->).
  destruct (forward_Ok_inv n d b MAXIMIZE m_max processes loss' ctx' Hb Hmax)
    as (outs' & Ha' & -> & ->).
  exists outs, outs'. repeat split; try done.
  - rewrite (losses_sense_flip b). intros Heq.
    apply (spo_plus_losses_inj MAXIMIZE b); [| | done].
    + rewrite !length_fmap.
      rewrite (surrogate_answers_length _ _ _ _ Ha).
      by rewrite (surrogate_answers_length _ _ _ _ Ha').
    + rewrite length_fmap, (examples_length n d b Hb).
      rewrite (surrogate_answers_length _ _ _ _ Ha').
      by rewrite (surrogates_length n d b Hb).
  - intros ->. by rewrite (losses_sense_flip b).
  - intros ->. apply backward_sense_flip.
Qed.

(* ================================================================== *)
(** * The constructors return *)
(* ================================================================== *)

Lemma forM_is_Ok {E A B} (f : A → result E B) (l : list A) :
  (∀ a, a ∈ l → ∃ b, f a = Ok b) → ∃ bs, forM l f = Ok bs.
Proof.
  induction l as [|a l IH]; intros Hf; simpl; [by eexists |].
  destruct (Hf a) as [b ->]; [by left |].
  destruct IH as [bs ->]; [intros a' Ha'; apply Hf; by right |].
  by eexists.
Qed.

(** ** Edges *)

Lemma elem_of_edges_of (n i j : nat) :
  (i, j) ∈ edges_of n ↔ i < j ∧ j < n.
Proof.
  unfold edges_of. rewrite list_elem_of_bind. split.
  - intros (i' & Hj & Hi'). apply list_elem_of_bind in Hj as (j' & Hij & Hj').
    apply elem_of_seq in Hi', Hj'. case_bool_decide; [| by apply elem_of_nil in Hij].
    apply list_elem_of_singleton in Hij as [= -> ->]. lia.
  - intros [Hij Hj]. exists i. split; [| apply elem_of_seq; lia].
    apply list_elem_of_bind. exists j. split; [| apply elem_of_seq; lia].
    rewrite bool_decide_eq_true_2 by done. by left.
Qed.

Lemma elem_of_directed_edges_of (n i j : nat) :
  (i, j) ∈ directed_edges_of (edges_of n) ↔ i ≠ j ∧ i < n ∧ j < n.
Proof.
  unfold directed_edges_of. rewrite elem_of_app, list_elem_of_fmap. split.
  - intros [H | ([i' j'] & [= -> ->] & H)];
      apply elem_of_edges_of in H; simpl in *; lia.
  - intros (Hne & Hi & Hj). destruct (decide (i < j)).
    + left. apply elem_of_edges_of. lia.
    + right. exists (j, i). split; [done |]. apply elem_of_edges_of. lia.
Qed.

(** ** Tupledicts *)

Lemma td_get_Ok (d : tupledict) (i j : nat) :
  (i, j) ∈ d.*1 → ∃ v, td_get d i j = Ok v ∧ ((i, j), v) ∈ d.
Proof.
  intros Hin. apply list_elem_of_fmap in Hin as ([k v] & Hk & Hin).
  simpl in Hk. subst k. unfold td_get.
  destruct (list_find_elem_of (λ e : nat * nat * nat, e.1 = (i, j)) d
              ((i, j), v) Hin eq_refl) as [[p e] Hfind].
  rewrite Hfind. exists e.2. split; [done |].
  apply list_find_Some in Hfind as (Hp & He & _).
  destruct e as [k v']. simpl in *. subst k.
  by eapply list_elem_of_lookup_2.
Qed.

Lemma td_get_inv (d : tupledict) (i j v : nat) :
  td_get d i j = Ok v → ((i, j), v) ∈ d.
Proof.
  unfold td_get.
  destruct (list_find _ d) as [[p e] |] eqn:Hfind; [| done].
  intros [= <-]. apply list_find_Some in Hfind as (Hp & He & _).
  destruct e as [k v']. simpl in *. subst k.
  by eapply list_elem_of_lookup_2.
Qed.

Lemma td1_get_Ok (d : tupledict1) (i : nat) :
  i ∈ d.*1 → ∃ v, td1_get d i = Ok v.
Proof.
  intros Hin. apply list_elem_of_fmap in Hin as ([k v] & Hk & Hin).
  simpl in Hk. subst k. unfold td1_get.
  destruct (list_find_elem_of (λ e : nat * nat, e.1 = i) d
              (i, v) Hin eq_refl) as [[p e] Hfind].
  rewrite Hfind. by eexists.
Qed.

Lemma imap_keys {K} (g : nat → nat) (keys : list K) :
  (imap (λ p k, (k, g p)) keys).*1 = keys.
Proof.
  revert g. induction keys as [|k keys IH]; intros g; [done |].
  simpl. f_equal. apply (IH (g ∘ S)).
Qed.

Lemma addVars_keys (m : grbmodel) (keys : list (nat * nat)) (name : string)
    (vt : vtype) (ub : option Qc) :
  (addVars m keys name vt ub).2.*1 = keys.
Proof.
  unfold addVars. simpl. apply imap_keys.
Qed.

Lemma addVars1_keys (m : grbmodel) (keys : list nat) (name : string)
    (vt : vtype) (ub : option Qc) :
  (addVars1 m keys name vt ub).2.*1 = keys.
Proof.
  unfold addVars1. simpl. apply imap_keys.
Qed.

Lemma td_set_keys (d : tupledict) (i j v : nat) (k : nat * nat) :
  k ∈ (td_set d i j v).*1 ↔ k ∈ d.*1 ∨ k = (i, j).
Proof.
  unfold td_set.
  destruct (list_find _ d) as [[p e] |] eqn:Hfind.
  - apply list_find_Some in Hfind as (Hp & He & _).
    rewrite list_fmap_insert. simpl.
    assert (d.*1 !! p = Some (i, j)) as Hp'.
    { rewrite list_lookup_fmap, Hp. simpl. by rewrite He. }
    rewrite (list_insert_id _ _ _ Hp').
    split; [by left |]. intros [H | ->]; [done |].
    by eapply list_elem_of_lookup_2.
  - rewrite fmap_app, elem_of_app. simpl.
    by rewrite list_elem_of_singleton.
Qed.

Lemma mirror_keys_Ok (es : list (nat * nat)) (xd : tupledict) :
  es ⊆ xd.*1 →
  ∃ xd', mirror_keys es xd = Ok xd' ∧
         ∀ k, k ∈ xd'.*1 ↔ k ∈ xd.*1 ∨ (k.2, k.1) ∈ es.
Proof.
  revert xd. induction es as [|[i j] es IH]; intros xd Hsub; simpl.
  - exists xd. split; [done |]. intros k. split; [by left |].
    intros [H | H]; [done | by apply elem_of_nil in H].
  - destruct (td_get_Ok xd i j) as (v & -> & _); [apply Hsub; by left |].
    simpl.
    destruct (IH (td_set xd j i v)) as (xd' & -> & Hkeys).
    { intros k Hk. apply td_set_keys. left. apply Hsub. by right. }
    exists xd'. split; [done |]. intros [a c]. rewrite Hkeys, td_set_keys.
    simpl. rewrite elem_of_cons. split.
    + intros [[H | [= -> ->]] | H]; auto.
    + intros [H | [[= -> ->] | H]]; auto.
Qed.

(** ** [_getModel] *)

Lemma GG_constraints_Ok (ns : list nat) (xd yd : tupledict) :
  (∀ i j, i ∈ ns → j ∈ ns → j ≠ i → (j, i) ∈ yd.*1) →
  xd.*1 ⊆ yd.*1 →
  ∃ cs, GG_constraints ns xd yd = Ok cs.
Proof.
  intros Hy Hxy. unfold GG_constraints.
  destruct (forM_is_Ok (E:=exn)
    (λ i, ys ← forM (filter (λ j, j ≠ i) (tail ns))
                    (λ j, v ← td_get yd j i; Ok (Var v));
          Ok (Constr (Sub (td_sum_row yd i) (quicksum ys)) EQUAL (Const 1)))
    (tail ns)) as [c3 ->].
  { intros i Hi.
    destruct (forM_is_Ok (E:=exn) (λ j, v ← td_get yd j i; Ok (Var v))
                (filter (λ j, j ≠ i) (tail ns))) as [ys ->].
    - intros j Hj. apply list_elem_of_filter in Hj as [Hji Hj].
      destruct (td_get_Ok yd j i) as (v & -> & _); [| by eexists].
      apply Hy; [| | done]; by destruct ns; [| right].
    - by eexists. }
  simpl.
  destruct (forM_is_Ok (E:=exn)
    (λ k : nat * nat,
       vy ← td_get yd k.1 k.2;
       vx ← td_get xd k.1 k.2;
       Ok (Constr (Var vy) LESS_EQUAL
             (Mul (Qc_of_Z (Z.of_nat (length ns) - 1)) (Var vx))))
    (filter (λ k : nat * nat, k.1 ≠ 0) xd.*1)) as [c4 ->].
  { intros [i j] Hk. apply list_elem_of_filter in Hk as [_ Hk]. simpl.
    destruct (td_get_Ok yd i j) as (vy & -> & _); [by apply Hxy |].
    destruct (td_get_Ok xd i j) as (vx & -> & _); [done |].
    by eexists. }
  by eexists.
Qed.

Lemma MTZ_constraints_Ok (ns : list nat) (des : list (nat * nat))
    (xd : tupledict) (ud : tupledict1) :
  (∀ e, e ∈ des → e.1 ∈ ud.*1 ∧ e.2 ∈ ud.*1 ∧ e ∈ xd.*1) →
  ∃ c3,
    forM (filter (λ e : nat * nat, e.1 ≠ 0 ∧ e.2 ≠ 0) des)
      (λ e,
         uj ← td1_get ud e.2;
         ui ← td1_get ud e.1;
         xij ← td_get xd e.1 e.2;
         Ok (Constr (Sub (Var uj) (Var ui)) GREATER_EQUAL
               (Add (Mul (Qc_of_nat (length ns)) (Sub (Var xij) (Const 1)))
                    (Const 1)))) = Ok c3 ∧
    MTZ_constraints ns des xd ud
    = Ok (((λ j, Constr (td_sum_col xd j) EQUAL (Const 1)) <$> ns) ++
          ((λ i, Constr (td_sum_row xd i) EQUAL (Const 1)) <$> ns) ++ c3).
Proof.
  intros H. unfold MTZ_constraints.
  destruct (forM_is_Ok (E:=exn)
    (λ e : nat * nat,
       uj ← td1_get ud e.2;
       ui ← td1_get ud e.1;
       xij ← td_get xd e.1 e.2;
       Ok (Constr (Sub (Var uj) (Var ui)) GREATER_EQUAL
             (Add (Mul (Qc_of_nat (length ns)) (Sub (Var xij) (Const 1)))
                  (Const 1))))
    (filter (λ e : nat * nat, e.1 ≠ 0 ∧ e.2 ≠ 0) des)) as [c3 Hc3].
  { intros [i j] He. apply list_elem_of_filter in He as [_ He].
    destruct (H _ He) as (Hi & Hj & Hx). simpl in *.
    destruct (td1_get_Ok ud j Hj) as [uj ->].
    destruct (td1_get_Ok ud i Hi) as [ui ->].
    destruct (td_get_Ok xd i j Hx) as (v & -> & _).
    by eexists. }
  exists c3. split; [done |]. by rewrite Hc3.
Qed.

Lemma directed_edges_nodes (n : nat) (e : nat * nat) :
  e ∈ directed_edges_of (edges_of n) → e.1 ∈ seq 0 n ∧ e.2 ∈ seq 0 n.
Proof.
  destruct e as [i j]. rewrite elem_of_directed_edges_of, !elem_of_seq.
  simpl. lia.
Qed.

Lemma edges_sub_directed (es : list (nat * nat)) : es ⊆ directed_edges_of es.
Proof. intros e He. unfold directed_edges_of. apply elem_of_app. by left. Qed.

Lemma mirrored_keys (n : nat) (xd xd' : tupledict) :
  xd.*1 = edges_of n →
  (∀ k, k ∈ xd'.*1 ↔ k ∈ xd.*1 ∨ (k.2, k.1) ∈ edges_of n) →
  ∀ k, k ∈ xd'.*1 ↔ k ∈ directed_edges_of (edges_of n).
Proof.
  intros Hxd H [i j]. rewrite H, Hxd. unfold directed_edges_of.
  rewrite elem_of_app, list_elem_of_fmap. simpl. split.
  - intros [He | He]; [by left |]. right. by exists (j, i).
  - intros [He | ([a c] & [= -> ->] & He)]; [by left | by right].
Qed.

Lemma addVars_inv (m m' : grbmodel) (keys : list (nat * nat)) (name : string)
    (vt : vtype) (ub : option Qc) (xd : tupledict) :
  addVars m keys name vt ub = (m', xd) →
  xd.*1 = keys ∧ Objective m' = Objective m.
Proof.
  intros H. split.
  - by rewrite <- (addVars_keys m keys name vt ub), H.
  - by injection H as <- _.
Qed.

Lemma addVars1_inv (m m' : grbmodel) (keys : list nat) (name : string)
    (vt : vtype) (ub : option Qc) (ud : tupledict1) :
  addVars1 m keys name vt ub = (m', ud) →
  ud.*1 = keys ∧ Objective m' = Objective m.
Proof.
  intros H. split.
  - by rewrite <- (addVars1_keys m keys name vt ub), H.
  - by injection H as <- _.
Qed.

Lemma GG_getModel_returns (n : nat) (m0 : grbmodel) (name1 name2 : string)
    (vt : vtype) (ub : option Qc) :
  Objective m0 = Const 0%Qc →
  ∃ m xd,
    (let '(m, xd) := addVars m0 (directed_edges_of (edges_of n)) name1 vt ub in
     let '(m, yd) :=
       addVars m (directed_edges_of (edges_of n)) name2 CONTINUOUS None in
     let m := set_ModelSense m GRB_MINIMIZE in
     cs ← GG_constraints (seq 0 n) xd yd;
     Ok (addConstrs m cs, xd)) = Ok (m, xd) ∧
    (∀ k, k ∈ xd.*1 ↔ k ∈ directed_edges_of (edges_of n)) ∧
    Objective m = Const 0%Qc.
Proof.
  intros H0.
  destruct (addVars m0 _ _ _ _) as [m1 xd] eqn:Hx.
  destruct (addVars m1 _ _ _ _) as [m2 yd] eqn:Hy.
  apply addVars_inv in Hx as [Hxk Hxo], Hy as [Hyk Hyo].
  destruct (GG_constraints_Ok (seq 0 n) xd yd) as [cs ->].
  - intros i j Hi Hj Hne. rewrite Hyk.
    apply elem_of_directed_edges_of. apply elem_of_seq in Hi, Hj. lia.
  - by rewrite Hxk, Hyk.
  - eexists _, xd. split; [done |]. split; [by rewrite Hxk |].
    simpl. congruence.
Qed.

Lemma DFJ_getModel_returns (n : nat) :
  ∃ m xd,
    tspDFJModel_getModel (seq 0 n) (edges_of n) = Ok (m, xd) ∧
    (∀ k, k ∈ xd.*1 ↔ k ∈ directed_edges_of (edges_of n)) ∧
    Objective m = Const 0%Qc.
Proof.
  unfold tspDFJModel_getModel.
  destruct (addVars _ _ _ _ _) as [m1 xd] eqn:Hx.
  apply addVars_inv in Hx as [Hxk Hxo].
  destruct (mirror_keys_Ok (edges_of n) xd) as (xd' & -> & Hk').
  { by rewrite Hxk. }
  simpl. eexists _, xd'. split; [done |].
  split; [by eapply mirrored_keys |]. done.
Qed.

Lemma MTZ_getModel_returns (n : nat) (vt : vtype) (ub : option Qc)
    (name1 name2 name3 name4 : string) :
  ∃ m xd,
    (let m := gp_Model in
     let m := set_outputFlag m 0 in
     let '(m, xd) := addVars m (edges_of n) name1 BINARY None in
     xd ← mirror_keys (edges_of n) xd;
     let '(m, ud) := addVars1 m (seq 0 n) name2 CONTINUOUS None in
     let m := set_ModelSense m GRB_MINIMIZE in
     let directed_edges := directed_edges_of (edges_of n) in
     let '(m, xd) := addVars m directed_edges name3 vt ub in
     let '(m, ud) := addVars1 m (seq 0 n) name4 CONTINUOUS None in
     let m := set_ModelSense m GRB_MINIMIZE in
     cs ← MTZ_constraints (seq 0 n) directed_edges xd ud;
     Ok (addConstrs m cs, xd)) = Ok (m, xd) ∧
    (∀ k, k ∈ xd.*1 ↔ k ∈ directed_edges_of (edges_of n)) ∧
    Objective m = Const 0%Qc.
Proof.
  cbv zeta.
  destruct (addVars _ (edges_of n) _ _ _) as [m1 xd0] eqn:Hx0.
  apply addVars_inv in Hx0 as [Hxk0 Hxo0].
  destruct (mirror_keys_Ok (edges_of n) xd0) as (xd0' & -> & _).
  { by rewrite Hxk0. }
  cbn [mbind result_bind].
  destruct (addVars1 m1 _ _ _ _) as [m2 ud0] eqn:Hu0.
  apply addVars1_inv in Hu0 as [_ Huo0].
  destruct (addVars _ _ _ _ _) as [m3 xd] eqn:Hx.
  apply addVars_inv in Hx as [Hxk Hxo].
  destruct (addVars1 m3 _ _ _ _) as [m4 ud] eqn:Hu.
  apply addVars1_inv in Hu as [Huk Huo].
  destruct (MTZ_constraints_Ok (seq 0 n)
              (directed_edges_of (edges_of n)) xd ud) as (c3 & _ & ->).
  - intros e He. rewrite Huk, Hxk.
    destruct (directed_edges_nodes n e He). done.
  - eexists _, xd. split; [done |]. split; [by rewrite Hxk |].
    simpl in *. congruence.
Qed.

Theorem tsp_init_returns (t : model_type) (n : nat) :
  ∃ o, tsp_init t n = Ok o ∧ constructed t n o.
Proof.
  unfold tsp_init.
  assert (∃ m xd, _getModel t (seq 0 n) (edges_of n) = Ok (m, xd) ∧
            (∀ k, k ∈ xd.*1 ↔ k ∈ directed_edges_of (edges_of n)) ∧
            Objective m = Const 0%Qc) as (m & xd & -> & Hkeys & Hobj).
  { destruct t; cbn [_getModel].
    - by apply GG_getModel_returns.
    - by apply GG_getModel_returns.
    - apply DFJ_getModel_returns.
    - apply MTZ_getModel_returns.
    - apply MTZ_getModel_returns. }
  simpl. eexists. split; [done |]. by constructor.
Qed.

Lemma enumerate_lookup {A} (l : list A) (k : nat) (a : A) :
  (k, a) ∈ enumerate l → l !! k = Some a.
Proof.
  unfold enumerate. intros H.
  apply elem_of_lookup_imap in H as (i & y & [= -> ->] & H). done.
Qed.

Lemma getitem_Ok {A} (l : list A) (k : nat) :
  k < length l → ∃ a, getitem l k = Ok a.
Proof.
  intros H. unfold getitem.
  destruct (lookup_lt_is_Some_2 l k H) as [a ->]. by eexists.
Qed.

Lemma sym_terms_Ok (c : list Qc) (es : list (nat * nat)) (xd : tupledict) :
  length c = length es →
  (∀ e, e ∈ es → e ∈ xd.*1 ∧ (e.2, e.1) ∈ xd.*1) →
  ∃ e, sym_terms c es xd = Ok e.
Proof.
  intros Hlen Hkeys. unfold sym_terms.
  destruct (forM_is_Ok (E:=exn)
    (λ ke : nat * (nat * nat),
       ck ← getitem c ke.1;
       xij ← td_get xd ke.2.1 ke.2.2;
       xji ← td_get xd ke.2.2 ke.2.1;
       Ok (Mul ck (Add (Var xij) (Var xji))))
    (enumerate es)) as [ts ->]; [| by eexists].
  intros [k [i j]] Hk. apply enumerate_lookup in Hk. simpl.
  destruct (getitem_Ok c k) as [ck ->].
  { apply lookup_lt_Some in Hk. lia. }
  destruct (Hkeys (i, j)) as [Hij Hji]; [by eapply list_elem_of_lookup_2 |].
  destruct (td_get_Ok xd i j Hij) as (v1 & -> & _).
  destruct (td_get_Ok xd j i Hji) as (v2 & -> & _).
  by eexists.
Qed.

Lemma dfj_terms_Ok (c : list Qc) (es : list (nat * nat)) (xd : tupledict) :
  length c = length es →
  (∀ e, e ∈ es → e ∈ xd.*1) →
  ∃ e, dfj_terms c es xd = Ok e.
Proof.
  intros Hlen Hkeys. unfold dfj_terms.
  destruct (forM_is_Ok (E:=exn)
    (λ ke : nat * (nat * nat),
       ci ← getitem c ke.1;
       xk ← td_get xd ke.2.1 ke.2.2;
       Ok (Mul ci (Var xk)))
    (enumerate es)) as [ts ->]; [| by eexists].
  intros [k [i j]] Hk. apply enumerate_lookup in Hk. simpl.
  destruct (getitem_Ok c k) as [ck ->].
  { apply lookup_lt_Some in Hk. lia. }
  destruct (td_get_Ok xd i j) as (v1 & -> & _); [| by eexists].
  apply Hkeys. by eapply list_elem_of_lookup_2.
Qed.

Lemma constructed_edge_keys (t : model_type) (n : nat) (o : tspmodel) :
  constructed t n o →
  ∀ e, e ∈ edges o → e ∈ (x o).*1 ∧ (e.2, e.1) ∈ (x o).*1.
Proof.
  intros Hc [i j] He. rewrite (c_edges _ _ _ Hc) in He.
  apply elem_of_edges_of in He. rewrite !(c_keys _ _ _ Hc).
  rewrite !elem_of_directed_edges_of. simpl. lia.
Qed.

Lemma edge_terms_Ok (t : model_type) (n : nat) (o : tspmodel) (c : list Qc) :
  constructed t n o → length c = num_cost o →
  ∃ e, edge_terms t c o = Ok e.
Proof.
  intros Hc Hlen. pose proof (constructed_edge_keys t n o Hc) as Hk.
  destruct t; simpl;
    try (by apply sym_terms_Ok).
  apply dfj_terms_Ok; [done |]. intros e He. by apply Hk.
Qed.

Lemma tsp_object_edges (o : tspmodel) :
  tsp_object o → edges o = edges_of (num_nodes o).
Proof.
  intros (base & obj & cs & Hinit & ->). simpl in *.
  destruct (tsp_init_returns (type_self base) (num_nodes base))
    as (o' & Ho' & Hc).
  unfold tsp_init in Hinit.
  destruct (_getModel _ _ _) as [[m xd] | |]; [| done ..].
  simpl in Hinit. injection Hinit as <-. done.
Qed.

Lemma tsp_object_init (t : model_type) (n : nat) (o : tspmodel) :
  tsp_init t n = Ok o → tsp_object o.
Proof.
  intros H.
  assert (type_self o = t ∧ num_nodes o = n) as [Ht Hn].
  { unfold tsp_init in H.
    destruct (_getModel _ _ _) as [[m xd] | |]; [| done ..].
    by injection H as <-. }
  exists o, (Objective (_model o)), []. rewrite Ht, Hn. split; [done |].
  rewrite app_nil_r. by destruct o as [? ? ? ? []].
Qed.

Lemma tsp_init_fields (t : model_type) (n : nat) (o : tspmodel) :
  tsp_init t n = Ok o → constructed t n o.
Proof.
  intros H. destruct (tsp_init_returns t n) as (o' & Ho' & Hc). congruence.
Qed.

(** One call of [addConstr]. *)
Lemma addConstr_step (σ : store) (self : nat) (o : tspmodel)
    (coefs : list Qc) (r : Qc) :
  σ !! self = Some o → tsp_object o → length coefs = num_cost o →
  ∃ new_model base e,
    tsp_init (type_self o) (num_nodes o) = Ok base ∧
    edge_terms (type_self o) coefs base = Ok e ∧
    (new_model ∉ dom σ) ∧
    addConstr self coefs r σ
    = Ok (new_model, <[new_model := with_constr base e r]> σ).
Proof.
  intros Hself Hobj Hlen.
  pose proof (tsp_object_edges o Hobj) as Hedges.
  destruct (tsp_init_returns (type_self o) (num_nodes o))
    as (base & Hbase & Hc).
  assert (num_cost base = num_cost o) as Hcost.
  { unfold num_cost. by rewrite (c_edges _ _ _ Hc), Hedges. }
  destruct (edge_terms_Ok _ _ base coefs Hc) as [e He]; [congruence |].
  exists (fresh (dom σ)), base, e.
  split; [done |]. split; [done |]. split; [apply is_fresh |].
  assert (copy self σ = Ok (fresh (dom σ), <[fresh (dom σ) := base]> σ))
    as Hcopy.
  { unfold copy, deref, new. rewrite Hself. simpl. by rewrite Hbase. }
  unfold addConstr, deref. rewrite Hself. simpl.
  unfold tspDFJModel_addConstr, tspGGModel_addConstr, deref.
  rewrite Hself. simpl.
  rewrite bool_decide_eq_false_2 by (intros H; by apply H).
  rewrite Hcopy. simpl. rewrite lookup_insert_eq. simpl.
  unfold edge_terms in He.
  destruct (type_self o); rewrite He; simpl;
    by rewrite insert_insert_eq.
Qed.

Lemma with_constr_object (t : model_type) (n : nat) (base : tspmodel)
    (e : linexpr) (r : Qc) :
  tsp_init t n = Ok base → tsp_object (with_constr base e r).
Proof.
  intros H. pose proof (tsp_init_fields t n base H) as Hc.
  exists base, (Objective (_model base)),
    [Constr e LESS_EQUAL (Const r)].
  simpl. rewrite (c_type _ _ _ Hc), (c_num_nodes _ _ _ Hc).
  split; [done |]. unfold with_constr, set_model, addConstr_grb, set_Constrs.
  by destruct base as [? ? ? ? []].
Qed.

(** C10.  For a model object [o] of [tsp.py] and coefficient vectors
    of the right length, [o.addConstr(c1, r1)] returns a new object and
    leaves [o] in the store as it was, constraints and objective
    included; the new object is a newly constructed model of the class
    and node count of [o] with the one inequality [c1 . x <= r1] added
    after the constraints of the formulation and with the objective of a
    new model.  Calling [addConstr(c2, r2)] on the result gives a model
    with the inequality of [c2] and not that of [c1]. *)
Theorem addConstr_keeps_only_the_new_constraint
    (σ : store) (self : nat) (o : tspmodel)
    (c1 c2 : list Qc) (r1 r2 : Qc) :
  σ !! self = Some o → tsp_object o →
  length c1 = num_cost o → length c2 = num_cost o →
  ∃ l1 l2 base e1 e2,
    let o1 := with_constr base e1 r1 in
    let o2 := with_constr base e2 r2 in
    let σ1 := <[l1 := o1]> σ in
    let σ2 := <[l2 := o2]> σ1 in
    (* the results are built on a new model of the same class and size *)
    tsp_init (type_self o) (num_nodes o) = Ok base ∧
    edge_terms (type_self o) c1 base = Ok e1 ∧
    edge_terms (type_self o) c2 base = Ok e2 ∧
    addConstr self c1 r1 σ = Ok (l1, σ1) ∧
    addConstr l1 c2 r2 σ1 = Ok (l2, σ2) ∧
    (* the models that the calls were made on are as before *)
    (l1 ∉ dom σ) ∧ (l2 ∉ dom σ1) ∧
    σ1 !! self = Some o ∧ σ2 !! self = Some o ∧ σ2 !! l1 = Some o1 ∧
    (* the constraints and the objective of the results *)
    Constrs (_model o1)
    = Constrs (_model base) ++ [Constr e1 LESS_EQUAL (Const r1)] ∧
    Constrs (_model o2)
    = Constrs (_model base) ++ [Constr e2 LESS_EQUAL (Const r2)] ∧
    Objective (_model o1) = Const 0%Qc ∧
    Objective (_model o2) = Const 0%Qc.
Proof.
  intros Hself Hobj Hlen1 Hlen2.
  destruct (addConstr_step σ self o c1 r1 Hself Hobj Hlen1)
    as (l1 & base & e1 & Hbase & He1 & Hl1 & Hadd1).
  pose proof (tsp_init_fields _ _ _ Hbase) as Hc.
  set (o1 := with_constr base e1 r1).
  set (σ1 := <[l1 := o1]> σ).
  assert (σ1 !! l1 = Some o1) as Hσ1 by apply lookup_insert_eq.
  assert (type_self o1 = type_self o ∧ num_nodes o1 = num_nodes o) as [Ht Hn].
  { simpl. by rewrite (c_type _ _ _ Hc), (c_num_nodes _ _ _ Hc). }
  assert (num_cost o1 = num_cost o) as Hcost.
  { unfold num_cost. simpl. rewrite (c_edges _ _ _ Hc).
    by rewrite (tsp_object_edges o Hobj). }
  destruct (addConstr_step σ1 l1 o1 c2 r2 Hσ1)
    as (l2 & base' & e2 & Hbase' & He2 & Hl2 & Hadd2).
  { by eapply with_constr_object. }
  { congruence. }
  rewrite Ht, Hn in Hbase'. rewrite Ht in He2.
  assert (base' = base) as -> by congruence.
  assert (l1 ≠ self) as Hne1.
  { intros ->. apply Hl1. apply elem_of_dom. by eexists. }
  assert (l2 ≠ self) as Hne2.
  { intros ->. apply Hl2. apply elem_of_dom. exists o.
    unfold σ1. by rewrite lookup_insert_ne. }
  assert (l2 ≠ l1) as Hne3.
  { intros ->. apply Hl2. apply elem_of_dom. by eexists. }
  exists l1, l2, base, e1, e2. cbv zeta. fold o1 σ1.
  repeat split; try done.
  - unfold σ1. by rewrite lookup_insert_ne.
  - rewrite lookup_insert_ne by done. unfold σ1. by rewrite lookup_insert_ne.
  - by rewrite lookup_insert_ne.
  - simpl. apply (c_objective _ _ _ Hc).
  - simpl. apply (c_objective _ _ _ Hc).
Qed.

Lemma tspMTZModel_variables (n : nat) (m : grbmodel) (xd : tupledict) :
  tspMTZModel_getModel (seq 0 n) (edges_of n) = Ok (m, xd) →
  Vars m = MTZ_leftover_variables n ++ MTZ_variables n.
Proof.
  unfold tspMTZModel_getModel, addVars at 1. cbv beta iota zeta.
  destruct (mirror_keys _ _) as [xd0 | |]; [| done ..].
  cbn [mbind result_bind]. unfold addVars, addVars1. cbv beta iota zeta.
  destruct (MTZ_constraints _ _ _ _) as [cs | |]; [| done ..].
  cbn [mbind result_bind]. intros [= <- _].
  unfold MTZ_leftover_variables, MTZ_variables. simpl.
  by rewrite <- !(assoc_L (++)).
Qed.

(** C9.  For every node count [n], the Gurobi model that
    [tspMTZModel(n)] builds has, before the binary variable per directed
    edge and the continuous variable [u] per node, the variables of the
    first two calls of [addVars], whose results [_getModel] overwrites:
    a binary variable per undirected edge and [n] more variables [u].
    The variables of the model are not only the ones of the
    formulation. *)
Theorem tspMTZModel_has_leftover_variables (n : nat) :
  ∃ o,
    tsp_init tspMTZModel n = Ok o ∧
    Vars (_model o) = MTZ_leftover_variables n ++ MTZ_variables n ∧
    length (Vars (_model o))
    = length (MTZ_variables n) + (length (edges_of n) + n).
Proof.
  destruct (tsp_init_returns tspMTZModel n) as (o & Ho & _).
  exists o. split; [done |].
  assert (Vars (_model o) = MTZ_leftover_variables n ++ MTZ_variables n)
    as Hv.
  { unfold tsp_init in Ho. cbn [_getModel] in Ho.
    destruct (tspMTZModel_getModel _ _) as [[m xd] | |] eqn:Hm; [| done ..].
    simpl in Ho. injection Ho as <-. simpl.
    by eapply tspMTZModel_variables. }
  split; [done |]. rewrite Hv, length_app.
  unfold MTZ_leftover_variables.
  rewrite length_app, !length_fmap, length_seq. lia.
Qed.

Example tspMTZModel_3_nodes :
  (o ← tsp_init tspMTZModel 3; Ok (length (Vars (_model o))))
  = Ok (E:=exn) 15 ∧
  length (MTZ_variables 3) = 9.
Proof. split; reflexivity. Qed.

(* ================================================================== *)
(** * [getTour] *)
(* ================================================================== *)

Lemma in_dd_append (d : gmap nat (list nat)) (j k v w : nat) :
  in_dd (dd_append d j k) v w ↔ in_dd d v w ∨ (v = j ∧ w = k).
Proof.
  unfold in_dd, dd_append. destruct (decide (v = j)) as [-> | Hne].
  - rewrite lookup_insert_eq. split.
    + intros (l & [= <-] & Hw). apply elem_of_app in Hw as [Hw | Hw].
      * left. destruct (d !! j) as [l |]; simpl in *; [by exists l |].
        by apply elem_of_nil in Hw.
      * right. apply list_elem_of_singleton in Hw. done.
    + intros [(l & Hl & Hw) | [_ ->]]; eexists; (split; [done |]).
      * rewrite Hl. simpl. apply elem_of_app. by left.
      * apply elem_of_app. right. by left.
  - rewrite lookup_insert_ne by done. split; [by left |].
    intros [H | [? _]]; done.
Qed.

Lemma dd_append_nonempty (d : gmap nat (list nat)) (j k : nat) :
  (∀ v l, d !! v = Some l → l ≠ []) →
  ∀ v l, dd_append d j k !! v = Some l → l ≠ [].
Proof.
  intros Hd v l. unfold dd_append. destruct (decide (v = j)) as [-> | Hne].
  - rewrite lookup_insert_eq. intros [= <-]. by destruct (default [] (d !! j)).
  - rewrite lookup_insert_ne by done. apply Hd.
Qed.

Lemma active_edges_spec (es : list (nat * nat)) (p : nat) (sol : list Qc)
    (d : gmap nat (list nat)) :
  p + length es ≤ length sol →
  (∀ v l, d !! v = Some l → l ≠ []) →
  ∃ d',
    active_edges es p sol d = Ok d' ∧
    (∀ v l, d' !! v = Some l → l ≠ []) ∧
    (∀ v w, in_dd d' v w ↔ in_dd d v w ∨ active_between es p sol v w).
Proof.
  revert p d. induction es as [|[j k] es IH]; intros p d Hlen Hd; simpl.
  - exists d. split; [done |]. split; [done |]. intros v w.
    split; [by left |]. intros [H | (i & a & b & q & Hi & _)]; [done |].
    by rewrite lookup_nil in Hi.
  - simpl in Hlen. unfold getitem.
    destruct (lookup_lt_is_Some_2 sol p) as [q Hq]; [lia |].
    rewrite Hq. simpl.
    destruct (active q) eqn:Hact.
    + destruct (IH (S p) (dd_append (dd_append d j k) k j)) as (d' & -> & Hne & Hd').
      { lia. }
      { by do 2 apply dd_append_nonempty. }
      exists d'. split; [done |]. split; [done |]. intros v w.
      rewrite Hd', !in_dd_append. split.
      * intros [[[H | [-> ->]] | [-> ->]] | (i & a & b & q' & Hi & Hs & Ha & Hab)].
        -- by left.
        -- right. exists 0, j, k, q. rewrite Nat.add_0_r. auto.
        -- right. exists 0, j, k, q. rewrite Nat.add_0_r. auto.
        -- right. exists (S i), a, b, q'.
           replace (p + S i) with (S p + i) by lia. auto.
      * intros [H | (i & a & b & q' & Hi & Hs & Ha & Hab)]; [by auto |].
        destruct i as [|i]; simpl in Hi.
        -- injection Hi as <- <-.
           destruct Hab as [[= -> ->] | [= -> ->]]; auto.
        -- right. exists i, a, b, q'.
           replace (S p + i) with (p + S i) by lia. auto.
    + destruct (IH (S p) d) as (d' & -> & Hne & Hd'); [lia | done |].
      exists d'. split; [done |]. split; [done |]. intros v w.
      rewrite Hd'. split.
      * intros [H | (i & a & b & q' & Hi & Hs & Ha & Hab)]; [by left |].
        right. exists (S i), a, b, q'.
        replace (p + S i) with (S p + i) by lia. auto.
      * intros [H | (i & a & b & q' & Hi & Hs & Ha & Hab)]; [by left |].
        destruct i as [|i]; simpl in Hi.
        -- injection Hi as <- <-. rewrite Nat.add_0_r in Hs. congruence.
        -- right. exists i, a, b, q'.
           replace (S p + i) with (p + S i) by lia. auto.
Qed.

(** ** Cycles *)

Section Cycle.

Context (n : nat) (c : list nat) (Hc : c ≡ₚ seq 0 n).

Lemma cycle_NoDup : NoDup c.
Proof using Hc. rewrite Hc. apply NoDup_seq. Qed.

Lemma cycle_length : length c = n.
Proof using Hc. by rewrite Hc, length_seq. Qed.

Lemma cycle_lt (i v : nat) : c !! i = Some v → v < n ∧ i < n.
Proof using Hc.
  intros H. split.
  - apply list_elem_of_lookup_2 in H. rewrite Hc in H.
    apply elem_of_seq in H. lia.
  - apply lookup_lt_Some in H. by rewrite cycle_length in H.
Qed.

Lemma cycle_index (v : nat) : v < n → ∃ i, c !! i = Some v.
Proof using Hc.
  intros Hv. apply list_elem_of_lookup_1. rewrite Hc. apply elem_of_seq. lia.
Qed.

Lemma cycle_inj (i j v : nat) : c !! i = Some v → c !! j = Some v → i = j.
Proof using Hc. apply NoDup_lookup, cycle_NoDup. Qed.

Lemma cyc_next_lt (i : nat) : i < n → cyc_next n i < n.
Proof. unfold cyc_next. case_bool_decide; lia. Qed.

Lemma on_cycle_next (i v : nat) :
  c !! i = Some v → ∃ w, c !! cyc_next n i = Some w ∧ on_cycle c v w.
Proof using Hc.
  intros Hi. destruct (cycle_lt i v Hi) as [_ Hin].
  destruct (lookup_lt_is_Some_2 c (cyc_next n i)) as [w Hw].
  { rewrite cycle_length. by apply cyc_next_lt. }
  exists w. split; [done |]. exists i. by rewrite cycle_length.
Qed.

Lemma on_cycle_inv (i v w : nat) :
  c !! i = Some v → on_cycle c v w → c !! cyc_next n i = Some w.
Proof using Hc.
  intros Hi (j & Hj & Hw). rewrite cycle_length in Hw.
  by rewrite (cycle_inj i j v Hi Hj).
Qed.

Lemma on_cycle_ne (v w : nat) : 2 ≤ n → on_cycle c v w → v ≠ w.
Proof using Hc.
  intros Hn (i & Hi & Hw) ->. rewrite cycle_length in Hw.
  pose proof (cycle_inj _ _ _ Hi Hw) as Heq.
  destruct (cycle_lt i w Hi) as [_ Hin].
  unfold cyc_next in Heq. case_bool_decide; lia.
Qed.

Lemma cycle_edge_sym (v w : nat) : cycle_edge c v w → cycle_edge c w v.
Proof. intros [H | H]; [by right | by left]. Qed.

Lemma cycle_edge_lt (v w : nat) : cycle_edge c v w → v < n ∧ w < n.
Proof using Hc.
  intros [(i & Hi & Hw) | (i & Hi & Hw)];
    destruct (cycle_lt _ _ Hi), (cycle_lt _ _ Hw); lia.
Qed.

Lemma cycle_edge_ne (v w : nat) : 2 ≤ n → cycle_edge c v w → v ≠ w.
Proof using Hc.
  intros Hn [H | H]; [by apply on_cycle_ne |].
  apply not_eq_sym. by apply on_cycle_ne.
Qed.

End Cycle.

(** ** The adjacency lists of a Hamiltonian cycle *)

Section Adjacency.

Context (n : nat) (cyc : list nat) (sol : list Qc).
Context (Hn : 2 ≤ n) (Hham : hamiltonian n cyc sol).

Lemma active_between_cycle (v w : nat) :
  active_between (edges_of n) 0 sol v w ↔ cycle_edge cyc v w.
Proof using Hn Hham.
  destruct Hham as [Hc Hlen Hed]. split.
  - intros (k & a & b & q & Hk & Hq & Ha & Hab). simpl in Hq.
    assert (cycle_edge cyc a b) as Hce.
    { apply (Hed k a b q Hk Hq). unfold active in Ha.
      by apply bool_decide_eq_true_1 in Ha. }
    destruct Hab as [[= -> ->] | [= -> ->]]; [done |].
    by apply cycle_edge_sym.
  - intros Hce.
    destruct (cycle_edge_lt n cyc Hc v w Hce) as [Hv Hw].
    pose proof (cycle_edge_ne n cyc Hc v w Hn Hce) as Hne.
    assert (∀ a b, a < b → b < n → cycle_edge cyc a b →
              ((a, b) = (v, w) ∨ (a, b) = (w, v)) →
              active_between (edges_of n) 0 sol v w) as Hpair.
    { intros a b Hab Hb Hce' Heq.
      assert ((a, b) ∈ edges_of n) as Hin by (apply elem_of_edges_of; lia).
      apply list_elem_of_lookup_1 in Hin as [k Hk].
      destruct (lookup_lt_is_Some_2 sol k) as [q Hq].
      { rewrite Hlen. by eapply lookup_lt_Some. }
      exists k, a, b, q. split; [done |]. split; [done |]. split; [| done].
      unfold active. apply bool_decide_eq_true_2. by apply (Hed k a b q). }
    destruct (decide (v < w)).
    + apply (Hpair v w); auto.
    + apply (Hpair w v); auto; [lia |]. by apply cycle_edge_sym.
Qed.

Lemma getTour_adjacency :
  ∃ d,
    active_edges (edges_of n) 0 sol ∅ = Ok d ∧
    (∀ v w, in_dd d v w ↔ cycle_edge cyc v w) ∧
    (∀ v, v < n → is_Some (d !! v)) ∧
    size d = n.
Proof using Hn Hham.
  pose proof (ham_nodes _ _ _ Hham) as Hc.
  destruct (active_edges_spec (edges_of n) 0 sol ∅) as (d & Hd & Hne & Hadj).
  { rewrite (ham_length _ _ _ Hham). lia. }
  { intros v l Hv. by rewrite lookup_empty in Hv. }
  assert (∀ v w, in_dd d v w ↔ cycle_edge cyc v w) as Hadj'.
  { intros v w. rewrite Hadj, active_between_cycle. split; [| by right].
    intros [(l & Hl & _) | H]; [| done]. by rewrite lookup_empty in Hl. }
  assert (∀ v, v < n → is_Some (d !! v)) as Hkeys.
  { intros v Hv. destruct (cycle_index n cyc Hc v Hv) as [i Hi].
    destruct (on_cycle_next n cyc Hc i v Hi) as (w & _ & Hw).
    assert (in_dd d v w) as (l & Hl & _) by (apply Hadj'; by left).
    by exists l. }
  exists d. split; [done |]. split; [done |]. split; [done |].
  assert (dom d = set_seq 0 n) as Hdom.
  { apply set_eq. intros v. rewrite elem_of_dom, elem_of_set_seq. split.
    - intros [l Hl]. pose proof (Hne v l Hl) as Hnil.
      destruct l as [|w l]; [done |].
      assert (cycle_edge cyc v w) as Hce.
      { apply Hadj'. exists (w :: l). split; [done | by left]. }
      destruct (cycle_edge_lt n cyc Hc v w Hce). lia.
    - intros [_ Hv]. apply Hkeys. lia. }
  rewrite <- size_dom, Hdom. apply size_set_seq.
Qed.

End Adjacency.

(** ** The walk *)

Lemma tour_loop_unfold (fuel : nat) (d : gmap nat (list nat))
    (visited : gset nat) (tour : list nat) :
  tour_loop fuel d visited tour =
  if bool_decide (size visited < size d) then
    match fuel with
    | 0 => Diverge
    | S fuel' =>
        match last tour with
        | None => Raise IndexError
        | Some i =>
            let '(nb, d) := dd_get d i in
            match list_find (λ j, j ∉ visited) nb with
            | Some (_, j) => tour_loop fuel' d ({[j]} ∪ visited) (tour ++ [j])
            | None => tour_loop fuel' d visited tour
            end
        end
    end
  else Ok (d, tour).
Proof. by destruct fuel. Qed.

Section Walk.

Context (n : nat) (c : list nat) (d : gmap nat (list nat)).
Context (Hc : c ≡ₚ seq 0 n).
Context (Hadj : ∀ v w, in_dd d v w ↔ cycle_edge c v w).
Context (Hkeys : ∀ v, v < n → is_Some (d !! v)).
Context (Hsize : size d = n).

Lemma visited_size (t : nat) :
  t ≤ n → size (list_to_set (C:=gset nat) (take t c)) = t.
Proof using All.
  intros Ht. rewrite size_list_to_set.
  - rewrite length_take, (cycle_length n c Hc). lia.
  - apply (sublist_NoDup (take t c) c);
      [apply (cycle_NoDup n c Hc) | apply sublist_take].
Qed.

Lemma not_visited (t i v : nat) :
  c !! i = Some v → t ≤ i → v ∉ list_to_set (C:=gset nat) (take t c).
Proof using All.
  intros Hi Hti Hv. apply elem_of_list_to_set in Hv.
  apply list_elem_of_lookup_1 in Hv as [j Hj].
  apply lookup_take_Some in Hj as [Hj Hjt].
  pose proof (cycle_inj n c Hc _ _ _ Hi Hj). lia.
Qed.

Lemma is_visited (t i v : nat) :
  c !! i = Some v → i < t → v ∈ list_to_set (C:=gset nat) (take t c).
Proof using All.
  intros Hi Hit. apply elem_of_list_to_set.
  apply (list_elem_of_lookup_2 _ i). by apply lookup_take_Some.
Qed.

(** The step from position [t >= 1] of the cycle: the one neighbour that
    was not visited is the next node. *)
Lemma walk_step (t v : nat) (l : list nat) :
  1 ≤ t → S t < n → c !! t = Some v → d !! v = Some l →
  ∃ p w, c !! S t = Some w ∧
         list_find (λ j, j ∉ list_to_set (C:=gset nat) (take (S t) c)) l
         = Some (p, w).
Proof using All.
  intros Ht Hlt Hv Hl.
  destruct (on_cycle_next n c Hc t v Hv) as (w & Hw & Hvw).
  assert (cyc_next n t = S t) as Hnext.
  { unfold cyc_next. by rewrite bool_decide_eq_true_2. }
  rewrite Hnext in Hw.
  assert (w ∈ l) as Hwl.
  { assert (in_dd d v w) as (l' & Hl' & Hin) by (apply Hadj; by left).
    congruence. }
  destruct (list_find_elem_of
              (λ j, j ∉ list_to_set (C:=gset nat) (take (S t) c)) l w Hwl)
    as [[p j] Hfind].
  { by apply (not_visited (S t) (S t) w). }
  exists p, w. split; [done |]. rewrite Hfind. do 2 f_equal.
  apply list_find_Some in Hfind as (Hp & Hj & _).
  assert (cycle_edge c v j) as [Hvj | Hjv].
  { apply Hadj. exists l. split; [done |]. by eapply list_elem_of_lookup_2. }
  - pose proof (on_cycle_inv n c Hc t v j Hv Hvj) as Hj'.
    rewrite Hnext in Hj'. congruence.
  - destruct Hjv as (i & Hi & Hiv).
    rewrite (cycle_length n c Hc) in Hiv.
    pose proof (cycle_inj n c Hc _ _ _ Hv Hiv) as Hti.
    destruct Hj. apply (is_visited (S t) i j Hi).
    unfold cyc_next in Hti. case_bool_decide; lia.
Qed.

Lemma walk_rest (fuel t : nat) :
  1 ≤ t → S t ≤ n → n - S t ≤ fuel →
  tour_loop fuel d (list_to_set (take (S t) c)) (take (S t) c) = Ok (d, c).
Proof using All.
  revert t. induction fuel as [|fuel IH]; intros t Ht Htn Hfuel.
  - rewrite tour_loop_unfold, visited_size, Hsize by done.
    rewrite bool_decide_eq_false_2 by lia.
    rewrite take_ge; [done |]. rewrite (cycle_length n c Hc). lia.
  - rewrite tour_loop_unfold, visited_size, Hsize by done.
    case_bool_decide as Hlt.
    + destruct (lookup_lt_is_Some_2 c t) as [v Hv].
      { rewrite (cycle_length n c Hc). lia. }
      assert (last (take (S t) c) = Some v) as ->.
      { rewrite last_lookup, length_take, (cycle_length n c Hc).
        replace (pred (S t `min` n)) with t by lia.
        apply lookup_take_Some. split; [done | lia]. }
      destruct (Hkeys v) as [l Hl].
      { by destruct (cycle_lt n c Hc t v Hv). }
      unfold dd_get. rewrite Hl.
      destruct (walk_step t v l Ht Hlt Hv Hl) as (p & w & Hw & ->).
      rewrite <- (take_S_r c (S t) w Hw).
      replace ({[w]} ∪ list_to_set (take (S t) c))
        with (list_to_set (C:=gset nat) (take (S (S t)) c)).
      * apply IH; lia.
      * rewrite (take_S_r c (S t) w Hw), list_to_set_app_L. simpl.
        rewrite union_empty_r_L. apply (comm_L (∪)).
    + rewrite take_ge; [done |]. rewrite (cycle_length n c Hc). lia.
Qed.

End Walk.

(** ** The cycle the other way round, and from another node *)

Lemma on_cycle_reverse (rest : list nat) (a b : nat) :
  on_cycle (0 :: reverse rest) a b → on_cycle (0 :: rest) b a.
Proof.
  intros (i & Hi & Hb). unfold on_cycle. simpl length in *.
  rewrite length_reverse in Hb.
  set (m := length rest) in *.
  assert (∀ k, k < m → reverse rest !! k = rest !! (m - S k)) as Hrev.
  { intros k Hk. by apply reverse_lookup. }
  assert (i < S m) as Him.
  { apply lookup_lt_Some in Hi. simpl in Hi. by rewrite length_reverse in Hi. }
  unfold cyc_next in *. destruct i as [|i]; simpl in Hi.
  - injection Hi as <-. case_bool_decide as H1; simpl in Hb.
    + rewrite Hrev in Hb by lia. exists m. split.
      * destruct m as [|m']; [lia |]. simpl.
        by replace (S m' - 1) with m' in Hb by lia.
      * by rewrite bool_decide_eq_false_2 by lia.
    + injection Hb as <-. exists 0. split; [done |].
      by rewrite bool_decide_eq_false_2 by lia.
  - rewrite Hrev in Hi by lia. case_bool_decide as H1; simpl in Hb.
    + rewrite Hrev in Hb by lia. exists (S (m - S (S i))). split; [done |].
      rewrite bool_decide_eq_true_2 by lia. simpl.
      by replace (S (m - S (S i))) with (m - S i) by lia.
    + injection Hb as <-. exists 0. split; [done |].
      rewrite bool_decide_eq_true_2 by lia. simpl.
      by replace (m - S i) with 0 in Hi by lia.
Qed.

Lemma cycle_edge_reverse (rest : list nat) (a b : nat) :
  cycle_edge (0 :: reverse rest) a b ↔ cycle_edge (0 :: rest) a b.
Proof.
  split.
  - intros [H | H]; [right | left]; by apply on_cycle_reverse.
  - intros [H | H]; [right | left]; apply on_cycle_reverse;
      by rewrite reverse_involutive.
Qed.

Lemma rot_lookup (cyc : list nat) (k i : nat) :
  k < length cyc → i < length cyc →
  (drop k cyc ++ take k cyc) !! i = cyc !! rot_index (length cyc) k i.
Proof.
  intros Hk Hi. unfold rot_index. case_bool_decide as Hlt.
  - rewrite lookup_app_l by (rewrite length_drop; lia).
    by rewrite lookup_drop.
  - rewrite lookup_app_r by (rewrite length_drop; lia).
    rewrite length_drop.
    rewrite lookup_take_lt by lia. done.
Qed.

Lemma rot_index_next (n k i : nat) :
  k < n → i < n → rot_index n k (cyc_next n i) = cyc_next n (rot_index n k i).
Proof.
  intros Hk Hi. unfold rot_index, cyc_next.
  repeat case_bool_decide; lia.
Qed.

Lemma on_cycle_rotate (cyc : list nat) (k a b : nat) :
  k < length cyc →
  on_cycle (drop k cyc ++ take k cyc) a b ↔ on_cycle cyc a b.
Proof.
  intros Hk. unfold on_cycle.
  assert (length (drop k cyc ++ take k cyc) = length cyc) as Hlen.
  { rewrite length_app, length_drop, length_take. lia. }
  rewrite Hlen. set (n := length cyc) in *. split.
  - intros (i & Hi & Hb).
    assert (i < n) as Hin by (apply lookup_lt_Some in Hi; lia).
    rewrite rot_lookup in Hi by done.
    rewrite rot_lookup in Hb by (try apply cyc_next_lt; done).
    fold n in Hi, Hb. rewrite rot_index_next in Hb by done.
    by exists (rot_index n k i).
  - intros (i & Hi & Hb).
    assert (i < n) as Hin by (by apply lookup_lt_Some in Hi).
    set (j := if bool_decide (k ≤ i) then i - k else i + (n - k)).
    assert (j < n) as Hjn by (unfold j; case_bool_decide; lia).
    assert (rot_index n k j = i) as Hj.
    { unfold rot_index, j. repeat case_bool_decide; lia. }
    exists j. split.
    + rewrite rot_lookup by done. fold n. by rewrite Hj.
    + rewrite rot_lookup by (try apply cyc_next_lt; done). fold n.
      by rewrite rot_index_next, Hj.
Qed.

(** ** The tour *)

Section Tour.

Context (n : nat) (d : gmap nat (list nat)).
Context (Hn : 2 ≤ n).
Context (Hkeys : ∀ v, v < n → is_Some (d !! v)).
Context (Hsize : size d = n).

(** After the first step, to the second node of [c], the walk runs along
    [c]. *)
Lemma walk_from_second (c : list nat) (w : nat) (fuel : nat) :
  c ≡ₚ seq 0 n → (∀ v w, in_dd d v w ↔ cycle_edge c v w) →
  c !! 0 = Some 0 → c !! 1 = Some w → n - 2 ≤ fuel →
  tour_loop fuel d ({[w]} ∪ {[0]}) ([0] ++ [w]) = Ok (d, c).
Proof using All.
  intros Hc Hadj H0 H1 Hfuel.
  assert (take 2 c = [0; w]) as Htake.
  { destruct c as [|a [|b c]]; simpl in *; try done.
    injection H0 as ->. injection H1 as ->. by rewrite take_0. }
  replace ({[w]} ∪ {[0]}) with (list_to_set (C:=gset nat) (take 2 c)).
  - simpl app. rewrite <- Htake.
    apply (walk_rest n c d Hc Hadj Hkeys Hsize fuel 1); lia.
  - rewrite Htake. simpl. rewrite union_empty_r_L. apply (comm_L (∪)).
Qed.

Lemma walk_from_zero (c : list nat) (fuel : nat) :
  c ≡ₚ seq 0 n → (∀ v w, in_dd d v w ↔ cycle_edge c v w) →
  c !! 0 = Some 0 → n - 1 ≤ fuel →
  ∃ c', c' ≡ₚ seq 0 n ∧ c' !! 0 = Some 0 ∧
        (∀ v w, in_dd d v w ↔ cycle_edge c' v w) ∧
        tour_loop fuel d {[0]} [0] = Ok (d, c').
Proof using All.
  intros Hc Hadj H0 Hfuel.
  rewrite tour_loop_unfold, size_singleton, Hsize.
  rewrite bool_decide_eq_true_2 by lia.
  destruct fuel as [|fuel]; [lia |]. simpl last.
  destruct (Hkeys 0) as [l Hl]; [lia |].
  unfold dd_get. rewrite Hl.
  destruct (on_cycle_next n c Hc 0 0 H0) as (w1 & Hw1 & H01).
  assert (cyc_next n 0 = 1) as Hnext0.
  { unfold cyc_next. by rewrite bool_decide_eq_true_2 by lia. }
  rewrite Hnext0 in Hw1.
  assert (w1 ∈ l) as Hw1l.
  { assert (in_dd d 0 w1) as (l' & Hl' & Hin) by (apply Hadj; by left).
    congruence. }
  assert (w1 ≠ 0) as Hw1ne.
  { apply not_eq_sym. by apply (on_cycle_ne n c Hc 0 w1 Hn). }
  destruct (list_find_elem_of (λ j, j ∉ ({[0]} : gset nat)) l w1 Hw1l)
    as [[p j] Hfind].
  { by apply not_elem_of_singleton. }
  rewrite Hfind.
  apply list_find_Some in Hfind as (Hp & Hj & _).
  apply not_elem_of_singleton in Hj.
  assert (cycle_edge c 0 j) as [H0j | Hj0].
  { apply Hadj. exists l. split; [done |]. by eapply list_elem_of_lookup_2. }
  - (* along [c] *)
    pose proof (on_cycle_inv n c Hc 0 0 j H0 H0j) as Hj1.
    rewrite Hnext0 in Hj1.
    exists c. split; [done |]. split; [done |]. split; [done |].
    apply walk_from_second; try done. lia.
  - (* along [c] the other way round *)
    destruct c as [|z rest]; [done |]. injection H0 as ->.
    set (c' := 0 :: reverse rest).
    assert (c' ≡ₚ seq 0 n) as Hc'.
    { unfold c'. by rewrite reverse_Permutation. }
    assert (∀ v w, in_dd d v w ↔ cycle_edge c' v w) as Hadj'.
    { intros v w. unfold c'. by rewrite cycle_edge_reverse. }
    exists c'. split; [done |]. split; [done |]. split; [done |].
    apply walk_from_second; try done; [| lia].
    (* the second node of [c'] is the last node of [c] *)
    destruct Hj0 as (i & Hi & Hi0).
    rewrite (cycle_length n _ Hc) in Hi0.
    assert (i = n - 1) as ->.
    { destruct (cycle_lt n _ Hc i j Hi) as [_ Hin].
      pose proof (cycle_inj n _ Hc _ 0 0 Hi0 eq_refl) as Hz.
      unfold cyc_next in Hz. case_bool_decide; lia. }
    pose proof (cycle_length n _ Hc) as Hlen. simpl in Hlen.
    unfold c'. simpl.
    rewrite reverse_lookup by lia.
    replace (length rest - 1) with (n - 1 - 1) by lia.
    destruct n as [|[|n']]; [lia | lia |]. simpl in *.
    by replace (n' - 0) with n' in * by lia.
Qed.

End Tour.

Lemma hamiltonian_b_true (n : nat) (cyc : list nat) (sol : list Qc) :
  hamiltonian_b n cyc sol = true → hamiltonian n cyc sol.
Proof.
  unfold hamiltonian_b. rewrite !andb_true_iff, !bool_decide_eq_true.
  intros [[Hperm Hlen] Hall]. split; [done | done |].
  intros k a b v Hk Hv.
  rewrite forallb_forall in Hall.
  assert (((a, b), v) ∈ zip (edges_of n) sol) as Hin.
  { apply (list_elem_of_lookup_2 _ k). rewrite lookup_zip_with, Hk. simpl.
    by rewrite Hv. }
  apply list_elem_of_In, Hall in Hin. by apply bool_decide_eq_true in Hin.
Qed.

(** C5.  For an integer TSP model on [n >= 2] nodes and a solution
    vector whose entries above the threshold 0.01 are exactly the edges
    of one cycle through all [n] nodes, [getTour] returns once its loop
    may run [n - 1] times, and what it returns starts at node 0, ends
    at node 0 and has every other node exactly once in between. *)
Theorem getTour_follows_the_hamiltonian_cycle
    (n fuel : nat) (o : tspmodel) (sol : list Qc) (cyc : list nat) :
  2 ≤ n →
  tsp_object o → num_nodes o = n → ¬ is_relaxation (type_self o) →
  hamiltonian n cyc sol →
  n - 1 ≤ fuel →
  ∃ mid,
    getTour fuel o sol = Ok (0 :: mid ++ [0]) ∧
    mid ≡ₚ seq 1 (n - 1).
Proof.
  intros Hn Hobj Hnodes Hint Hham Hfuel.
  pose proof (ham_nodes _ _ _ Hham) as Hcyc.
  (* the adjacency lists *)
  destruct (getTour_adjacency n cyc sol Hn Hham)
    as (d & Hd & Hadj & Hkeys & Hsize).
  (* the cycle written from node 0 *)
  destruct (cycle_index n cyc Hcyc 0) as [k Hk]; [lia |].
  assert (k < length cyc) as Hklen by (by apply lookup_lt_Some in Hk).
  set (c := drop k cyc ++ take k cyc).
  assert (c ≡ₚ seq 0 n) as Hc.
  { unfold c. rewrite Permutation_app_comm, take_drop. done. }
  assert (c !! 0 = Some 0) as Hc0.
  { unfold c. rewrite rot_lookup by lia. unfold rot_index.
    rewrite bool_decide_eq_true_2 by lia. by rewrite Nat.add_0_r. }
  assert (∀ v w, in_dd d v w ↔ cycle_edge c v w) as Hadjc.
  { intros v w. rewrite Hadj. unfold cycle_edge, c.
    by rewrite !on_cycle_rotate. }
  (* the walk *)
  destruct (walk_from_zero n d Hn Hkeys Hsize c fuel Hc Hadjc Hc0 Hfuel)
    as (c' & Hc' & Hc'0 & Hadj' & Hloop).
  (* the last step back to node 0 *)
  pose proof (cycle_length n c' Hc') as Hlen.
  destruct (lookup_lt_is_Some_2 c' (n - 1)) as [v Hv]; [lia |].
  assert (last c' = Some v) as Hlast.
  { rewrite last_lookup, Hlen. by replace (pred n) with (n - 1) by lia. }
  assert (in_dd d v 0) as (l & Hl & H0l).
  { apply Hadj'. left. exists (n - 1). split; [done |].
    rewrite Hlen. unfold cyc_next.
    by rewrite bool_decide_eq_false_2 by lia. }
  destruct c' as [|z mid]; [done |]. injection Hc'0 as ->.
  exists mid. split.
  - unfold getTour, tspABModel_getTour.
    rewrite (tsp_object_edges o Hobj), Hnodes, Hd. simpl.
    rewrite Hloop. simpl. rewrite Hlast.
    unfold dd_get. rewrite Hl. simpl.
    rewrite bool_decide_eq_true_2 by done.
    destruct (type_self o) eqn:Ht; try done;
      destruct Hint; unfold is_relaxation; auto.
  - replace n with (S (n - 1)) in Hc' by lia. simpl in Hc'.
    by apply Permutation_cons_inv in Hc'.
Qed.

(* ================================================================== *)
(** * [subtour] *)
(* ================================================================== *)

Lemma list_remove_spec (a : nat) (l : list nat) :
  NoDup l → a ∈ l →
  ∃ l', list_remove a l = Ok l' ∧ NoDup l' ∧
        (∀ x, x ∈ l' ↔ x ∈ l ∧ x ≠ a) ∧ length l = S (length l').
Proof.
  induction l as [|b l IH]; intros Hnd Ha; [by apply elem_of_nil in Ha |].
  apply NoDup_cons in Hnd as [Hb Hnd]. simpl. case_bool_decide as Hba.
  - subst b. exists l. split; [done |]. split; [done |]. split; [| done].
    intros x. rewrite elem_of_cons. split.
    + intros Hx. split; [by right |]. by intros ->.
    + by intros [[-> | Hx] Hne].
  - apply elem_of_cons in Ha as [-> | Ha]; [done |].
    destruct (IH Hnd Ha) as (l' & -> & Hnd' & Hmem & Hlen). simpl.
    exists (b :: l'). split; [done |]. split.
    { apply NoDup_cons. split; [| done]. rewrite Hmem. by intros [Hb' _]. }
    split; [| by rewrite Hlen].
    intros x. rewrite !elem_of_cons, Hmem. split.
    + intros [-> | [Hx Hne]]; [by split; [left |] | by split; [right |]].
    + intros [[-> | Hx] Hne]; [by left | by right].
Qed.

Lemma chain_snoc (sel : list (nat * nat)) (l : list nat) (c : nat) :
  chain sel l → (∀ prev, last l = Some prev → (prev, c) ∈ sel) →
  chain sel (l ++ [c]).
Proof.
  intros Hl Hc i x y Hx Hy.
  destruct (decide (S i < length l)) as [Hi | Hi].
  - rewrite lookup_app_l in Hx by lia. rewrite lookup_app_l in Hy by lia.
    by apply (Hl i).
  - assert (S i = length l) as Hi'.
    { apply lookup_lt_Some in Hy. rewrite length_app in Hy. simpl in Hy. lia. }
    rewrite lookup_app_l in Hx by lia.
    rewrite lookup_app_r in Hy by lia.
    replace (S i - length l) with 0 in Hy by lia. injection Hy as <-.
    apply Hc. rewrite last_lookup. by replace (pred (length l)) with i by lia.
Qed.

Section Graph.

Variables (sel : list (nat * nat)) (n : nat).
Hypothesis Hsym : ∀ v w, (v, w) ∈ sel → (w, v) ∈ sel.
Hypothesis Hirr : ∀ v, (v, v) ∉ sel.
Hypothesis Hnodup : NoDup sel.
Hypothesis Hrange : ∀ v w, (v, w) ∈ sel → v < n.
Hypothesis Hdeg : ∀ v, v < n → length (select sel v) = 2.

Lemma elem_of_select (v : nat) (e : nat * nat) :
  e ∈ select sel v ↔ e.1 = v ∧ e ∈ sel.
Proof using Type. unfold select. by rewrite list_elem_of_filter. Qed.

Lemma two_neighbours (v : nat) :
  v < n →
  ∃ a b, (select sel v).*2 = [a; b] ∧ a ≠ b ∧
         ∀ w, (v, w) ∈ sel ↔ w = a ∨ w = b.
Proof using Hnodup Hdeg.
  intros Hv. pose proof (Hdeg v Hv) as Hlen.
  assert (NoDup (select sel v)) as Hnd by (by apply NoDup_filter).
  destruct (select sel v) as [|[v1 a] [|[v2 b] [|? ?]]] eqn:Hs; try done.
  assert ((v1, a) ∈ select sel v) as Ha by (rewrite Hs; by left).
  assert ((v2, b) ∈ select sel v) as Hb by (rewrite Hs; right; by left).
  apply elem_of_select in Ha as [Hv1 Ha], Hb as [Hv2 Hb]. simpl in *.
  subst v1 v2. exists a, b. split; [done |]. split.
  - intros ->. apply NoDup_cons in Hnd as [Hnd _]. apply Hnd. by left.
  - intros w. split.
    + intros Hw. assert ((v, w) ∈ select sel v) as Hin
        by (by apply elem_of_select).
      rewrite Hs in Hin.
      apply elem_of_cons in Hin as [[= ->] | Hin]; [by left |].
      apply list_elem_of_singleton in Hin as [= ->]. by right.
    + by intros [-> | ->].
Qed.

Lemma at_most_two (v a b c : nat) :
  (v, a) ∈ sel → (v, b) ∈ sel → (v, c) ∈ sel →
  a ≠ b → a ≠ c → b ≠ c → False.
Proof using Hnodup Hdeg Hrange.
  intros Ha Hb Hc Hab Hac Hbc.
  destruct (two_neighbours v) as (p & q & _ & _ & Hpq); [by eapply Hrange |].
  apply Hpq in Ha, Hb, Hc.
  destruct Ha, Hb, Hc; congruence.
Qed.

(** A node in the middle of a chain has its two neighbours there. *)
Lemma chain_inner (l : list nat) (j : nat) (x y : nat) :
  NoDup l → chain sel l →
  l !! S j = Some x → S (S j) < length l → (x, y) ∈ sel →
  l !! j = Some y ∨ l !! S (S j) = Some y.
Proof using All.
  intros Hnd Hch Hx Hlt Hxy.
  destruct (lookup_lt_is_Some_2 l j) as [u Hu]; [lia |].
  destruct (lookup_lt_is_Some_2 l (S (S j))) as [z Hz]; [lia |].
  pose proof (Hsym _ _ (Hch j u x Hu Hx)) as Hxu.
  pose proof (Hch (S j) x z Hx Hz) as Hxz.
  destruct (decide (y = u)) as [-> | Hyu]; [by left |].
  destruct (decide (y = z)) as [-> | Hyz]; [by right |].
  exfalso. apply (at_most_two x u z y); try done.
  intros ->. pose proof (NoDup_lookup l _ _ _ Hnd Hu Hz). lia.
Qed.

Section Walk.

(** The nodes [U] not yet visited and the chain [path] walked so far:
    no selected pair leaves them. *)
Variables (U path : list nat).
Hypothesis Hpath : NoDup path.
Hypothesis Hchain : chain sel path.
Hypothesis Hdisj : ∀ x, x ∈ U → x ∉ path.
Hypothesis Hclosed :
  ∀ x y, (x, y) ∈ sel → x ∈ U ∨ x ∈ path → y ∈ U ∨ y ∈ path.
Hypothesis Hnodes : ∀ x, x ∈ path → x < n.

(** The walk stops: the last node has no neighbour left. *)
Variable prev : nat.
Hypothesis Hprev : last path = Some prev.
Hypothesis Hstop : ∀ y, (prev, y) ∈ sel → y ∉ U.

Lemma stop_position (j : nat) (c : nat) :
  path !! j = Some c → (prev, c) ∈ sel →
  j = 0 ∨ S (S j) = length path.
Proof using All.
  intros Hj Hc.
  pose proof Hprev as Hk. rewrite last_lookup in Hk.
  assert (j < length path) as Hjlt by (by apply lookup_lt_Some in Hj).
  destruct j as [|j]; [by left |]. right.
  destruct (decide (S (S (S j)) = length path)) as [| Hne]; [done |].
  exfalso.
  assert (S j ≠ pred (length path)) as Hjk.
  { intros Heq. rewrite <- Heq in Hk. rewrite Hk in Hj. injection Hj as ->.
    by apply (Hirr c). }
  destruct (chain_inner path j c prev Hpath Hchain Hj) as [H | H];
    [lia | by apply Hsym | |].
  - pose proof (NoDup_lookup path _ _ _ Hpath H Hk). lia.
  - pose proof (NoDup_lookup path _ _ _ Hpath H Hk). lia.
Qed.

Lemma stop_closes :
  2 ≤ length path →
  3 ≤ length path ∧ ∃ v0, path !! 0 = Some v0 ∧ (prev, v0) ∈ sel.
Proof using All.
  intros Hlen.
  pose proof Hprev as Hk. rewrite last_lookup in Hk.
  assert (prev ∈ path) as Hin by (by eapply list_elem_of_lookup_2).
  destruct (two_neighbours prev (Hnodes _ Hin)) as (a & b & _ & Hab & Hnb).
  assert (∀ c, (prev, c) ∈ sel →
               ∃ j, path !! j = Some c ∧ (j = 0 ∨ S (S j) = length path))
    as Hpos.
  { intros c Hc. destruct (Hclosed prev c Hc (or_intror Hin)) as [HU | HP].
    - by destruct (Hstop c Hc).
    - apply list_elem_of_lookup_1 in HP as [j Hj]. exists j.
      split; [done |]. by apply stop_position with c. }
  destruct (Hpos a) as (ja & Hja & Ha); [apply Hnb; by left |].
  destruct (Hpos b) as (jb & Hjb & Hb); [apply Hnb; by right |].
  assert (ja ≠ jb) as Hne by (intros ->; congruence).
  assert ((prev, a) ∈ sel) as Hpa by (apply Hnb; by left).
  assert ((prev, b) ∈ sel) as Hpb by (apply Hnb; by right).
  destruct Ha as [-> | Ha], Hb as [-> | Hb]; try lia.
  - split; [destruct jb; lia |]. by exists a.
  - split; [destruct ja; lia |]. by exists b.
Qed.

Lemma walk_end (x y : nat) : (x, y) ∈ sel → x ∈ path → y ∈ path.
Proof using All.
  intros Hxy Hx.
  destruct (Hclosed x y Hxy (or_intror Hx)) as [HU | HP]; [| done].
  exfalso.
  pose proof Hprev as Hk. rewrite last_lookup in Hk.
  apply list_elem_of_lookup_1 in Hx as [i Hi].
  assert (i < length path) as Hilt by (by apply lookup_lt_Some in Hi).
  destruct (decide (i = pred (length path))) as [-> | Hik].
  { rewrite Hk in Hi. injection Hi as ->. by apply (Hstop y). }
  destruct (lookup_lt_is_Some_2 path (S i)) as [z Hz]; [lia |].
  pose proof (Hchain i x z Hi Hz) as Hxz.
  assert (z ∈ path) as Hzin by (by eapply list_elem_of_lookup_2).
  assert (y ≠ z) as Hyz by (intros ->; by apply (Hdisj z)).
  destruct i as [|i].
  - destruct stop_closes as (Hlen & v0 & Hv0 & Hpv0); [lia |].
    rewrite Hi in Hv0. injection Hv0 as <-.
    assert (prev ∈ path) as Hpin by (by eapply list_elem_of_lookup_2).
    apply (at_most_two x z prev y); try done; [by apply Hsym | |].
    + intros ->. pose proof (NoDup_lookup path _ _ _ Hpath Hz Hk). lia.
    + intros ->. by apply (Hdisj y).
  - destruct (lookup_lt_is_Some_2 path i) as [u Hu]; [lia |].
    assert (u ∈ path) as Huin by (by eapply list_elem_of_lookup_2).
    apply (at_most_two x u z y); try done.
    + apply Hsym. by apply (Hchain i).
    + intros ->. pose proof (NoDup_lookup path _ _ _ Hpath Hu Hz). lia.
    + intros ->. by apply (Hdisj y).
Qed.

End Walk.

Lemma elem_of_neighbours (c y : nat) :
  y ∈ (select sel c).*2 ↔ (c, y) ∈ sel.
Proof using Type.
  rewrite list_elem_of_fmap. split.
  - intros ([a b] & -> & He). apply elem_of_select in He as [Ha He].
    simpl in *. by subst a.
  - intros Hy. exists (c, y). split; [done |]. by apply elem_of_select.
Qed.

(** The inner loop walks a chain until it closes. *)
Lemma walk_spec (fuel : nat) (neighbors U path : list nat) :
  NoDup path → chain sel path → NoDup U →
  (∀ x, x ∈ U → x ∉ path) →
  (∀ x y, (x, y) ∈ sel → x ∈ U ∨ x ∈ path → y ∈ U ∨ y ∈ path) →
  (∀ x, x ∈ U ∨ x ∈ path → x < n) →
  match neighbors with
  | [] => ∃ prev, last path = Some prev ∧ ∀ y, (prev, y) ∈ sel → y ∉ U
  | c :: _ => c ∈ U ∧ ∀ prev, last path = Some prev → (prev, c) ∈ sel
  end →
  length U ≤ fuel →
  ∃ path' U',
    subtour_walk fuel sel neighbors U path = Ok (path', U') ∧
    path' ≠ [] ∧ NoDup path' ∧ chain sel path' ∧ NoDup U' ∧
    (∀ x, x ∈ U' → x ∉ path') ∧
    (∀ x, x ∈ U' ∨ x ∈ path' ↔ x ∈ U ∨ x ∈ path) ∧
    (∀ x y, (x, y) ∈ sel → x ∈ path' → y ∈ path').
Proof using All.
  assert (∀ fuel U path,
    NoDup path → chain sel path → NoDup U →
    (∀ x, x ∈ U → x ∉ path) →
    (∀ x y, (x, y) ∈ sel → x ∈ U ∨ x ∈ path → y ∈ U ∨ y ∈ path) →
    (∀ x, x ∈ U ∨ x ∈ path → x < n) →
    (∃ prev, last path = Some prev ∧ ∀ y, (prev, y) ∈ sel → y ∉ U) →
    ∃ path' U',
      subtour_walk fuel sel [] U path = Ok (path', U') ∧
      path' ≠ [] ∧ NoDup path' ∧ chain sel path' ∧ NoDup U' ∧
      (∀ x, x ∈ U' → x ∉ path') ∧
      (∀ x, x ∈ U' ∨ x ∈ path' ↔ x ∈ U ∨ x ∈ path) ∧
      (∀ x y, (x, y) ∈ sel → x ∈ path' → y ∈ path')) as Hstop.
  { clear fuel neighbors U path.
    intros fuel U path Hp Hch HU Hdisj Hcl Hn (prev & Hprev & Hnb).
    exists path, U. split; [by destruct fuel |].
    split; [by intros -> |]. repeat (split; [done |]).
    intros x y. apply (walk_end U path Hp Hch Hdisj Hcl) with prev; auto. }
  revert neighbors U path.
  induction fuel as [|fuel IH]; intros neighbors U path Hp Hch HU Hdisj Hcl
    Hn Hnb Hfuel; destruct neighbors as [|c rest]; try by apply Hstop.
  - destruct Hnb as [Hc _]. destruct U; [by apply elem_of_nil in Hc |].
    simpl in Hfuel. lia.
  - destruct Hnb as [Hc Hlast].
    destruct (list_remove_spec c U HU Hc) as (U1 & Hrm & HU1 & Hmem & Hlen).
    cbn [subtour_walk]. rewrite Hrm. cbn [mbind result_bind].
    destruct (IH (filter (λ j, j ∈ U1) (select sel c).*2) U1 (path ++ [c]))
      as (path' & U' & Hwalk & Hne & Hp' & Hch' & HU' & Hdisj' & Hmem' & Hcl').
    + apply NoDup_app. split; [done |]. split; [| apply NoDup_singleton].
      intros x Hx Hxc. apply list_elem_of_singleton in Hxc as ->.
      by apply (Hdisj c).
    + by apply chain_snoc.
    + done.
    + intros x Hx. apply Hmem in Hx as [Hx Hxc].
      rewrite elem_of_app, list_elem_of_singleton.
      intros [Hxp | ->]; [by apply (Hdisj x) | done].
    + intros x y Hxy Hx.
      assert (x ∈ U ∨ x ∈ path) as Hx'.
      { destruct Hx as [Hx | Hx]; [apply Hmem in Hx as [Hx _]; by left |].
        apply elem_of_app in Hx as [Hx | Hx]; [by right |].
        apply list_elem_of_singleton in Hx as ->. by left. }
      rewrite Hmem, elem_of_app, list_elem_of_singleton.
      destruct (Hcl x y Hxy Hx') as [Hy | Hy]; [| by right; left].
      destruct (decide (y = c)) as [-> | Hyc]; [by right; right | by left].
    + intros x. rewrite Hmem, elem_of_app, list_elem_of_singleton.
      intros [[Hx _] | [Hx | ->]]; apply Hn; auto.
    + destruct (filter _ _) as [|c' rest'] eqn:Hf.
      * exists c. split; [by rewrite last_snoc |].
        intros y Hy HyU.
        assert (y ∈ filter (λ j, j ∈ U1) (select sel c).*2) as Hin.
        { apply list_elem_of_filter. split; [done |].
          by apply elem_of_neighbours. }
        rewrite Hf in Hin. by apply elem_of_nil in Hin.
      * assert (c' ∈ filter (λ j, j ∈ U1) (select sel c).*2) as Hin
          by (rewrite Hf; by left).
        apply list_elem_of_filter in Hin as [Hc' Hin].
        apply elem_of_neighbours in Hin. split; [done |].
        intros prev. rewrite last_snoc. by intros [= <-].
    + lia.
    + exists path', U'. split; [done |]. repeat (split; [done |]).
      split; [| done].
      intros x. rewrite Hmem'. rewrite Hmem, elem_of_app,
        list_elem_of_singleton. split.
      * intros [[Hx _] | [Hx | ->]]; auto.
      * intros [Hx | Hx]; [| by right; left].
        destruct (decide (x = c)) as [-> | Hxc]; [by right; right | by left].
Qed.

Lemma linked_sym (v w : nat) : linked sel v w → linked sel w v.
Proof using Hsym.
  unfold linked. induction 1 as [| x y z Hxy _ IH]; [done |].
  eapply rtc_r; [exact IH |]. by apply Hsym.
Qed.

Lemma chain_linked (path : list nat) (v w : nat) :
  chain sel path → v ∈ path → w ∈ path → linked sel v w.
Proof using Hsym.
  intros Hch Hv Hw.
  assert (∀ i x0 x, path !! 0 = Some x0 → path !! i = Some x →
                    linked sel x0 x) as Hfirst.
  { induction i as [|i IH]; intros x0 x H0 Hi.
    - rewrite H0 in Hi. injection Hi as ->. apply rtc_refl.
    - destruct (lookup_lt_is_Some_2 path i) as [u Hu];
        [apply lookup_lt_Some in Hi; lia |].
      eapply rtc_r; [by apply IH |]. by apply (Hch i). }
  apply list_elem_of_lookup_1 in Hv as [i Hi], Hw as [j Hj].
  destruct (lookup_lt_is_Some_2 path 0) as [x0 H0];
    [apply lookup_lt_Some in Hi; lia |].
  unfold linked. etrans.
  - apply linked_sym. by apply (Hfirst i).
  - by apply (Hfirst j).
Qed.

(** A closed chain is the component of each of its nodes. *)
Lemma chain_component (path : list nat) (v : nat) :
  chain sel path →
  (∀ x y, (x, y) ∈ sel → x ∈ path → y ∈ path) →
  v ∈ path →
  ∀ w, w ∈ path ↔ linked sel v w.
Proof using Hsym.
  intros Hch Hcl Hv w. split.
  - intros Hw. by apply (chain_linked path).
  - unfold linked. induction 1 as [| x y z Hxy _ IH]; [done |].
    apply IH. by apply (Hcl x).
Qed.

Lemma linked_range (v w : nat) : v < n → linked sel v w → w < n.
Proof using Hsym Hrange.
  intros Hv. unfold linked. induction 1 as [| x y z Hxy _ IH]; [done |].
  apply IH. apply (Hrange y x). by apply Hsym.
Qed.

Lemma length_nodes (l : list nat) :
  NoDup l → (∀ x, x ∈ l → x < n) → length l ≤ n.
Proof using Type.
  intros Hnd Hl.
  assert (length l ≤ length (seq 0 n)) as Hle; [| by rewrite length_seq in Hle].
  apply submseteq_length, NoDup_submseteq; [done |].
  intros x Hx. apply elem_of_seq. specialize (Hl x Hx). lia.
Qed.

(** The outer loop: among the components of the visited nodes, the
    first of the smallest is kept. *)
Lemma loop_spec (fuel : nat) (U cycle : list nat) :
  0 < n →
  NoDup U → (∀ x, x ∈ U → x < n) →
  (∀ x y, (x, y) ∈ sel → x ∈ U → y ∈ U) →
  length U ≤ fuel →
  ((∀ v, v < n → v ∈ U) ∧ length cycle = n + 1) ∨ component sel n cycle →
  (∀ v comp, v < n → v ∉ U → NoDup comp →
             (∀ w, w ∈ comp ↔ linked sel v w) →
             length cycle ≤ length comp) →
  ∃ tour,
    subtour_loop fuel sel U cycle = Ok tour ∧
    component sel n tour ∧
    ∀ comp, component sel n comp → length tour ≤ length comp.
Proof using All.
  intros Hn. revert U cycle.
  induction fuel as [|fuel IH]; intros U cycle HU HUn Hcl Hfuel Hinv Hmin.
  - destruct U; [| simpl in Hfuel; lia].
    exists cycle. split; [done |]. split.
    + destruct Hinv as [[H0 _] |]; [| done].
      specialize (H0 0 Hn). by apply elem_of_nil in H0.
    + intros comp (Hnd & v & Hv & Hcomp).
      apply (Hmin v); try done. apply not_elem_of_nil.
  - destruct U as [|v0 U'] eqn:HeqU.
    { exists cycle. split; [done |]. split.
      + destruct Hinv as [[H0 _] |]; [| done].
        specialize (H0 0 Hn). by apply elem_of_nil in H0.
      + intros comp (Hnd & v & Hv & Hcomp).
        apply (Hmin v); try done. apply not_elem_of_nil. }
    rewrite <- HeqU in *.
    destruct (walk_spec (S fuel) U U [])
      as (path & U1 & Hwalk & Hne & Hp & Hch & HU1 & Hdisj & Hmem & Hpcl).
    { apply NoDup_nil_2. }
    { intros i x y Hx. done. }
    { done. }
    { intros x _. apply not_elem_of_nil. }
    { intros x y Hxy [Hx | Hx]; [| by apply elem_of_nil in Hx].
      left. by apply (Hcl x). }
    { intros x [Hx | Hx]; [by apply HUn | by apply elem_of_nil in Hx]. }
    { rewrite HeqU. split; [by left | done]. }
    { done. }
    assert (∀ x, x ∈ U ↔ x ∈ U1 ∨ x ∈ path) as Hmem'.
    { intros x. rewrite Hmem. split; [by left |].
      intros [Hx | Hx]; [done | by apply elem_of_nil in Hx]. }
    assert (length U = length U1 + length path) as Hlen.
    { rewrite <- length_app. apply Permutation_length.
      apply NoDup_Permutation; [done | |].
      - apply NoDup_app. split; [done |]. split; [| done].
        intros x Hx. by apply Hdisj.
      - intros x. by rewrite elem_of_app. }
    assert (0 < length path) as Hpos by (destruct path; [done | simpl; lia]).
    assert (∀ x, x ∈ path → x < n) as Hpn.
    { intros x Hx. apply HUn, Hmem'. by right. }
    assert (length path ≤ n) as Hpathn by (by apply length_nodes).
    assert (component sel n path) as Hcomp.
    { split; [done |]. destruct path as [|v path']; [done |].
      exists v. split; [apply Hpn; by left |].
      apply chain_component; [done | done | by left]. }
    assert (subtour_loop (S fuel) sel U cycle
            = subtour_loop fuel sel U1
                (if bool_decide (length path < length cycle) then path
                 else cycle)) as ->.
    { rewrite HeqU. cbn [subtour_loop]. rewrite <- HeqU. rewrite Hwalk.
      done. }
    apply IH.
    + done.
    + intros x Hx. apply HUn, Hmem'. by left.
    + intros x y Hxy Hx.
      assert (y ∈ U) as Hy by (apply (Hcl x); [done | apply Hmem'; by left]).
      apply Hmem' in Hy as [Hy | Hy]; [done |].
      destruct (Hdisj x Hx). apply (Hpcl y); [by apply Hsym | done].
    + lia.
    + right. case_bool_decide as Hlt; [done |].
      destruct Hinv as [[_ Hc] |]; [lia | done].
    + intros v comp Hv HvU1 Hnd Hcv.
      destruct (decide (v ∈ U)) as [HvU | HvU].
      * assert (v ∈ path) as Hvp.
        { apply Hmem' in HvU as [HvU | HvU]; done. }
        assert (length path ≤ length comp) as Hle.
        { apply submseteq_length, NoDup_submseteq; [done |].
          intros x Hx. apply Hcv.
          by apply (chain_component path v Hch Hpcl Hvp). }
        case_bool_decide; lia.
      * pose proof (Hmin v comp Hv HvU Hnd Hcv).
        case_bool_decide; lia.
Qed.

Lemma subtour_spec :
  0 < n →
  ∃ tour,
    subtour sel n = Ok tour ∧
    component sel n tour ∧
    ∀ comp, component sel n comp → length tour ≤ length comp.
Proof using All.
  intros Hn. apply loop_spec.
  - done.
  - apply NoDup_seq.
  - intros x Hx. apply elem_of_seq in Hx. lia.
  - intros x y Hxy _. apply elem_of_seq.
    pose proof (Hrange y x (Hsym x y Hxy)). lia.
  - rewrite length_seq. lia.
  - left. split; [| rewrite length_seq; lia].
    intros v Hv. apply elem_of_seq. lia.
  - intros v comp Hv Hnot. destruct Hnot. apply elem_of_seq. lia.
Qed.

End Graph.

(* ================================================================== *)
(** * The variables of the DFJ model *)
(* ================================================================== *)

Lemma edge_cell (i j : nat) (e : nat * nat) :
  e ∈ (if bool_decide (i < j) then [(i, j)] else []) → e = (i, j).
Proof.
  case_bool_decide; intros He; [by apply list_elem_of_singleton in He |].
  by apply elem_of_nil in He.
Qed.

Lemma NoDup_edges_of (n : nat) : NoDup (edges_of n).
Proof.
  unfold edges_of. apply NoDup_bind; [| | apply NoDup_seq].
  - intros i1 i2 [a b] _ _ H1 H2.
    apply list_elem_of_bind in H1 as (j1 & H1 & _).
    apply list_elem_of_bind in H2 as (j2 & H2 & _).
    apply edge_cell in H1, H2. congruence.
  - intros i _. apply NoDup_bind; [| | apply NoDup_seq].
    + intros j1 j2 [a b] _ _ H1 H2.
      apply edge_cell in H1, H2. congruence.
    + intros j _. case_bool_decide; [apply NoDup_singleton | apply NoDup_nil_2].
Qed.

Lemma mirror_keys_exact (es : list (nat * nat)) :
  NoDup es → (∀ e, e ∈ es → e.1 < e.2) →
  mirror_keys es (imap (λ p k, (k, p)) es)
  = Ok (imap (λ p k, (k, p)) es ++ imap (λ p k, (swap k, p)) es).
Proof.
  intros Hnd Hlt.
  assert (∀ rest seen, es = seen ++ rest →
            mirror_keys rest
              (imap (λ p k, (k, p)) es ++ imap (λ p k, (swap k, p)) seen)
            = Ok (imap (λ p k, (k, p)) es ++ imap (λ p k, (swap k, p)) es))
    as Hgen.
  { induction rest as [|[i j] rest IH]; intros seen Hes.
    - rewrite app_nil_r in Hes. by subst seen.
    - set (D := imap (λ p k, (k, p)) es ++ imap (λ p k, (swap k, p)) seen).
      assert (es !! length seen = Some (i, j)) as Hat.
      { rewrite Hes, lookup_app_r by lia.
        by replace (length seen - length seen) with 0 by lia. }
      assert ((i, j) ∈ es) as Hin by (by eapply list_elem_of_lookup_2).
      pose proof (Hlt _ Hin) as Hij. simpl in Hij.
      assert (∀ k v, (k, v) ∈ D →
                (es !! v = Some k) ∨ (swap k ∈ seen ∧ k.2 < k.1)) as HD.
      { intros k v Hk. apply elem_of_app in Hk as [Hk | Hk];
          apply elem_of_lookup_imap in Hk as (p & e & [= -> ->] & Hp).
        - by left.
        - right. apply list_elem_of_lookup_2 in Hp.
          unfold swap. destruct e as [a b]. simpl. split; [done |].
          apply (Hlt (a, b)). rewrite Hes. apply elem_of_app. by left. }
      cbn [mirror_keys].
      destruct (td_get_Ok D i j) as (v & Hget & Hv).
      { unfold D. rewrite fmap_app, elem_of_app. left.
        by rewrite (imap_keys (λ p, p)). }
      rewrite Hget. cbn [mbind result_bind].
      assert (v = length seen) as ->.
      { destruct (HD _ _ Hv) as [Hv' | [_ Hv']]; [| simpl in Hv'; lia].
        by apply (NoDup_lookup es _ _ (i, j)). }
      assert (td_set D j i (length seen) = D ++ [((j, i), length seen)])
        as ->.
      { unfold td_set.
        destruct (list_find _ D) as [[p [k v]] |] eqn:Hfind; [| done].
        apply list_find_Some in Hfind as (Hp & Hk & _). simpl in Hk.
        subst k. apply list_elem_of_lookup_2 in Hp.
        destruct (HD _ _ Hp) as [Hv' | [Hv' _]].
        - apply list_elem_of_lookup_2, Hlt in Hv'. simpl in Hv'. lia.
        - unfold swap in Hv'. simpl in Hv'. exfalso.
          rewrite Hes in Hnd. apply NoDup_app in Hnd as (_ & Hd & _).
          apply (Hd (i, j) Hv'). by left. }
      rewrite <- (IH (seen ++ [(i, j)])).
      + unfold D. rewrite <- app_assoc. do 2 f_equal.
        rewrite imap_app. simpl. by rewrite Nat.add_0_r.
      + by rewrite <- app_assoc. }
  specialize (Hgen es [] eq_refl). simpl in Hgen.
  by rewrite app_nil_r in Hgen.
Qed.

Lemma DFJ_fields (n : nat) (o : tspmodel) :
  tsp_init tspDFJModel n = Ok o →
  m_x (_model o) = Some (DFJ_x n) ∧ m_n (_model o) = Some n.
Proof.
  unfold tsp_init. cbn [_getModel]. unfold tspDFJModel_getModel.
  unfold addVars. cbv beta iota zeta. simpl length at 1.
  change (λ p k, (k, 0 + p)) with (λ (p : nat) (k : nat * nat), (k, p)).
  rewrite mirror_keys_exact.
  - cbn [mbind result_bind]. intros [= <-]. simpl.
    by rewrite length_seq.
  - apply NoDup_edges_of.
  - intros [a b] He. apply elem_of_edges_of in He. simpl. lia.
Qed.

(* ================================================================== *)
(** * The selected pairs *)
(* ================================================================== *)

Lemma forM_values {K} (h : K → nat * nat) (es : list K) (vals : list Qc) :
  length es ≤ length vals →
  forM (imap (λ p k, (h k, p)) es)
       (λ e : nat * nat * nat, q ← var_x vals e.2; Ok (e.1, q))
  = Ok (zip (h <$> es) vals).
Proof.
  intros Hlen. apply forM_Ok_Forall2.
  apply Forall2_same_length_lookup_2.
  - rewrite length_imap, length_zip_with, length_fmap. lia.
  - intros i [k p] [k' q]. rewrite list_lookup_imap, lookup_zip_with.
    rewrite list_lookup_fmap.
    destruct (es !! i) as [e |]; [| done]. simpl.
    destruct (vals !! i) as [q' |] eqn:Hq; [| done]. simpl.
    intros [= <- <-] [= <- <-]. unfold var_x. by rewrite Hq.
Qed.

Lemma chosen_fmap {K} (h : K → nat * nat) (es : list K) (vals : list Qc) :
  (filter (λ e : nat * nat * Qc, active e.2) (zip (h <$> es) vals)).*1
  = h <$> (filter (λ e : K * Qc, active e.2) (zip es vals)).*1.
Proof.
  revert vals. induction es as [|e es IH]; intros [|q vals]; try done.
  simpl. rewrite !filter_cons. simpl.
  destruct (decide (active q)); simpl; by rewrite IH.
Qed.

Lemma selected_of_DFJ (n : nat) (vals : list Qc) :
  length vals = length (edges_of n) →
  selected_of (DFJ_x n) vals = Ok (selected_pairs n vals).
Proof.
  intros Hlen. unfold selected_of, DFJ_x, selected_pairs.
  assert (forM (imap (λ p k, (k, p)) (edges_of n) ++
                imap (λ p k, (swap k, p)) (edges_of n))
               (λ e : nat * nat * nat, q ← var_x vals e.2; Ok (e.1, q))
          = Ok (zip (edges_of n) vals ++ zip (swap <$> edges_of n) vals))
    as ->.
  { apply forM_Ok_Forall2, Forall2_app; apply forM_Ok_Forall2.
    - rewrite (forM_values id) by lia. by rewrite list_fmap_id.
    - apply forM_values. lia. }
  cbn [mbind result_bind]. f_equal.
  rewrite filter_app, fmap_app. f_equal. apply chosen_fmap.
Qed.

Lemma elem_of_chosen (n : nat) (vals : list Qc) (e : nat * nat) :
  e ∈ chosen n vals ↔
  ∃ k q, edges_of n !! k = Some e ∧ vals !! k = Some q ∧ active q = true.
Proof.
  unfold chosen. rewrite list_elem_of_fmap. split.
  - intros ([e' q] & -> & Hin). apply list_elem_of_filter in Hin as [Hq Hin].
    apply list_elem_of_lookup_1 in Hin as [k Hk].
    rewrite lookup_zip_with in Hk.
    destruct (edges_of n !! k) as [e |] eqn:He; [| done]. simpl in Hk.
    destruct (vals !! k) as [q' |] eqn:Hq'; [| done]. simpl in Hk.
    injection Hk as <- <-. exists k, q'. simpl in Hq.
    split; [done |]. split; [done |]. by apply Is_true_true.
  - intros (k & q & He & Hq & Ha). exists (e, q). split; [done |].
    apply list_elem_of_filter. split; [by apply Is_true_true |].
    apply (list_elem_of_lookup_2 _ k). by rewrite lookup_zip_with, He, Hq.
Qed.

Lemma chosen_edges (n : nat) (vals : list Qc) (a b : nat) :
  (a, b) ∈ chosen n vals → a < b ∧ b < n.
Proof.
  intros Hin. apply elem_of_chosen in Hin as (k & q & He & _).
  by apply list_elem_of_lookup_2, elem_of_edges_of in He.
Qed.

Lemma NoDup_chosen (n : nat) (vals : list Qc) : NoDup (chosen n vals).
Proof.
  apply (sublist_NoDup _ (edges_of n)); [apply NoDup_edges_of |].
  unfold chosen. etrans.
  - apply fmap_sublist, sublist_filter.
  - generalize (edges_of n). intros es. revert vals.
    induction es as [|e es IH]; intros [|q vals]; simpl;
      try apply sublist_nil_l.
    by apply sublist_skip.
Qed.

Section Selected.

Variables (n : nat) (vals : list Qc).

Lemma elem_of_selected (v w : nat) :
  (v, w) ∈ selected_pairs n vals ↔
  (v, w) ∈ chosen n vals ∨ (w, v) ∈ chosen n vals.
Proof using Type.
  unfold selected_pairs. rewrite elem_of_app, list_elem_of_fmap. split.
  - intros [H | ([a b] & [= -> ->] & H)]; [by left | by right].
  - intros [H | H]; [by left |]. right. by exists (w, v).
Qed.

Lemma selected_sym (v w : nat) :
  (v, w) ∈ selected_pairs n vals → (w, v) ∈ selected_pairs n vals.
Proof using Type. rewrite !elem_of_selected. tauto. Qed.

Lemma selected_irrefl (v : nat) : (v, v) ∉ selected_pairs n vals.
Proof using Type.
  rewrite elem_of_selected. intros [H | H]; apply chosen_edges in H; lia.
Qed.

Lemma selected_range (v w : nat) : (v, w) ∈ selected_pairs n vals → v < n.
Proof using Type.
  rewrite elem_of_selected. intros [H | H]; apply chosen_edges in H; lia.
Qed.

Lemma NoDup_selected : NoDup (selected_pairs n vals).
Proof using Type.
  unfold selected_pairs. apply NoDup_app.
  split; [apply NoDup_chosen |]. split.
  - intros [a b] H1 H2.
    apply list_elem_of_fmap in H2 as ([c d] & [= -> ->] & H2).
    apply chosen_edges in H1, H2. lia.
  - apply NoDup_fmap_2; [| apply NoDup_chosen].
    intros [a b] [c d] [= -> ->]. done.
Qed.

Lemma selected_degree (v : nat) :
  length (select (selected_pairs n vals) v) = degree n vals v.
Proof using Type.
  unfold selected_pairs, select, degree. rewrite filter_app, length_app.
  assert (Forall (λ e : nat * nat, e.1 ≠ e.2) (chosen n vals)) as Hne.
  { apply Forall_forall. intros [a b] H. apply chosen_edges in H. simpl. lia. }
  induction Hne as [|[a b] l Hab Hl IH]; [done |].
  simpl in Hab. rewrite fmap_cons, !filter_cons. unfold swap at 1. simpl.
  repeat case_decide; simpl in *; try lia; exfalso; intuition congruence.
Qed.

End Selected.

(* ================================================================== *)
(** * The cut *)
(* ================================================================== *)

Lemma elem_of_combinations2 (a : nat) (l : list nat) (i j : nat) :
  (i, j) ∈ combinations2 (a :: l) ↔
  (i = a ∧ j ∈ l) ∨ (i, j) ∈ combinations2 l.
Proof.
  simpl. rewrite elem_of_app, list_elem_of_fmap. split.
  - intros [(b & [= -> ->] & Hb) | H]; [by left | by right].
  - intros [[-> Hj] | H]; [| by right]. left. by exists j.
Qed.

Lemma combinations2_nodes (l : list nat) (i j : nat) :
  (i, j) ∈ combinations2 l → i ∈ l ∧ j ∈ l.
Proof.
  induction l as [|a l IH]; [by intros H; apply elem_of_nil in H |].
  rewrite elem_of_combinations2, !elem_of_cons.
  intros [[-> Hj] | H]; [by auto |]. destruct (IH H). auto.
Qed.

Lemma combinations2_pairs (l : list nat) :
  NoDup l → pairs_of l (combinations2 l).
Proof.
  induction 1 as [|a l Ha Hl (Hnd & Hin & Hall)].
  { split; [apply NoDup_nil_2 |]. split.
    - intros i j H. by apply elem_of_nil in H.
    - intros i j H. by apply elem_of_nil in H. }
  split; [| split].
  - simpl. apply NoDup_app. split; [| split; [| done]].
    + apply NoDup_fmap_2; [by intros b c [= ->] | done].
    + intros [i j] H1 H2. apply list_elem_of_fmap in H1 as (b & [= -> ->] & Hb).
      by apply combinations2_nodes in H2 as [H2 _].
  - intros i j. rewrite !elem_of_combinations2, !elem_of_cons.
    intros [[-> Hj] | H].
    + split; [by left |]. split; [by right |]. split; [by intros -> |].
      intros [[-> _] | H]; [done |].
      by apply combinations2_nodes in H as [_ H].
    + destruct (Hin i j H) as (Hi & Hj & Hne & Hji).
      split; [by right |]. split; [by right |]. split; [done |].
      intros [[-> _] | H']; [done | done].
  - intros i j. rewrite !elem_of_combinations2, !elem_of_cons.
    intros [-> | Hi] [-> | Hj] Hne; try done.
    + left. by left.
    + right. by left.
    + destruct (Hall i j Hi Hj Hne); [left | right]; by right.
Qed.

Lemma DFJ_x_get (n i j : nat) :
  i < n → j < n → i ≠ j →
  ∃ k, td_get (DFJ_x n) i j = Ok k ∧ edge_var n (i, j) k.
Proof.
  intros Hi Hj Hne.
  destruct (td_get_Ok (DFJ_x n) i j) as (k & Hget & Hin).
  { unfold DFJ_x. rewrite fmap_app, elem_of_app.
    rewrite (imap_keys (λ p, p)).
    destruct (decide (i < j)).
    - left. apply elem_of_edges_of. lia.
    - right.
      assert ((j, i) ∈ edges_of n) as He by (apply elem_of_edges_of; lia).
      apply list_elem_of_lookup_1 in He as [p Hp].
      apply list_elem_of_fmap. exists ((i, j), p). split; [done |].
      apply elem_of_lookup_imap. by exists p, (j, i). }
  exists k. split; [done |]. unfold DFJ_x in Hin.
  apply elem_of_app in Hin as [Hin | Hin];
    apply elem_of_lookup_imap in Hin as (p & [a b] & Heq & Hp);
    injection Heq as -> -> ->.
  - by left.
  - by right.
Qed.

Lemma selected_cycle (n : nat) (cyc : list nat) (vals : list Qc) (v w : nat) :
  2 ≤ n → hamiltonian n cyc vals →
  (v, w) ∈ selected_pairs n vals ↔ cycle_edge cyc v w.
Proof.
  intros Hn Hham. rewrite <- (active_between_cycle n cyc vals Hn Hham).
  rewrite elem_of_selected, !elem_of_chosen. unfold active_between. split.
  - intros [(k & q & He & Hq & Ha) | (k & q & He & Hq & Ha)].
    + exists k, v, w, q. auto.
    + exists k, w, v, q. auto.
  - intros (k & a & b & q & He & Hq & Ha & [[= -> ->] | [= -> ->]]).
    + left. by exists k, q.
    + right. by exists k, q.
Qed.

Lemma cycle_chain (n : nat) (cyc : list nat) (vals : list Qc) :
  2 ≤ n → hamiltonian n cyc vals →
  chain (selected_pairs n vals) cyc.
Proof.
  intros Hn Hham i a b Ha Hb.
  apply (selected_cycle n cyc vals a b Hn Hham). left. exists i.
  split; [done |]. unfold cyc_next.
  apply lookup_lt_Some in Hb as Hlt. by rewrite bool_decide_eq_true_2.
Qed.

(** C3.  For the DFJ model on [n > 0] nodes and a candidate with a
    value per edge in which every node has two edges above the
    threshold 0.01, the callback selects both directions of these
    edges; [subtour] returns, and what it returns is a connected
    component of the selected graph that no component is smaller than;
    the callback adds the constraint [sum of x[i, j] over the pairs of
    nodes of the component <= size of the component - 1] when the
    component has fewer than [n] nodes and nothing otherwise; on a
    candidate that is one cycle through all nodes it adds nothing. *)
Theorem subtourelim_cuts_the_smallest_component
    (n : nat) (o : tspmodel) (vals : list Qc) :
  0 < n →
  tsp_object o → type_self o = tspDFJModel → num_nodes o = n →
  length vals = length (edges_of n) →
  (∀ v, v < n → degree n vals v = 2) →
  ∃ xd selected tour r,
    m_x (_model o) = Some xd ∧
    selected_of xd vals = Ok selected ∧
    (∀ v w, (v, w) ∈ selected ↔
            (v, w) ∈ chosen n vals ∨ (w, v) ∈ chosen n vals) ∧
    subtour selected n = Ok tour ∧
    component selected n tour ∧
    (∀ comp, component selected n comp → length tour ≤ length comp) ∧
    _subtourelim (_model o) vals = Ok r ∧
    (length tour < n → ∃ c, r = Some c ∧ subtour_cut n tour c) ∧
    (¬ length tour < n → r = None) ∧
    (∀ cyc, hamiltonian n cyc vals → r = None).
Proof.
  intros Hn (base & obj & cs & Hinit & ->) Ht Hnum Hlen Hdeg.
  simpl in Hinit, Ht, Hnum. rewrite Ht, Hnum in Hinit.
  destruct (DFJ_fields n base Hinit) as [Hx Hmn]. simpl.
  set (sel := selected_pairs n vals).
  pose proof (selected_sym n vals) as Hsym.
  pose proof (selected_range n vals) as Hrange.
  assert (∀ v, v < n → length (select sel v) = 2) as Hdeg'.
  { intros v Hv. unfold sel. rewrite selected_degree. by apply Hdeg. }
  destruct (subtour_spec sel n Hsym (selected_irrefl n vals)
              (NoDup_selected n vals) Hrange Hdeg' Hn)
    as (tour & Htour & Hcomp & Hmin).
  destruct Hcomp as (Hnd & root & Hroot & Hmem).
  assert (∀ w, w ∈ tour → w < n) as Hnodes.
  { intros w Hw. apply (linked_range sel n Hsym Hrange root); [done |].
    by apply Hmem. }
  (* the terms of the cut *)
  destruct (forM_is_Ok
              (λ ij : nat * nat, k ← td_get (DFJ_x n) ij.1 ij.2;
                                 Ok (E := exn) (Var k))
              (combinations2 tour)) as [ts Hts].
  { intros [i j] Hij.
    destruct (combinations2_pairs tour Hnd) as (_ & Hin & _).
    destruct (Hin i j Hij) as (Hi & Hj & Hne & _).
    destruct (DFJ_x_get n i j) as (k & Hk & _); auto.
    simpl. rewrite Hk. by eexists. }
  set (r := if bool_decide (length tour < n)
            then Some (Constr (quicksum ts) LESS_EQUAL
                         (Const (Qc_of_Z (Z.of_nat (length tour) - 1))))
            else None).
  exists (DFJ_x n), sel, tour, r.
  split; [done |].
  split; [by apply selected_of_DFJ |].
  split; [apply elem_of_selected |].
  split; [done |].
  split; [split; [done |]; by exists root |].
  split; [done |].
  split.
  { unfold _subtourelim. simpl. rewrite Hx, Hmn.
    rewrite selected_of_DFJ by done. cbn [mbind result_bind].
    fold sel. rewrite Htour. cbn [mbind result_bind]. unfold r.
    case_bool_decide; [| done]. by rewrite Hts. }
  split.
  { intros Hlt. unfold r. rewrite bool_decide_eq_true_2 by done.
    eexists. split; [done |].
    exists (combinations2 tour), ts.
    split; [by apply combinations2_pairs |]. split; [| done].
    apply forM_Ok_Forall2 in Hts.
    eapply Forall2_impl; [exact Hts |].
    intros [i j] t Hij. simpl in Hij.
    destruct (td_get (DFJ_x n) i j) as [k | |] eqn:Hget; [| done ..].
    simpl in Hij. injection Hij as <-. exists k. split; [| done].
    apply td_get_inv in Hget. unfold DFJ_x in Hget.
    apply elem_of_app in Hget as [Hget | Hget];
      apply elem_of_lookup_imap in Hget as (p & [a b] & Heq & Hp);
      injection Heq as -> -> ->; [by left | by right]. }
  split.
  { intros Hge. unfold r. by rewrite bool_decide_eq_false_2. }
  intros cyc Hham. unfold r. rewrite bool_decide_eq_false_2; [done |].
  (* node 0 has two neighbours: there are three nodes *)
  assert (2 ≤ n) as Hn2.
  { destruct (two_neighbours sel n (NoDup_selected n vals) Hdeg' 0 Hn)
      as (a & b & _ & Hab & Hnb).
    assert ((0, a) ∈ sel) as Ha by (apply Hnb; by left).
    pose proof (selected_irrefl n vals 0) as Hirr.
    pose proof (Hrange a 0 (Hsym 0 a Ha)).
    destruct a; [done | lia]. }
  pose proof (ham_nodes _ _ _ Hham) as Hcyc.
  assert (length (seq 0 n) ≤ length tour) as Hle.
  { apply submseteq_length, NoDup_submseteq; [apply NoDup_seq |].
    intros w Hw. apply Hmem.
    apply (chain_linked sel Hsym cyc).
    - by apply cycle_chain.
    - rewrite Hcyc. apply elem_of_seq. lia.
    - by rewrite Hcyc. }
  rewrite length_seq in Hle. lia.
Qed.

Lemma consistent_by_check (n d : nat) (b : batch) :
  batch_shape n d b →
  check_sol (seq 0 n) (true_cost b) (true_sol b) (true_obj b) = Ok () →
  consistent b.
Proof.
  intros Hb Hcheck i Hv.
  destruct (check_sol_spec n d b Hb (seq 0 n)) as [[Hr _] | [_ Hall]].
  - apply Forall_forall. intros j Hj. apply elem_of_seq in Hj. lia.
  - congruence.
  - apply (Hall i); [| done]. apply elem_of_seq.
    pose proof (violates_lt n d b i Hb Hv). lia.
Qed.



(** C6.  On the four-node DFJ model with the constraint added that
    forbids edge (0, 1), and a batch of one example that passes the
    consistency check, [forward] with one worker returns the loss 0 and
    the surrogate tour 0-2-1-3-0, and [forward] with two workers returns
    the loss 8 and the surrogate tour 0-1-2-3-0: the model that the pool
    rebuilds from the class and the node count has lost the added
    constraint. *)
Theorem forward_pool_drops_added_constraints :
  let single := forward (optModel0 := tsp_optModel exhaustive)
                  MINIMIZE DFJ4_without_01 1 batch4 in
  let multi := forward (optModel0 := tsp_optModel exhaustive)
                 MINIMIZE DFJ4_without_01 2 batch4 in
  single.1.1 = Ok ([0%Qc], Saved [tour_0213] [tour_0213]) ∧
  multi.1.1 = Ok ([Qc_of_Z 8], Saved [tour_0213] [tour_0123]).
Proof.
  cbv zeta. split.
  - vm_compute. reflexivity.
  - vm_compute. reflexivity.
Qed.


Lemma forward_raises_witness :
  let run := forward (optModel0 := tsp_optModel exhaustive)
               MINIMIZE DFJ4 1 batch4_off in
  batch_shape 1 6 batch4_off ∧
  (run.1.1 = Raise AssertionError ↔ ∃ i, violates batch4_off i) ∧
  ((∃ i, violates batch4_off i) → run = (Raise AssertionError, DFJ4, [])).
Proof.
  cbv zeta.
  split; [repeat split; repeat constructor |].
  apply (forward_raises_iff_inconsistent
           (optModel0 := tsp_optModel exhaustive) 1 6 batch4_off MINIMIZE
           DFJ4 1).
  repeat split; repeat constructor.
Defined.

(** C4, the claim without rounding fails.  For the true cost
    [0, 32967, 0, 0, 0, 0], the true solution [0, 1, 1, 1, 1, 0] and the
    true objective 33000, [forward] raises the error of the check,
    although no example has
    [|true_obj - dot| / (|true_obj| + 1e-3) >= 1e-3] over the rationals:
    in float32 the sum [33000 + 1e-3] is 33000, and the quotient
    [33 / 33000] is the float32 of [1e-3]. *)
Lemma forward_raises_below_the_exact_tolerance :
  (forward (optModel0 := tsp_optModel exhaustive)
     MINIMIZE DFJ4 1 batch_33000).1.1 = Raise AssertionError ∧
  ¬ ∃ i, violates_exactly batch_33000 i.
Proof.
  split; [vm_compute; reflexivity |].
  intros (i & z & c & w & Hz & Hc & Hw & Hv).
  destruct i as [|i]; [| discriminate Hz].
  injection Hz as <-. injection Hc as <-. injection Hw as <-.
  revert Hv. apply Qclt_not_le. apply (bool_decide_unpack _).
  vm_compute. reflexivity.
Qed.

(** C7, the claim fails.  On the four-node DFJ model and a batch of one
    example, [forward] returns the loss 8 and saves the surrogate tour
    0-1-2-3-0; on the same model with the sense changed to maximize, it
    returns the loss 0, which is not -8, and saves the surrogate tour
    0-2-1-3-0; the gradient that [backward] then returns for maximize
    is zero, which is not the negated gradient for minimize. *)
Lemma sense_flip_changes_the_surrogate_solution :
  let w := [tour_0213] in
  (forward (optModel0 := tsp_optModel exhaustive)
     MINIMIZE DFJ4 1 batch4_apart).1.1
  = Ok ([Qc_of_Z 8], Saved w [tour_0123]) ∧
  (forward (optModel0 := tsp_optModel exhaustive)
     MAXIMIZE DFJ4_maximize 1 batch4_apart).1.1
  = Ok ([0%Qc], Saved w [tour_0213]) ∧
  [0%Qc] ≠ Qcopp <$> [Qc_of_Z 8] ∧
  backward MINIMIZE (Saved w [tour_0123]) [1%Qc]
  = ([Qc_of_Z <$> [-2; 2; 0; 0; 2; -2]%Z], None, None, None) ∧
  backward MAXIMIZE (Saved w [tour_0213]) [1%Qc]
  = ([Qc_of_Z <$> [0; 0; 0; 0; 0; 0]%Z], None, None, None) ∧
  backward MAXIMIZE (Saved w [tour_0213]) [1%Qc]
  ≠ (fmap (M:=list) Qcopp <$>
       (backward MINIMIZE (Saved w [tour_0123]) [1%Qc]).1.1.1,
     None, None, None).
Proof.
  cbv zeta.
  split; [vm_compute; reflexivity |].
  split; [vm_compute; reflexivity |].
  split; [intros H; vm_compute in H; discriminate H |].
  split; [vm_compute; reflexivity |].
  split; [vm_compute; reflexivity |].
  intros H; vm_compute in H; discriminate H.
Qed.

Lemma sense_flip_witness :
  batch_shape 1 3 batch3 ∧
  (forward (optModel0 := tsp_optModel exhaustive)
     MINIMIZE DFJ3 1 batch3).1.1
  = Ok ([Qc_of_Z (-1)], Saved [[1; 1; 1]%Qc] [[1; 1; 1]%Qc]) ∧
  (forward (optModel0 := tsp_optModel exhaustive)
     MAXIMIZE DFJ3_maximize 1 batch3).1.1
  = Ok ([1%Qc], Saved [[1; 1; 1]%Qc] [[1; 1; 1]%Qc]) ∧
  ∃ outs outs',
    surrogate_answers (optModel0 := tsp_optModel exhaustive)
      DFJ3 1 (surrogates batch3) outs ∧
    surrogate_answers (optModel0 := tsp_optModel exhaustive)
      DFJ3_maximize 1 (surrogates batch3) outs' ∧
    Saved [[1; 1; 1]%Qc] [[1; 1; 1]%Qc] = Saved (true_sol batch3) outs.*1 ∧
    Saved [[1; 1; 1]%Qc] [[1; 1; 1]%Qc] = Saved (true_sol batch3) outs'.*1 ∧
    ([1%Qc] = Qcopp <$> [Qc_of_Z (-1)] ↔ outs'.*2 = outs.*2) ∧
    (outs'.*1 = outs.*1 →
     backward MAXIMIZE (Saved [[1; 1; 1]%Qc] [[1; 1; 1]%Qc]) [1%Qc]
     = (fmap (M:=list) Qcopp <$>
          (backward MINIMIZE (Saved [[1; 1; 1]%Qc] [[1; 1; 1]%Qc])
             [1%Qc]).1.1.1,
        None, None, None)).
Proof.
  split; [repeat split; repeat constructor |].
  split; [vm_compute; reflexivity |].
  split; [vm_compute; reflexivity |].
  apply (sense_flip_negates_iff_the_surrogates_agree
           (optModel0 := tsp_optModel exhaustive) 1 3 batch3
           DFJ3 DFJ3_maximize 1).
  - repeat split; repeat constructor.
  - vm_compute. reflexivity.
  - vm_compute. reflexivity.
Defined.

Lemma addConstr_witness :
  ∃ l1 l2 base e1 e2,
    let σ := {[0 := DFJ4]} : store in
    let c1 := [1; 0; 0; 0; 0; 0]%Qc in
    let c2 := [0; 1; 0; 0; 0; 0]%Qc in
    let o1 := with_constr base e1 0%Qc in
    let o2 := with_constr base e2 1%Qc in
    let σ1 := <[l1 := o1]> σ in
    let σ2 := <[l2 := o2]> σ1 in
    tsp_init (type_self DFJ4) (num_nodes DFJ4) = Ok base ∧
    edge_terms (type_self DFJ4) c1 base = Ok e1 ∧
    edge_terms (type_self DFJ4) c2 base = Ok e2 ∧
    addConstr 0 c1 0%Qc σ = Ok (l1, σ1) ∧
    addConstr l1 c2 1%Qc σ1 = Ok (l2, σ2) ∧
    (l1 ∉ dom σ) ∧ (l2 ∉ dom σ1) ∧
    σ1 !! 0 = Some DFJ4 ∧ σ2 !! 0 = Some DFJ4 ∧ σ2 !! l1 = Some o1 ∧
    Constrs (_model o1)
    = Constrs (_model base) ++ [Constr e1 LESS_EQUAL (Const 0%Qc)] ∧
    Constrs (_model o2)
    = Constrs (_model base) ++ [Constr e2 LESS_EQUAL (Const 1%Qc)] ∧
    Objective (_model o1) = Const 0%Qc ∧
    Objective (_model o2) = Const 0%Qc.
Proof.
  apply (addConstr_keeps_only_the_new_constraint
           {[0 := DFJ4]} 0 DFJ4 [1; 0; 0; 0; 0; 0]%Qc [0; 1; 0; 0; 0; 0]%Qc
           0%Qc 1%Qc).
  - reflexivity.
  - apply (tsp_object_init tspDFJModel 4). vm_compute. reflexivity.
  - reflexivity.
  - reflexivity.
Defined.

Lemma getTour_witness :
  ∃ mid,
    getTour 3 DFJ4 tour_0213 = Ok (0 :: mid ++ [0]) ∧
    mid ≡ₚ seq 1 (4 - 1).
Proof.
  apply (getTour_follows_the_hamiltonian_cycle 4 3 DFJ4 tour_0213
           [2; 1; 3; 0]).
  - lia.
  - apply (tsp_object_init tspDFJModel 4). vm_compute. reflexivity.
  - reflexivity.
  - vm_compute. intros [H | H]; discriminate H.
  - apply hamiltonian_b_true. vm_compute. reflexivity.
  - lia.
Defined.

(** On the two triangles the callback cuts the first of them; on a
    tour it adds nothing. *)
Example subtourelim_two_triangles :
  _subtourelim (_model DFJ6) two_triangles
  = Ok (Some (Constr (quicksum [Var 0; Var 1; Var 5]) LESS_EQUAL
                (Const 2%Qc))) ∧
  _subtourelim (_model DFJ4) tour_0213 = Ok None.
Proof. split; vm_compute; reflexivity. Qed.

Lemma subtourelim_witness :
  ∃ xd selected tour r,
    m_x (_model DFJ6) = Some xd ∧
    selected_of xd two_triangles = Ok selected ∧
    (∀ v w, (v, w) ∈ selected ↔
            (v, w) ∈ chosen 6 two_triangles ∨
            (w, v) ∈ chosen 6 two_triangles) ∧
    subtour selected 6 = Ok tour ∧
    component selected 6 tour ∧
    (∀ comp, component selected 6 comp → length tour ≤ length comp) ∧
    _subtourelim (_model DFJ6) two_triangles = Ok r ∧
    (length tour < 6 → ∃ c, r = Some c ∧ subtour_cut 6 tour c) ∧
    (¬ length tour < 6 → r = None) ∧
    (∀ cyc, hamiltonian 6 cyc two_triangles → r = None).
Proof.
  apply (subtourelim_cuts_the_smallest_component 6 DFJ6 two_triangles).
  - lia.
  - apply (tsp_object_init tspDFJModel 6). vm_compute. reflexivity.
  - reflexivity.
  - reflexivity.
  - reflexivity.
  - intros v Hv.
    do 6 (destruct v as [|v]; [vm_compute; reflexivity |]). lia.
Defined.

(* ================================================================== *)
(** * Edges and cost vectors *)
(* ================================================================== *)

Lemma edges_row_length (n i : nat) :
  length (j ← seq 0 n; if bool_decide (i < j) then [(i, j)] else [])
  = n - S i.
Proof.
  induction n as [|n IH]; [done |].
  rewrite seq_S, bind_app, length_app, IH. simpl.
  case_bool_decide; simpl; lia.
Qed.

Lemma edges_rows_length (n m : nat) :
  m ≤ n →
  2 * length (i ← seq 0 m;
              j ← seq 0 n; if bool_decide (i < j) then [(i, j)] else [])
  = m * (2 * n - m - 1).
Proof.
  induction m as [|m IH]; intros Hm; [done |].
  rewrite seq_S, bind_app, length_app. simpl.
  rewrite app_nil_r, edges_row_length.
  specialize (IH ltac:(lia)). nia.
Qed.

Lemma edges_of_length (n : nat) : 2 * length (edges_of n) = n * (n - 1).
Proof.
  unfold edges_of. rewrite edges_rows_length by lia.
  destruct n; [done |]. f_equal. lia.
Qed.

(** X1.  For every class and node count [n], the constructor returns,
    and [edges] of the model lists every pair [i < j < n] once and
    nothing else: [num_cost] is [n * (n - 1) / 2]. *)
Theorem edges_list_each_pair_once (t : model_type) (n : nat) :
  ∃ o,
    tsp_init t n = Ok o ∧
    NoDup (edges o) ∧
    (∀ i j, (i, j) ∈ edges o ↔ i < j ∧ j < n) ∧
    2 * num_cost o = n * (n - 1).
Proof.
  destruct (tsp_init_returns t n) as (o & Ho & Hc).
  exists o. split; [done |]. unfold num_cost.
  rewrite (c_edges _ _ _ Hc).
  split; [apply NoDup_edges_of |].
  split; [intros i j; apply elem_of_edges_of | apply edges_of_length].
Qed.

(* ================================================================== *)
(** * The variables of the models *)
(* ================================================================== *)

Lemma length_directed_edges (es : list (nat * nat)) :
  length (directed_edges_of es) = 2 * length es.
Proof. unfold directed_edges_of. rewrite length_app, length_fmap. lia. Qed.

Lemma tsp_init_x (t : model_type) (n : nat) (o : tspmodel) :
  tsp_init t n = Ok o →
  x o = x_of t n ∧ length (Vars (_model o)) = num_vars t n.
Proof.
  unfold tsp_init. destruct t; cbn [_getModel x_of num_vars].
  - unfold tspGGModel_getModel, addVars. cbv beta iota zeta.
    destruct (GG_constraints _ _ _) as [cs | |]; [| done ..].
    cbn [mbind result_bind]. intros [= <-]. simpl.
    split; [done |].
    rewrite length_app, !length_fmap, length_directed_edges. lia.
  - unfold tspGGModelRel_getModel, addVars. cbv beta iota zeta.
    destruct (GG_constraints _ _ _) as [cs | |]; [| done ..].
    cbn [mbind result_bind]. intros [= <-]. simpl.
    split; [done |].
    rewrite length_app, !length_fmap, length_directed_edges. lia.
  - intros H. destruct (DFJ_fields n o H) as [Hx _].
    unfold tspDFJModel_getModel, addVars in H. cbv beta iota zeta in H.
    destruct (mirror_keys _ _) as [xd | |] eqn:Hm; [| done ..].
    cbn [mbind result_bind] in H. injection H as <-. simpl in *.
    split; [congruence |]. by rewrite length_fmap.
  - unfold tspMTZModel_getModel, addVars at 1. cbv beta iota zeta.
    destruct (mirror_keys _ _) as [xd0 | |]; [| done ..].
    cbn [mbind result_bind]. unfold addVars, addVars1. cbv beta iota zeta.
    destruct (MTZ_constraints _ _ _ _) as [cs | |]; [| done ..].
    cbn [mbind result_bind]. intros [= <-]. simpl.
    rewrite !length_app, !length_fmap, length_directed_edges, !length_seq.
    split; [| lia]. done.
  - unfold tspMTZModelRel_getModel, addVars at 1. cbv beta iota zeta.
    destruct (mirror_keys _ _) as [xd0 | |]; [| done ..].
    cbn [mbind result_bind]. unfold addVars, addVars1. cbv beta iota zeta.
    destruct (MTZ_constraints _ _ _ _) as [cs | |]; [| done ..].
    cbn [mbind result_bind]. intros [= <-]. simpl.
    rewrite !length_app, !length_fmap, length_directed_edges, !length_seq.
    split; [| lia]. done.
Qed.

(* ================================================================== *)
(** * [setObj] *)
(* ================================================================== *)

Lemma tsp_object_base (o : tspmodel) :
  tsp_object o →
  ∃ base,
    tsp_init (type_self o) (num_nodes o) = Ok base ∧
    x o = x base ∧ edges o = edges base ∧
    Vars (_model o) = Vars (_model base) ∧
    m_x (_model o) = m_x (_model base) ∧
    m_n (_model o) = m_n (_model base).
Proof.
  intros (base & obj & cs & Hinit & ->). simpl in *. by exists base.
Qed.

Lemma tsp_object_terms (o : tspmodel) (c : list Qc) :
  tsp_object o → length c = num_cost o →
  ∃ e, edge_terms (type_self o) c o = Ok e.
Proof.
  intros Hobj Hlen.
  destruct (tsp_object_base o Hobj) as (base & Hbase & Hx & He & _).
  pose proof (tsp_init_fields _ _ _ Hbase) as Hc.
  destruct (edge_terms_Ok _ _ base c Hc) as [e Hterms].
  { unfold num_cost in *. by rewrite <- He. }
  exists e. rewrite <- Hterms. unfold edge_terms. by rewrite Hx, He.
Qed.

Lemma setObj_object (o : tspmodel) (e : linexpr) :
  tsp_object o → tsp_object (set_model o (setObjective (_model o) e)).
Proof.
  intros (base & obj & cs & Hinit & ->). simpl in *.
  exists base, e, cs. simpl. done.
Qed.

(** X2.  On a model object, [setObj(c)] raises [ValueError] when
    [len(c)] is not [num_cost]; otherwise it returns, and the model
    differs from the one before in its objective only, which is the sum
    that the class writes over the edge variables: variables,
    constraints and the attributes of the object stay. *)
Theorem setObj_checks_the_size_and_sets_the_objective
    (o : tspmodel) (c : list Qc) :
  tsp_object o →
  (length c ≠ num_cost o →
   setObj o c = Raise (ValueError "Size of cost vector cannot match vars.")) ∧
  (length c = num_cost o →
   ∃ e,
     edge_terms (type_self o) c o = Ok e ∧
     setObj o c = Ok (set_model o (setObjective (_model o) e)) ∧
     tsp_object (set_model o (setObjective (_model o) e))).
Proof.
  intros Hobj. split.
  - intros Hne. unfold setObj, tspGGModel_setObj, tspDFJModel_setObj.
    rewrite bool_decide_eq_true_2 by done. by destruct (type_self o).
  - intros Hlen. destruct (tsp_object_terms o c Hobj Hlen) as [e He].
    exists e. split; [done |]. split; [| by apply setObj_object].
    unfold setObj, tspGGModel_setObj, tspDFJModel_setObj.
    rewrite bool_decide_eq_false_2 by (by intros H; apply H).
    unfold edge_terms in He. destruct (type_self o); by rewrite He.
Qed.

(** X3.  The objective set last is the one that counts: after a
    [setObj(c1)] that returned, [setObj(c2)] gives the model that
    [setObj(c2)] gives without it. *)
Theorem setObj_last_objective_wins (o o1 : tspmodel) (c1 c2 : list Qc) :
  setObj o c1 = Ok o1 → setObj o1 c2 = setObj o c2.
Proof.
  unfold setObj, tspGGModel_setObj, tspDFJModel_setObj.
  destruct (type_self o) eqn:Ht;
    (case_bool_decide; [done |]);
    [destruct (sym_terms c1 _ _) as [e1 | |]
    |destruct (sym_terms c1 _ _) as [e1 | |]
    |destruct (dfj_terms c1 _ _) as [e1 | |]
    |destruct (sym_terms c1 _ _) as [e1 | |]
    |destruct (sym_terms c1 _ _) as [e1 | |]]; try done;
    cbn [mbind result_bind]; intros [= <-]; simpl; rewrite Ht; done.
Qed.

(* ================================================================== *)
(** * The objective and the solution vector *)
(* ================================================================== *)

Lemma NoDup_directed_edges (n : nat) :
  NoDup (directed_edges_of (edges_of n)).
Proof.
  unfold directed_edges_of. apply NoDup_app.
  split; [apply NoDup_edges_of |]. split.
  - intros [a b] H1 H2.
    apply list_elem_of_fmap in H2 as ([c d] & [= -> ->] & H2).
    apply elem_of_edges_of in H1, H2. lia.
  - apply NoDup_fmap_2; [| apply NoDup_edges_of].
    intros [a b] [c d] [= -> ->]. done.
Qed.

Lemma directed_edges_lookup (n k i j : nat) :
  edges_of n !! k = Some (i, j) →
  directed_edges_of (edges_of n) !! k = Some (i, j) ∧
  directed_edges_of (edges_of n) !! (length (edges_of n) + k) = Some (j, i).
Proof.
  intros Hk. unfold directed_edges_of. split.
  - by apply lookup_app_l_Some.
  - rewrite lookup_app_r by lia.
    replace (length (edges_of n) + k - length (edges_of n)) with k by lia.
    by rewrite list_lookup_fmap, Hk.
Qed.

Lemma td_get_imap (ks : list (nat * nat)) (g : nat → nat) (p i j : nat) :
  NoDup ks → ks !! p = Some (i, j) →
  td_get (imap (λ p k, (k, g p)) ks) i j = Ok (g p).
Proof.
  intros Hnd Hp.
  destruct (td_get_Ok (imap (λ p k, (k, g p)) ks) i j) as (v & -> & Hin).
  { rewrite imap_keys. by eapply list_elem_of_lookup_2. }
  apply elem_of_lookup_imap in Hin as (q & k & [= <- ->] & Hq).
  by rewrite (NoDup_lookup ks q p (i, j) Hnd Hq Hp).
Qed.

(** Where the variables [x] of the classes with directed edges start. *)
Lemma x_of_directed (t : model_type) (n : nat) :
  t ≠ tspDFJModel →
  ∃ b, x_of t n = imap (λ p k, (k, b + p)) (directed_edges_of (edges_of n)) ∧
       b + 2 * length (edges_of n) ≤ num_vars t n.
Proof.
  intros Ht. destruct t; try done.
  - exists 0. split; [done |]. simpl. lia.
  - exists 0. split; [done |]. simpl. lia.
  - exists (length (edges_of n) + n). split; [done |]. simpl. lia.
  - exists (length (edges_of n) + n). split; [done |]. simpl. lia.
Qed.

Lemma DFJ_x_edge (n k i j : nat) :
  edges_of n !! k = Some (i, j) →
  td_get (DFJ_x n) i j = Ok k ∧ td_get (DFJ_x n) j i = Ok k.
Proof.
  intros Hk.
  assert ((i, j) ∈ edges_of n) as Hin by (by eapply list_elem_of_lookup_2).
  apply elem_of_edges_of in Hin.
  assert (∀ a b v, td_get (DFJ_x n) a b = Ok v →
            edge_var n (a, b) v) as Hvar.
  { intros a b v Hget. apply td_get_inv in Hget. unfold DFJ_x in Hget.
    apply elem_of_app in Hget as [Hget | Hget];
      apply elem_of_lookup_imap in Hget as (p & [a' b'] & Heq & Hp);
      injection Heq as -> -> ->; [by left | by right]. }
  assert (∀ v, edge_var n (i, j) v ∨ edge_var n (j, i) v → v = k) as Huniq.
  { intros v [[Hv | Hv] | [Hv | Hv]]; unfold swap in Hv; simpl in Hv.
    - by apply (NoDup_lookup _ _ _ _ (NoDup_edges_of n) Hv Hk).
    - apply list_elem_of_lookup_2, elem_of_edges_of in Hv. lia.
    - apply list_elem_of_lookup_2, elem_of_edges_of in Hv. lia.
    - by apply (NoDup_lookup _ _ _ _ (NoDup_edges_of n) Hv Hk). }
  destruct (DFJ_x_get n i j) as (v1 & H1 & Hv1); [lia .. |].
  destruct (DFJ_x_get n j i) as (v2 & H2 & Hv2); [lia .. |].
  rewrite H1, H2. split; f_equal; apply Huniq; auto.
Qed.

Lemma var_x_Ok (vals : list Qc) (v : nat) :
  v < length vals → var_x vals v = Ok (default 0%Qc (vals !! v)).
Proof.
  intros Hv. unfold var_x.
  destruct (lookup_lt_is_Some_2 vals v Hv) as [q ->]. done.
Qed.

Lemma eval_quicksum_cons (vals : list Qc) (a : linexpr) (l : list linexpr) :
  eval vals (quicksum (a :: l))
  = (eval vals a + eval vals (quicksum l))%Qc.
Proof. done. Qed.

Lemma dot_cons (a b : Qc) (l k : list Qc) :
  dot (a :: l) (b :: k) = (a * b + dot l k)%Qc.
Proof. done. Qed.

Lemma eval_terms_dot (vals : list Qc) (f : nat → linexpr) (c : list Qc)
    (ks : list nat) :
  eval vals (quicksum (zip_with (λ ck k, Mul ck (f k)) c ks))
  = dot c ((λ k, eval vals (f k)) <$> ks).
Proof.
  revert ks. induction c as [|ck c IH]; intros [|k ks]; try done.
  cbn [zip_with fmap list_fmap]. rewrite eval_quicksum_cons, dot_cons, IH.
  done.
Qed.

Lemma sym_terms_directed (n b : nat) (c : list Qc) :
  length c = length (edges_of n) →
  sym_terms c (edges_of n)
    (imap (λ p k, (k, b + p)) (directed_edges_of (edges_of n)))
  = Ok (quicksum (zip_with
          (λ ck k, Mul ck (Add (Var (b + k))
                               (Var (b + (length (edges_of n) + k)))))
          c (seq 0 (length (edges_of n))))).
Proof.
  intros Hlen. unfold sym_terms.
  set (xd := imap (λ p k, (k, b + p)) (directed_edges_of (edges_of n))).
  set (E := length (edges_of n)) in *.
  assert (forM (enumerate (edges_of n))
            (λ ke : nat * (nat * nat),
               ck ← getitem c ke.1;
               xij ← td_get xd ke.2.1 ke.2.2;
               xji ← td_get xd ke.2.2 ke.2.1;
               Ok (E := exn) (Mul ck (Add (Var xij) (Var xji))))
          = Ok (zip_with
                  (λ ck k, Mul ck (Add (Var (b + k)) (Var (b + (E + k)))))
                  c (seq 0 E))) as ->; [| done].
  apply forM_Ok_Forall2, Forall2_same_length_lookup_2.
  - unfold enumerate. rewrite length_imap, length_zip_with, length_seq.
    unfold E in *. lia.
  - intros k [k' [i j]] t Hk Ht. unfold enumerate in Hk.
    rewrite list_lookup_imap in Hk.
    destruct (edges_of n !! k) as [e |] eqn:He; [| done].
    simpl in Hk. injection Hk as <- ->.
    rewrite lookup_zip_with in Ht.
    destruct (c !! k) as [ck |] eqn:Hc; [| done]. simpl in Ht.
    rewrite lookup_seq_lt in Ht
      by (apply lookup_lt_Some in He; unfold E; lia).
    simpl in Ht. injection Ht as <-. simpl.
    destruct (directed_edges_lookup n k i j He) as [H1 H2].
    unfold getitem. rewrite Hc. cbn [mbind result_bind].
    unfold xd.
    rewrite (td_get_imap _ (λ p, b + p) k i j (NoDup_directed_edges n) H1).
    cbn [mbind result_bind].
    rewrite (td_get_imap _ (λ p, b + p) _ j i (NoDup_directed_edges n) H2).
    done.
Qed.

Lemma relaxed_values_directed (n b : nat) (vals : list Qc) :
  b + 2 * length (edges_of n) ≤ length vals →
  forM (edges_of n)
    (λ e : nat * nat,
       xij ← td_get (imap (λ p k, (k, b + p))
                       (directed_edges_of (edges_of n))) e.1 e.2;
       a ← var_x vals xij;
       xji ← td_get (imap (λ p k, (k, b + p))
                       (directed_edges_of (edges_of n))) e.2 e.1;
       c ← var_x vals xji;
       Ok (E := exn) (a + c)%Qc)
  = Ok ((λ k, eval vals (Add (Var (b + k))
                             (Var (b + (length (edges_of n) + k)))))
          <$> seq 0 (length (edges_of n))).
Proof.
  intros Hlen. apply forM_Ok_Forall2, Forall2_same_length_lookup_2.
  - rewrite length_fmap, length_seq. done.
  - intros k [i j] q He Hq. rewrite list_lookup_fmap in Hq.
    assert (k < length (edges_of n)) as Hk
      by (apply lookup_lt_Some in He; done).
    rewrite lookup_seq_lt in Hq by done. simpl in Hq. injection Hq as <-.
    destruct (directed_edges_lookup n k i j He) as [H1 H2]. simpl.
    rewrite (td_get_imap _ (λ p, b + p) k i j (NoDup_directed_edges n) H1).
    cbn [mbind result_bind]. rewrite var_x_Ok by lia.
    cbn [mbind result_bind].
    rewrite (td_get_imap _ (λ p, b + p) _ j i (NoDup_directed_edges n) H2).
    cbn [mbind result_bind]. rewrite var_x_Ok by lia.
    done.
Qed.

Lemma tsp_object_x (o : tspmodel) :
  tsp_object o →
  x o = x_of (type_self o) (num_nodes o) ∧
  edges o = edges_of (num_nodes o) ∧
  length (Vars (_model o)) = num_vars (type_self o) (num_nodes o).
Proof.
  intros Hobj. pose proof (tsp_object_edges o Hobj) as He.
  destruct (tsp_object_base o Hobj) as (base & Hbase & Hx & _ & Hv & _).
  destruct (tsp_init_x _ _ _ Hbase) as [Hxb Hvb].
  rewrite Hx, Hv. done.
Qed.

(** X4.  On a relaxation (GG or MTZ) whose objective was set to the
    cost vector [c], when the solver has values for all variables,
    [solve] returns a vector with one entry per edge, the value of the
    edge in both directions added up, together with the solver's
    objective value; and the objective of the model at the solver's
    values is [dot(c, sol)]. *)
Theorem relaxed_solve_prices_the_objective
    (optimize :
       grbmodel → option (grbmodel → list Qc → result exn (option constr)) →
       option (list Qc * Qc))
    (o o' : tspmodel) (c vals : list Qc) (objVal : Qc) :
  tsp_object o → is_relaxation (type_self o) →
  setObj o c = Ok o' →
  optimize (_model o') None = Some (vals, objVal) →
  length (Vars (_model o')) ≤ length vals →
  ∃ sol,
    solve optimize o' = Ok (sol, objVal) ∧
    length sol = num_cost o ∧
    eval vals (Objective (_model o')) = dot c sol.
Proof.
  intros Hobj Hrel Hset Hopt Hvals.
  destruct (tsp_object_x o Hobj) as (Hx & He & Hv).
  destruct (x_of_directed (type_self o) (num_nodes o)) as (b & Hb & Hbv).
  { destruct Hrel as [-> | ->]; done. }
  rewrite Hb in Hx.
  assert (setObj o c = tspGGModel_setObj o c) as Hgg.
  { unfold setObj. destruct Hrel as [-> | ->]; done. }
  rewrite Hgg in Hset. unfold tspGGModel_setObj in Hset.
  case_bool_decide as Hlen; [done |].
  unfold num_cost in Hlen.
  rewrite Hx, He in Hset.
  rewrite sym_terms_directed in Hset by (by rewrite <- He).
  cbn [mbind result_bind] in Hset. injection Hset as <-.
  simpl in Hopt, Hvals. rewrite Hv in Hvals.
  eexists. split; [| split].
  - assert (∀ m, solve optimize (set_model o m)
                 = tspGGModelRel_solve optimize (set_model o m)) as ->.
    { intros m. unfold solve. simpl. destruct Hrel as [-> | ->]; done. }
    unfold tspGGModelRel_solve. simpl. rewrite Hopt, Hx, He.
    rewrite relaxed_values_directed by lia. done.
  - rewrite length_fmap, length_seq. unfold num_cost. by rewrite He.
  - simpl. apply eval_terms_dot.
Qed.

(* ================================================================== *)
(** * [solve] on the integer models *)
(* ================================================================== *)

Lemma integer_values_directed (n b : nat) (vals : list Qc) :
  b + 2 * length (edges_of n) ≤ length vals →
  forM (edges_of n)
    (λ e : nat * nat,
       xij ← td_get (imap (λ p k, (k, b + p))
                       (directed_edges_of (edges_of n))) e.1 e.2;
       a ← var_x vals xij;
       if active a then Ok (E := exn) 1%Qc
       else
         xji ← td_get (imap (λ p k, (k, b + p))
                         (directed_edges_of (edges_of n))) e.2 e.1;
         c ← var_x vals xji;
         if active c then Ok 1%Qc else Ok 0%Qc)
  = Ok ((λ k, if active (default 0%Qc (vals !! (b + k))) then 1%Qc
              else if active (default 0%Qc
                                (vals !! (b + (length (edges_of n) + k))))
                   then 1%Qc else 0%Qc)
          <$> seq 0 (length (edges_of n))).
Proof.
  intros Hlen. apply forM_Ok_Forall2, Forall2_same_length_lookup_2.
  - rewrite length_fmap, length_seq. done.
  - intros k [i j] q He Hq. rewrite list_lookup_fmap in Hq.
    assert (k < length (edges_of n)) as Hk
      by (apply lookup_lt_Some in He; done).
    rewrite lookup_seq_lt in Hq by done. simpl in Hq. injection Hq as <-.
    destruct (directed_edges_lookup n k i j He) as [H1 H2]. simpl.
    rewrite (td_get_imap _ (λ p, b + p) k i j (NoDup_directed_edges n) H1).
    cbn [mbind result_bind]. rewrite var_x_Ok by lia.
    cbn [mbind result_bind].
    destruct (active (default 0%Qc (vals !! (b + k)))); [done |].
    rewrite (td_get_imap _ (λ p, b + p) _ j i (NoDup_directed_edges n) H2).
    cbn [mbind result_bind]. rewrite var_x_Ok by lia.
    cbn [mbind result_bind].
    by destruct (active _).
Qed.

Lemma integer_values_DFJ (n : nat) (vals : list Qc) :
  length (edges_of n) ≤ length vals →
  forM (edges_of n)
    (λ e : nat * nat,
       xe ← td_get (DFJ_x n) e.1 e.2;
       a ← var_x vals xe;
       if active a then Ok (E := exn) 1%Qc else Ok 0%Qc)
  = Ok ((λ v : Qc, if active v then 1%Qc else 0%Qc)
          <$> take (length (edges_of n)) vals).
Proof.
  intros Hlen. apply forM_Ok_Forall2, Forall2_same_length_lookup_2.
  - rewrite length_fmap, length_take. lia.
  - intros k [i j] q He Hq. rewrite list_lookup_fmap in Hq.
    assert (k < length (edges_of n)) as Hk
      by (apply lookup_lt_Some in He; done).
    rewrite lookup_take_lt in Hq by done.
    destruct (vals !! k) as [v |] eqn:Hv; [| done].
    simpl in Hq. injection Hq as <-. simpl.
    destruct (DFJ_x_edge n k i j He) as [-> _].
    cbn [mbind result_bind]. unfold var_x. rewrite Hv.
    cbn [mbind result_bind]. by destruct (active v).
Qed.

(** X5.  On an integer model (GG, DFJ or MTZ), when the solver (run
    with the subtour callback for DFJ, without one otherwise) has
    values for all variables, [solve] returns the solver's objective
    value and a vector with one entry per edge, each 0 or 1. *)
Theorem solve_returns_a_binary_vector
    (optimize :
       grbmodel → option (grbmodel → list Qc → result exn (option constr)) →
       option (list Qc * Qc))
    (o : tspmodel) (vals : list Qc) (objVal : Qc) :
  tsp_object o → ¬ is_relaxation (type_self o) →
  optimize (_model o)
    (match type_self o with
     | tspDFJModel => Some _subtourelim
     | _ => None
     end) = Some (vals, objVal) →
  length (Vars (_model o)) ≤ length vals →
  ∃ sol,
    solve optimize o = Ok (sol, objVal) ∧
    length sol = num_cost o ∧
    Forall (λ v, v = 0%Qc ∨ v = 1%Qc) sol.
Proof.
  intros Hobj Hint Hopt Hvals.
  destruct (tsp_object_x o Hobj) as (Hx & He & Hv).
  rewrite Hv in Hvals. unfold num_cost. rewrite He.
  destruct (decide (type_self o = tspDFJModel)) as [Ht | Ht].
  - rewrite Ht in *. simpl in Hx, Hvals.
    eexists. split; [| split].
    + unfold solve. rewrite Ht. unfold tspDFJModel_solve.
      rewrite Hopt, Hx, He. rewrite integer_values_DFJ by done. done.
    + rewrite length_fmap, length_take. lia.
    + apply Forall_fmap, Forall_forall. intros v _. simpl.
      destruct (active v); auto.
  - destruct (x_of_directed _ (num_nodes o) Ht) as (b & Hb & Hbv).
    rewrite Hb in Hx.
    eexists. split; [| split].
    + assert (solve optimize o = tspGGModel_solve optimize o) as ->.
      { unfold solve. destruct (type_self o); try done;
          destruct Hint; unfold is_relaxation; auto. }
      unfold tspGGModel_solve.
      assert (optimize (_model o) None = Some (vals, objVal)) as ->.
      { by destruct (type_self o). }
      rewrite Hx, He. rewrite integer_values_directed by lia. done.
    + rewrite length_fmap, length_seq. done.
    + apply Forall_fmap, Forall_forall. intros k _. simpl.
      repeat destruct (active _); auto.
Qed.

Lemma dfj_terms_DFJ (n : nat) (c : list Qc) :
  length c = length (edges_of n) →
  dfj_terms c (edges_of n) (DFJ_x n)
  = Ok (quicksum (zip_with (λ ck k, Mul ck (Var k)) c
                    (seq 0 (length (edges_of n))))).
Proof.
  intros Hlen. unfold dfj_terms.
  assert (forM (enumerate (edges_of n))
            (λ ke : nat * (nat * nat),
               ci ← getitem c ke.1;
               xk ← td_get (DFJ_x n) ke.2.1 ke.2.2;
               Ok (E := exn) (Mul ci (Var xk)))
          = Ok (zip_with (λ ck k, Mul ck (Var k)) c
                  (seq 0 (length (edges_of n))))) as ->; [| done].
  apply forM_Ok_Forall2, Forall2_same_length_lookup_2.
  - unfold enumerate. rewrite length_imap, length_zip_with, length_seq. lia.
  - intros k [k' [i j]] t Hk Ht. unfold enumerate in Hk.
    rewrite list_lookup_imap in Hk.
    destruct (edges_of n !! k) as [e |] eqn:He; [| done].
    simpl in Hk. injection Hk as <- ->.
    rewrite lookup_zip_with in Ht.
    destruct (c !! k) as [ck |] eqn:Hc; [| done]. simpl in Ht.
    rewrite lookup_seq_lt in Ht by (by apply lookup_lt_Some in He).
    simpl in Ht. injection Ht as <-. simpl.
    unfold getitem. rewrite Hc. cbn [mbind result_bind].
    by destruct (DFJ_x_edge n k i j He) as [-> _].
Qed.

Lemma values_take (vals : list Qc) (m : nat) :
  m ≤ length vals →
  (λ k, default 0%Qc (vals !! k)) <$> seq 0 m = take m vals.
Proof.
  intros Hm. apply list_eq. intros k.
  rewrite list_lookup_fmap.
  destruct (decide (k < m)) as [Hk | Hk].
  - rewrite lookup_seq_lt, lookup_take_lt by done. simpl.
    by destruct (lookup_lt_is_Some_2 vals k ltac:(lia)) as [v ->].
  - rewrite lookup_seq_ge, lookup_take_ge by lia. done.
Qed.

Lemma binary_active (v : Qc) :
  v = 0%Qc ∨ v = 1%Qc → (if active v then 1%Qc else 0%Qc) = v.
Proof. by intros [-> | ->]. Qed.

(** X6.  On a DFJ model whose objective was set to the cost vector
    [c], when the solver's values are all 0 or 1, the vector that
    [solve] returns is these values, edge by edge, and the objective of
    the model at them is [dot(c, sol)]. *)
Theorem DFJ_solve_prices_the_objective
    (optimize :
       grbmodel → option (grbmodel → list Qc → result exn (option constr)) →
       option (list Qc * Qc))
    (o o' : tspmodel) (c vals : list Qc) (objVal : Qc) :
  tsp_object o → type_self o = tspDFJModel →
  setObj o c = Ok o' →
  optimize (_model o') (Some _subtourelim) = Some (vals, objVal) →
  length (Vars (_model o')) ≤ length vals →
  Forall (λ v, v = 0%Qc ∨ v = 1%Qc) vals →
  ∃ sol,
    solve optimize o' = Ok (sol, objVal) ∧
    sol = take (num_cost o) vals ∧
    eval vals (Objective (_model o')) = dot c sol.
Proof.
  intros Hobj Ht Hset Hopt Hvals Hbin.
  destruct (tsp_object_x o Hobj) as (Hx & He & Hv).
  rewrite Ht in Hx, Hv. simpl in Hx, Hv.
  unfold setObj in Hset. rewrite Ht in Hset.
  unfold tspDFJModel_setObj in Hset.
  case_bool_decide as Hlen; [done |]. unfold num_cost in *.
  rewrite Hx, He in Hset.
  rewrite dfj_terms_DFJ in Hset by (by rewrite <- He).
  cbn [mbind result_bind] in Hset. injection Hset as <-.
  simpl in Hopt, Hvals. rewrite Hv in Hvals. rewrite He.
  eexists. split; [| split; [done |]].
  - unfold solve. simpl. rewrite Ht. unfold tspDFJModel_solve. simpl.
    rewrite Hopt, Hx, He, integer_values_DFJ by done.
    cbn [mbind result_bind]. do 2 f_equal.
    rewrite <- (list_fmap_id (take _ vals)) at 2.
    apply list_fmap_ext. intros k v Hk. simpl. apply binary_active.
    apply list_elem_of_lookup_2, elem_of_take in Hk as (i & Hi & _).
    apply list_elem_of_lookup_2 in Hi.
    by apply (proj1 (Forall_forall _ _) Hbin).
  - unfold set_model, setObjective. cbn [_model Objective].
    rewrite (eval_terms_dot vals Var). cbn [eval].
    by rewrite values_take.
Qed.

(* ================================================================== *)
(** * [addConstr] and [relax] *)
(* ================================================================== *)

(** X7.  On a model object in the store, [addConstr(coefs, rhs)]
    raises [ValueError] when [len(coefs)] is not [num_cost], and
    otherwise returns a model at an address that was not in use. *)
Theorem addConstr_checks_the_size
    (σ : store) (self : nat) (o : tspmodel) (coefs : list Qc) (r : Qc) :
  σ !! self = Some o → tsp_object o →
  (length coefs ≠ num_cost o →
   addConstr self coefs r σ
   = Raise (ValueError "Size of coef vector cannot cost.")) ∧
  (length coefs = num_cost o →
   ∃ l σ', addConstr self coefs r σ = Ok (l, σ') ∧ (l ∉ dom σ)).
Proof.
  intros Hself Hobj. split.
  - intros Hne.
    unfold addConstr, tspGGModel_addConstr, tspDFJModel_addConstr, deref.
    rewrite Hself. cbn [mbind result_bind].
    destruct (type_self o); cbn [mbind result_bind];
      by rewrite bool_decide_eq_true_2.
  - intros Hlen.
    destruct (addConstr_step σ self o coefs r Hself Hobj Hlen)
      as (l & base & e & _ & _ & Hl & ->).
    by eexists _, _.
Qed.

(** X8.  [relax()] on a GG or MTZ integer model returns a newly
    constructed model of the relaxation class with the same node count,
    hence the same number of costs, at an address that was not in use;
    the integer model stays as it was; and [relax()] on the result
    raises "Model has already been relaxed.". *)
Theorem relax_builds_a_relaxation_once
    (base_relax : nat → store → result exn (nat * store))
    (σ : store) (self : nat) (o : tspmodel) :
  σ !! self = Some o →
  type_self o = tspGGModel ∨ type_self o = tspMTZModel →
  ∃ l r,
    relax base_relax self σ = Ok (l, <[l := r]> σ) ∧
    (l ∉ dom σ) ∧
    tsp_init (relaxation_of (type_self o)) (num_nodes o) = Ok r ∧
    is_relaxation (type_self r) ∧
    num_cost r = length (edges_of (num_nodes o)) ∧
    <[l := r]> σ !! self = Some o ∧
    relax base_relax l (<[l := r]> σ)
    = Raise (RuntimeError "Model has already been relaxed.").
Proof.
  intros Hself Ht.
  destruct (tsp_init_returns (relaxation_of (type_self o)) (num_nodes o))
    as (r & Hr & Hc).
  set (l := fresh (dom σ)).
  assert (l ∉ dom σ) as Hl by apply is_fresh.
  assert (is_relaxation (type_self r)) as Hrel.
  { rewrite (c_type _ _ _ Hc). unfold is_relaxation.
    destruct Ht as [-> | ->]; auto. }
  exists l, r. split; [| split; [done |]; split; [done |]; split; [done |]].
  - unfold relax, deref, new. rewrite Hself. cbn [mbind result_bind].
    destruct Ht as [Ht | Ht]; rewrite Ht in *; simpl in Hr;
      by rewrite Hr.
  - split; [unfold num_cost; by rewrite (c_edges _ _ _ Hc) |]. split.
    + rewrite lookup_insert_ne; [done |]. intros <-.
      apply Hl. by apply elem_of_dom_2 in Hself.
    + unfold relax, deref. rewrite lookup_insert_eq.
      cbn [mbind result_bind]. by destruct Hrel as [-> | ->].
Qed.

(** X9.  For every [n], [tspGGModelRel(n)] has the variable keys and
    the constraints of [tspGGModel(n)], and its variables are those of
    [tspGGModel(n)] with each [x] continuous between 0 and 1 instead of
    binary. *)
Theorem GG_relaxation_keeps_the_constraints (n : nat) :
  ∃ o r,
    tsp_init tspGGModel n = Ok o ∧
    tsp_init tspGGModelRel n = Ok r ∧
    x r = x o ∧
    Constrs (_model r) = Constrs (_model o) ∧
    Vars (_model r) = relaxed_var <$> Vars (_model o).
Proof.
  destruct (tsp_init_returns tspGGModel n) as (o & Ho & _).
  destruct (tsp_init_returns tspGGModelRel n) as (r & Hr & _).
  exists o, r. split; [done |]. split; [done |].
  revert Ho Hr. unfold tsp_init. cbn [_getModel].
  unfold tspGGModel_getModel, tspGGModelRel_getModel, addVars.
  cbv beta iota zeta. simpl. rewrite !length_fmap.
  destruct (GG_constraints _ _ _) as [cs | |]; [| done ..].
  cbn [mbind result_bind]. intros [= <-] [= <-]. simpl.
  split; [done |]. split; [done |].
  rewrite fmap_app, <- !list_fmap_compose. f_equal.
Qed.

(** X10.  For every [n], [tspMTZModelRel(n)] has the variable keys and
    the constraints of [tspMTZModel(n)]; the variables of the
    formulation are relaxed ([x] continuous between 0 and 1), but the
    variables left by the first two [addVars] calls, a binary [x] per
    undirected edge among them, are in the relaxation as well. *)
Theorem MTZ_relaxation_keeps_binary_variables (n : nat) :
  ∃ o r,
    tsp_init tspMTZModel n = Ok o ∧
    tsp_init tspMTZModelRel n = Ok r ∧
    x r = x o ∧
    Constrs (_model r) = Constrs (_model o) ∧
    Vars (_model r)
    = MTZ_leftover_variables n ++ (relaxed_var <$> MTZ_variables n).
Proof.
  destruct (tsp_init_returns tspMTZModel n) as (o & Ho & _).
  destruct (tsp_init_returns tspMTZModelRel n) as (r & Hr & _).
  exists o, r. split; [done |]. split; [done |].
  revert Ho Hr. unfold tsp_init. cbn [_getModel].
  unfold tspMTZModel_getModel, tspMTZModelRel_getModel, addVars at 1 3.
  cbv beta iota zeta.
  destruct (mirror_keys _ _) as [xd0 | |]; [| done ..].
  cbn [mbind result_bind]. unfold addVars, addVars1. cbv beta iota zeta.
  simpl. rewrite !length_app, !length_fmap.
  destruct (MTZ_constraints _ _ _ _) as [cs | |]; [| done ..].
  cbn [mbind result_bind]. intros [= <-] [= <-]. simpl.
  split; [done |]. split; [done |].
  unfold MTZ_leftover_variables, MTZ_variables.
  rewrite fmap_app, <- !list_fmap_compose, <- !(assoc_L (++)). done.
Qed.

(* ================================================================== *)
(** * The mirrored keys of the DFJ model *)
(* ================================================================== *)

(** X21.  For every [n], [tspDFJModel(n)] has one variable per edge,
    all binary; the keys [(i, j)] and [(j, i)] of [x] give the same
    variable, the one of the edge between [i] and [j]; there is one
    constraint per node, and lazy constraints are switched on. *)
Theorem DFJ_edge_variable_has_two_keys (n : nat) :
  ∃ o,
    tsp_init tspDFJModel n = Ok o ∧
    length (Vars (_model o)) = num_cost o ∧
    Forall (λ v, VType v = BINARY) (Vars (_model o)) ∧
    (∀ k i j, edges o !! k = Some (i, j) →
              td_get (x o) i j = Ok k ∧ td_get (x o) j i = Ok k) ∧
    length (Constrs (_model o)) = n ∧
    lazyConstraints (_model o) = 1.
Proof.
  destruct (tsp_init_returns tspDFJModel n) as (o & Ho & Hc).
  exists o. split; [done |].
  destruct (tsp_init_x _ _ _ Ho) as [Hx Hv]. simpl in Hx, Hv.
  unfold num_cost. rewrite (c_edges _ _ _ Hc).
  split; [done |].
  revert Ho. unfold tsp_init. cbn [_getModel].
  unfold tspDFJModel_getModel, addVars. cbv beta iota zeta.
  destruct (mirror_keys _ _) as [xd | |]; [| done ..].
  cbn [mbind result_bind]. intros [= <-]. simpl.
  split; [| split; [| split]].
  - apply Forall_fmap, Forall_forall. by intros e _.
  - intros k i j Hk. simpl in Hx. rewrite Hx. by apply DFJ_x_edge.
  - by rewrite length_fmap, length_seq.
  - done.
Qed.

(* ================================================================== *)
(** * [getTour] off the tours *)
(* ================================================================== *)

Lemma active_edges_none (es : list (nat * nat)) (p : nat) (sol : list Qc)
    (d : gmap nat (list nat)) :
  p + length es ≤ length sol →
  (∀ k e v, es !! k = Some e → sol !! (p + k) = Some v → active v = false) →
  active_edges es p sol d = Ok d.
Proof.
  revert p. induction es as [|[j k] es IH]; intros p Hlen Hno; [done |].
  simpl in *. unfold getitem.
  destruct (lookup_lt_is_Some_2 sol p) as [v Hv]; [lia |].
  rewrite Hv. cbn [mbind result_bind].
  rewrite (Hno 0 (j, k) v); [| done | by rewrite Nat.add_0_r].
  apply IH; [lia |]. intros k' e v' He Hv'.
  apply (Hno (S k') e v'); [done |]. by rewrite <- Nat.add_succ_comm.
Qed.

Lemma active_edges_short (es : list (nat * nat)) (p : nat) (sol : list Qc)
    (d : gmap nat (list nat)) :
  p ≤ length sol → length sol < p + length es →
  active_edges es p sol d = Raise IndexError.
Proof.
  revert p d. induction es as [|[j k] es IH]; intros p d Hp Hlen;
    simpl in *; [lia |].
  unfold getitem. destruct (sol !! p) as [v |] eqn:Hv; [| done].
  cbn [mbind result_bind]. apply lookup_lt_Some in Hv.
  destruct (active v); apply IH; lia.
Qed.

Lemma integer_getTour (fuel : nat) (o : tspmodel) (sol : list Qc) :
  ¬ is_relaxation (type_self o) →
  getTour fuel o sol = tspABModel_getTour fuel o sol.
Proof.
  intros Hint. unfold getTour.
  destruct (type_self o); try done; destruct Hint; unfold is_relaxation; auto.
Qed.

(** X11.  On an integer model, for a solution with a value for every
    edge and none above the threshold 0.01, [getTour] returns [[0]],
    without entering its loop. *)
Theorem getTour_without_active_edges
    (fuel : nat) (o : tspmodel) (sol : list Qc) :
  ¬ is_relaxation (type_self o) →
  num_cost o ≤ length sol →
  no_active_edge (edges o) sol →
  getTour fuel o sol = Ok [0].
Proof.
  intros Hint Hlen Hno. rewrite integer_getTour by done.
  unfold tspABModel_getTour.
  rewrite active_edges_none; [| done | exact Hno].
  cbn [mbind result_bind].
  assert (tour_loop fuel ∅ {[0]} [0] = Ok (∅, [0])) as ->.
  { rewrite tour_loop_unfold, bool_decide_eq_false_2; [done |].
    rewrite map_size_empty. lia. }
  done.
Qed.

(** X12.  On an integer model, for a solution with fewer values than
    edges, [getTour] raises [IndexError], whatever the values are. *)
Theorem getTour_short_solution
    (fuel : nat) (o : tspmodel) (sol : list Qc) :
  ¬ is_relaxation (type_self o) →
  length sol < num_cost o →
  getTour fuel o sol = Raise IndexError.
Proof.
  intros Hint Hlen. rewrite integer_getTour by done.
  unfold tspABModel_getTour.
  rewrite active_edges_short; [done | lia | done].
Qed.

Lemma tour_loop_stuck (fuel : nat) (d : gmap nat (list nat)) :
  d !! 0 = Some [] → 1 < size d →
  tour_loop fuel d {[0]} [0] = Diverge.
Proof.
  intros H0 Hsize. induction fuel as [|fuel IH];
    rewrite tour_loop_unfold;
    rewrite bool_decide_eq_true_2 by (by rewrite size_singleton);
    [done |].
  cbn [last]. unfold dd_get. rewrite H0. cbn [list_find]. exact IH.
Qed.

Lemma tour_loop_isolated_start (fuel : nat) (d : gmap nat (list nat)) :
  d !! 0 = None → 1 < size d →
  tour_loop fuel d {[0]} [0] = Diverge.
Proof.
  intros H0 Hsize. rewrite tour_loop_unfold.
  rewrite bool_decide_eq_true_2 by (by rewrite size_singleton).
  destruct fuel as [|fuel]; [done |].
  cbn [last]. unfold dd_get. rewrite H0. cbn [list_find].
  apply tour_loop_stuck; [by rewrite lookup_insert_eq |].
  rewrite map_size_insert_None by done. lia.
Qed.

(** X13.  On an integer model, for a solution with a value for every
    edge in which some edge is above the threshold but none at node 0,
    [getTour] does not return: its loop finds no node to go to from
    node 0 and runs for ever, whatever the number of rounds allowed. *)
Theorem getTour_never_returns_from_an_isolated_start
    (fuel : nat) (o : tspmodel) (sol : list Qc) :
  tsp_object o → ¬ is_relaxation (type_self o) →
  num_cost o ≤ length sol →
  start_is_isolated (edges o) sol →
  getTour fuel o sol = Diverge.
Proof.
  intros Hobj Hint Hlen [Hzero (k & [a b] & v & He & Hv & Hact)].
  rewrite integer_getTour by done. unfold tspABModel_getTour.
  destruct (active_edges_spec (edges o) 0 sol ∅)
    as (d & -> & Hne & Hadj); [done | |].
  { intros w l Hw. by rewrite lookup_empty in Hw. }
  cbn [mbind result_bind].
  assert (∀ w, ¬ in_dd d 0 w) as Hno.
  { intros w Hw. apply Hadj in Hw as [(l & Hl & _) | Hw].
    { by rewrite lookup_empty in Hl. }
    destruct Hw as (k' & a' & b' & q & He' & Hq & Hq' & Hab).
    simpl in Hq.
    destruct Hab as [[= -> ->] | [= -> ->]].
    - by rewrite (Hzero k' w q He' Hq) in Hq'.
    - rewrite (tsp_object_edges o Hobj) in He'.
      apply list_elem_of_lookup_2, elem_of_edges_of in He'. lia. }
  assert (d !! 0 = None) as H0.
  { destruct (d !! 0) as [l |] eqn:Hl; [| done].
    destruct l as [|w l]; [by destruct (Hne 0 [] Hl) |].
    destruct (Hno w). exists (w :: l). split; [done | by left]. }
  assert (in_dd d a b ∧ in_dd d b a) as [(la & Hla & _) (lb & Hlb & _)].
  { split; apply Hadj; right.
    - exists k, a, b, v. auto.
    - exists k, a, b, v. auto. }
  assert (a ≠ b) as Hab.
  { rewrite (tsp_object_edges o Hobj) in He.
    apply list_elem_of_lookup_2, elem_of_edges_of in He. lia. }
  assert (1 < size d) as Hsize.
  { rewrite <- size_dom.
    assert (({[a; b]} : gset nat) ⊆ dom d) as Hsub.
    { intros z Hz. apply elem_of_union in Hz as [Hz | Hz];
        apply elem_of_singleton in Hz as ->; by eapply elem_of_dom_2. }
    apply subseteq_size in Hsub.
    rewrite size_union in Hsub by (by apply disjoint_singleton_l,
      not_elem_of_singleton).
    rewrite !size_singleton in Hsub. lia. }
  by rewrite tour_loop_isolated_start.
Qed.

(* ================================================================== *)
(** * [subtour] on any selection *)
(* ================================================================== *)

(** A walk: a chain of different nodes below [n]. *)
Lemma walk_returns (sel : list (nat * nat)) (fuel : nat)
    (neighbors U path : list nat) :
  NoDup path → chain sel path → NoDup U →
  (∀ v, v ∈ U → v ∉ path) →
  match neighbors with
  | [] => True
  | c :: _ => c ∈ U ∧ ∀ prev, last path = Some prev → (prev, c) ∈ sel
  end →
  length U ≤ fuel →
  ∃ path' U',
    subtour_walk fuel sel neighbors U path = Ok (path', U') ∧
    NoDup path' ∧ chain sel path' ∧ NoDup U' ∧
    (∀ v, v ∈ U' → v ∉ path') ∧
    (∀ v, v ∈ U' ∨ v ∈ path' ↔ v ∈ U ∨ v ∈ path) ∧
    ∃ q, path' = path ++ q ∧ (neighbors ≠ [] → q ≠ []).
Proof.
  revert neighbors U path.
  induction fuel as [|fuel IH]; intros neighbors U path Hp Hch HU Hdisj
    Hnb Hfuel; destruct neighbors as [|c rest].
  - exists path, U. repeat (split; [done |]).
    exists []. by rewrite app_nil_r.
  - destruct Hnb as [Hc _]. destruct U; [by apply elem_of_nil in Hc |].
    simpl in Hfuel. lia.
  - exists path, U. repeat (split; [done |]).
    exists []. by rewrite app_nil_r.
  - destruct Hnb as [Hc Hlast].
    destruct (list_remove_spec c U HU Hc) as (U1 & Hrm & HU1 & Hmem & Hlen).
    cbn [subtour_walk]. rewrite Hrm. cbn [mbind result_bind].
    destruct (IH (filter (λ j, j ∈ U1) (select sel c).*2) U1 (path ++ [c]))
      as (path' & U' & Hwalk & Hp' & Hch' & HU' & Hdisj' & Hmem' & q & Hq
            & _).
    + apply NoDup_app. split; [done |]. split; [| apply NoDup_singleton].
      intros v Hv Hvc. apply list_elem_of_singleton in Hvc as ->.
      by apply (Hdisj c).
    + by apply chain_snoc.
    + done.
    + intros v Hv. apply Hmem in Hv as [Hv Hvc].
      rewrite elem_of_app, list_elem_of_singleton.
      intros [Hvp | ->]; [by apply (Hdisj v) | done].
    + destruct (filter _ _) as [|c' rest'] eqn:Hf; [done |].
      assert (c' ∈ filter (λ j, j ∈ U1) (select sel c).*2) as Hin
        by (rewrite Hf; by left).
      apply list_elem_of_filter in Hin as [Hc' Hin].
      apply elem_of_neighbours in Hin. split; [done |].
      intros prev. rewrite last_snoc. by intros [= <-].
    + lia.
    + exists path', U'. split; [done |]. repeat (split; [done |]). split.
      * intros v. rewrite Hmem', Hmem, elem_of_app, list_elem_of_singleton.
        split.
        -- intros [[Hv _] | [Hv | ->]]; auto.
        -- intros [Hv | Hv]; [| by right; left].
           destruct (decide (v = c)) as [-> | Hvc];
             [by right; right | by left].
      * exists (c :: q). split; [| done].
        by rewrite Hq, <- app_assoc.
Qed.

Lemma loop_returns (sel : list (nat * nat)) (n fuel : nat)
    (U cycle : list nat) :
  NoDup U → (∀ v, v ∈ U → v < n) → length U ≤ fuel →
  length cycle = n + 1 ∨ greedy_walk sel n cycle →
  ∃ tour,
    subtour_loop fuel sel U cycle = Ok tour ∧
    ((U = [] ∧ tour = cycle) ∨ greedy_walk sel n tour).
Proof.
  revert U cycle.
  induction fuel as [|fuel IH]; intros U cycle HU HUn Hfuel Hinv.
  { destruct U; [| simpl in Hfuel; lia]. exists cycle. split; [done |].
    by left. }
  destruct U as [|v0 U'] eqn:HeqU.
  { exists cycle. split; [done |]. by left. }
  rewrite <- HeqU in *.
  destruct (walk_returns sel (S fuel) U U [])
    as (path & U1 & Hwalk & Hp & Hch & HU1 & Hdisj & Hmem & q & Hq & Hne).
  { apply NoDup_nil_2. }
  { by intros i a b Ha. }
  { done. }
  { intros v _. apply not_elem_of_nil. }
  { rewrite HeqU. split; [by left | done]. }
  { done. }
  simpl in Hq. subst q.
  assert (path ≠ []) as Hpath by (apply Hne; by rewrite HeqU).
  assert (∀ v, v ∈ U ↔ v ∈ U1 ∨ v ∈ path) as Hmem'.
  { intros v. rewrite Hmem. split; [by left |].
    intros [Hv | Hv]; [done | by apply elem_of_nil in Hv]. }
  assert (length U = length U1 + length path) as Hlen.
  { rewrite <- length_app. apply Permutation_length.
    apply NoDup_Permutation; [done | |].
    - apply NoDup_app. split; [done |]. split; [| done].
      intros v Hv. by apply Hdisj.
    - intros v. by rewrite elem_of_app. }
  assert (0 < length path) as Hpos by (destruct path; [done | simpl; lia]).
  assert (∀ v, v ∈ path → v < n) as Hpn.
  { intros v Hv. apply HUn, Hmem'. by right. }
  assert (greedy_walk sel n path) as Hgood by done.
  assert (length path ≤ n) as Hpathn by (by apply length_nodes).
  assert (subtour_loop (S fuel) sel U cycle
          = subtour_loop fuel sel U1
              (if bool_decide (length path < length cycle) then path
               else cycle)) as ->.
  { rewrite HeqU. cbn [subtour_loop]. rewrite <- HeqU. by rewrite Hwalk. }
  destruct (IH U1 (if bool_decide (length path < length cycle) then path
                   else cycle)) as (tour & Htour & Hres).
  - done.
  - intros v Hv. apply HUn, Hmem'. by left.
  - lia.
  - right. case_bool_decide; [done |].
    destruct Hinv as [Hc |]; [lia | done].
  - exists tour. split; [done |]. right.
    destruct Hres as [[_ ->] |]; [| done].
    case_bool_decide; [done |]. destruct Hinv as [Hc |]; [lia | done].
Qed.

(** X14.  [subtour(selected, n)] returns for every list of selected
    pairs and every [n]: it neither raises nor loops for ever.  For
    [n = 0] the result is [[0]]; otherwise it is a chain of different
    nodes below [n], each joined to the next by a selected pair (in a
    graph where the degrees are not all two, not always a whole
    component). *)
Theorem subtour_always_returns (sel : list (nat * nat)) (n : nat) :
  ∃ tour,
    subtour sel n = Ok tour ∧
    ((n = 0 ∧ tour = [0]) ∨ (0 < n ∧ greedy_walk sel n tour)).
Proof.
  destruct (loop_returns sel n (S n) (seq 0 n) (seq 0 (n + 1)))
    as (tour & Htour & Hres).
  - apply NoDup_seq.
  - intros v Hv. apply elem_of_seq in Hv. lia.
  - rewrite length_seq. lia.
  - left. by rewrite length_seq.
  - exists tour. split; [done |].
    destruct Hres as [[Hn ->] | Hgood].
    + left. destruct n; [done | discriminate Hn].
    + destruct n as [|n]; [| right; split; [lia | done]].
      destruct Hgood as (Hne & _ & Hlt & _).
      destruct tour as [|v tour]; [done |].
      specialize (Hlt v ltac:(by left)). lia.
Qed.

(** What the callback needs of [subtour]. *)
Lemma subtour_short_walk (sel : list (nat * nat)) (n : nat) :
  ∃ tour,
    subtour sel n = Ok tour ∧
    (length tour < n → NoDup tour ∧ ∀ v, v ∈ tour → v < n).
Proof.
  destruct (loop_returns sel n (S n) (seq 0 n) (seq 0 (n + 1)))
    as (tour & Htour & Hres).
  - apply NoDup_seq.
  - intros v Hv. apply elem_of_seq in Hv. lia.
  - rewrite length_seq. lia.
  - left. by rewrite length_seq.
  - exists tour. split; [done |]. intros Hlt.
    destruct Hres as [[_ ->] | (_ & Hnd & Hnodes & _)]; [| done].
    rewrite length_seq in Hlt. lia.
Qed.

(** X15.  On a DFJ model the callback returns for every candidate
    with a value per edge, whatever the degrees: it raises nothing, adds
    the cut over the pairs of nodes of what [subtour] returned, bounded
    by that size less one, when this has fewer than [n] nodes, and
    adds nothing otherwise. *)
Theorem subtourelim_never_fails (n : nat) (o : tspmodel) (vals : list Qc) :
  tsp_object o → type_self o = tspDFJModel → num_nodes o = n →
  length vals = length (edges_of n) →
  ∃ selected tour r,
    selected_of (x o) vals = Ok selected ∧
    subtour selected n = Ok tour ∧
    _subtourelim (_model o) vals = Ok r ∧
    (length tour < n → ∃ c, r = Some c ∧ subtour_cut n tour c) ∧
    (¬ length tour < n → r = None).
Proof.
  intros Hobj Ht Hnum Hlen.
  destruct (tsp_object_base o Hobj) as (base & Hbase & Hx & _ & _ & Hmx & Hmn).
  rewrite Ht, Hnum in Hbase.
  destruct (DFJ_fields n base Hbase) as [Hbx Hbn].
  destruct (tsp_object_x o Hobj) as (Hxo & _). rewrite Ht, Hnum in Hxo.
  simpl in Hxo.
  set (sel := selected_pairs n vals).
  destruct (subtour_short_walk sel n) as (tour & Htour & Hgood).
  assert (length tour < n →
          ∃ ts, forM (combinations2 tour)
                  (λ ij : nat * nat, k ← td_get (DFJ_x n) ij.1 ij.2;
                                     Ok (E := exn) (Var k)) = Ok ts ∧
                subtour_cut n tour
                  (Constr (quicksum ts) LESS_EQUAL
                     (Const (Qc_of_Z (Z.of_nat (length tour) - 1)))))
    as Hcut.
  { intros Hlt. destruct (Hgood Hlt) as (Hnd & Hnodes).
    destruct (combinations2_pairs tour Hnd) as (Hpnd & Hin & Hall).
    destruct (forM_is_Ok
                (λ ij : nat * nat, k ← td_get (DFJ_x n) ij.1 ij.2;
                                   Ok (E := exn) (Var k))
                (combinations2 tour)) as [ts Hts].
    { intros [i j] Hij. destruct (Hin i j Hij) as (Hi & Hj & Hne & _).
      destruct (DFJ_x_get n i j) as (k & Hk & _); auto.
      simpl. rewrite Hk. by eexists. }
    exists ts. split; [done |]. exists (combinations2 tour), ts.
    split; [done |]. split; [| done].
    apply forM_Ok_Forall2 in Hts.
    eapply Forall2_impl; [exact Hts |].
    intros [i j] t Hij. simpl in Hij.
    destruct (td_get (DFJ_x n) i j) as [k | |] eqn:Hget; [| done ..].
    simpl in Hij. injection Hij as <-. exists k. split; [| done].
    apply td_get_inv in Hget. unfold DFJ_x in Hget.
    apply elem_of_app in Hget as [Hget | Hget];
      apply elem_of_lookup_imap in Hget as (p & [a b] & Heq & Hp);
      injection Heq as -> -> ->; [by left | by right]. }
  assert (∃ r, _subtourelim (_model o) vals = Ok r ∧
               (length tour < n → ∃ c, r = Some c ∧ subtour_cut n tour c) ∧
               (¬ length tour < n → r = None)) as (r & Hr & Hyes & Hno).
  { unfold _subtourelim. rewrite Hmx, Hmn, Hbx, Hbn.
    rewrite selected_of_DFJ by done. cbn [mbind result_bind].
    fold sel. rewrite Htour. cbn [mbind result_bind].
    case_bool_decide as Hlt.
    - destruct (Hcut Hlt) as (ts & -> & Hc). cbn [mbind result_bind].
      eexists. split; [done |]. split; [| done].
      intros _. by eexists.
    - eexists. split; [done |]. split; [done | done]. }
  exists sel, tour, r. split; [| done].
  rewrite Hxo. by apply selected_of_DFJ.
Qed.

(* ================================================================== *)
(** * One worker and many on a model without added constraints *)
(* ================================================================== *)

Lemma setObj_on_base (base : tspmodel) (obj : linexpr) (c : list Qc)
    (m1 : tspmodel) :
  setObj (set_model base (setObjective (_model base) obj)) c = Ok m1 →
  setObj base c = Ok m1 ∧
  ∃ e, m1 = set_model base (setObjective (_model base) e).
Proof.
  unfold setObj, tspGGModel_setObj, tspDFJModel_setObj. simpl.
  unfold num_cost. simpl.
  destruct (type_self base);
    (case_bool_decide; [done |]);
    [destruct (sym_terms c _ _) as [e | |]
    |destruct (sym_terms c _ _) as [e | |]
    |destruct (dfj_terms c _ _) as [e | |]
    |destruct (sym_terms c _ _) as [e | |]
    |destruct (sym_terms c _ _) as [e | |]]; try done;
    cbn [mbind result_bind]; intros [= <-]; (split; [done | by exists e]).
Qed.

Section Workers.

Context (optimize :
  grbmodel → option (grbmodel → list Qc → result exn (option constr)) →
  option (list Qc * Qc)).
Context (t : model_type) (n : nat) (base : tspmodel).
Context (Hbase : tsp_init t n = Ok base).

Lemma pool_is_turn (costs : list (list Qc)) (outs : list (list Qc * Qc))
    (obj : linexpr) :
  (∃ m', solved_in_turn (optModel0 := tsp_optModel optimize)
           (set_model base (setObjective (_model base) obj)) costs outs m') ↔
  solved_in_pool (optModel0 := tsp_optModel optimize)
    (set_model base (setObjective (_model base) obj)) costs outs.
Proof using Hbase.
  pose proof (tsp_init_fields _ _ _ Hbase) as Hc.
  assert (∀ obj', tsp_rebuild (set_model base
                    (setObjective (_model base) obj')) = Ok base) as Hre.
  { intros obj'. unfold tsp_rebuild. simpl.
    by rewrite (c_type _ _ _ Hc), (c_num_nodes _ _ _ Hc). }
  unfold solved_in_pool.
  revert outs obj. induction costs as [|cost costs IH]; intros outs obj.
  - split.
    + intros [m' H]. inversion H; subst. constructor.
    + intros H. inversion H; subst. eexists. constructor.
  - split.
    + intros [m' H].
      inversion H as [| ? ? m1 solq objq ? outs' ? Hset Hsolve Hrest];
        subst. simpl in Hset, Hsolve.
      destruct (setObj_on_base _ _ _ _ Hset) as [Hset' [e ->]].
      constructor.
      * exists base, (set_model base (setObjective (_model base) e)).
        simpl. by rewrite Hre.
      * assert (Forall2
          (λ cost0 out, ∃ m0 m2,
             om_rebuild (set_model base (setObjective (_model base) e))
               = Ok m0 ∧ om_setObj m0 cost0 = Ok m2 ∧ om_solve m2 = Ok out)
          costs outs') as Hpool by (apply IH; by exists m').
        eapply Forall2_impl; [exact Hpool |].
        intros c0 out (m0 & m2 & Hr & Hs & Ho). exists m0, m2.
        simpl in *. rewrite Hre in *. done.
    + intros H.
      inversion H as [| ? [solq objq] ? outs' (m0 & m1 & Hr & Hset & Hsolve)
                        Hrest]; subst.
      simpl in Hr, Hset, Hsolve. rewrite Hre in Hr. injection Hr as <-.
      assert (setObj (set_model base (setObjective (_model base) obj)) cost
              = Ok m1) as Hset'.
      { revert Hset. clear.
        unfold setObj, tspGGModel_setObj, tspDFJModel_setObj. simpl.
        unfold num_cost. simpl.
        destruct (type_self base);
          (case_bool_decide; [done |]);
          [destruct (sym_terms cost _ _) as [e | |]
          |destruct (sym_terms cost _ _) as [e | |]
          |destruct (dfj_terms cost _ _) as [e | |]
          |destruct (sym_terms cost _ _) as [e | |]
          |destruct (sym_terms cost _ _) as [e | |]]; try done. }
      destruct (setObj_on_base _ _ _ _ Hset') as [_ [e ->]].
      destruct (proj2 (IH outs' e)) as [m' Hturn].
      { eapply Forall2_impl; [exact Hrest |].
        intros c0 out (m0 & m2 & Hr & Hs & Ho). exists m0, m2.
        simpl in *. rewrite Hre in *. done. }
      exists m'. econstructor; [exact Hset' | exact Hsolve | exact Hturn].
Qed.

(** X16.  For a constructed model on which at most objectives have
    been set (no constraint added), and a batch of [nb] examples with
    [db] costs each, [forward] with one worker returns a loss vector
    with saved solutions exactly when [forward] with any other worker
    count returns the same ones. *)
Theorem forward_workers_agree_without_added_constraints
    (obj : linexpr) (nb db : nat) (b : batch) (modelSense : EPO)
    (processes : nat) (loss : list Qc) (ctx : saved_tensors) :
  batch_shape nb db b →
  processes ≠ 1 →
  (forward (optModel0 := tsp_optModel optimize) modelSense
     (set_model base (setObjective (_model base) obj)) 1 b).1.1
  = Ok (loss, ctx) ↔
  (forward (optModel0 := tsp_optModel optimize) modelSense
     (set_model base (setObjective (_model base) obj)) processes b).1.1
  = Ok (loss, ctx).
Proof using Hbase.
  intros Hb Hp. unfold forward.
  pose proof Hb as (Hz & _). rewrite Hz.
  destruct (check_sol _ _ _ _) as [[] | e |]; [| done ..].
  rewrite bool_decide_eq_true_2 by done.
  rewrite bool_decide_eq_false_2 by done.
  set (o := set_model base (setObjective (_model base) obj)).
  destruct (single_core (optModel0 := tsp_optModel optimize)
              (seq 0 nb) b o [] [] []) as [[r1 m1] log1] eqn:Hsc.
  destruct (multi_core (optModel0 := tsp_optModel optimize) nb b o)
    as [r2 log2] eqn:Hmc.
  assert (∀ L S, r1 = Ok (L, S) ↔ r2 = Ok (L, S)) as Hsame.
  { intros L S. split.
    - intros ->.
      apply (single_core_spec nb db b Hb nb 0) in Hsc; [| lia].
      rewrite !drop_0 in Hsc. destruct Hsc as (outs & Hs & -> & -> & _).
      assert (multi_core (optModel0 := tsp_optModel optimize) nb b o
              = (Ok ([] ++ zip_with
                        (λ objq e, spo_plus MINIMIZE objq e.1.1 e.1.2 e.2)
                        outs.*2 (examples b), [] ++ outs.*1),
                 calls_in_pool (surrogates b))) as Hmc'.
      { apply (multi_core_spec nb db b Hb). exists outs.
        split; [| done]. apply pool_is_turn. by exists m1. }
      rewrite Hmc in Hmc'. by injection Hmc' as -> _.
    - intros ->.
      apply (multi_core_spec nb db b Hb) in Hmc.
      destruct Hmc as (outs & Hpool & -> & -> & _).
      apply pool_is_turn in Hpool as [m' Hturn].
      assert (single_core (optModel0 := tsp_optModel optimize)
                (seq 0 nb) b o [] [] []
              = (Ok ([] ++ zip_with
                        (λ objq e, spo_plus MINIMIZE objq e.1.1 e.1.2 e.2)
                        outs.*2 (drop 0 (examples b)),
                     [] ++ outs.*1), m',
                 [] ++ calls_in_turn (drop 0 (surrogates b)))) as Hsc'.
      { apply (single_core_spec nb db b Hb nb 0); [lia |]. exists outs.
        by rewrite !drop_0. }
      rewrite Hsc in Hsc'. rewrite drop_0 in Hsc'.
      by injection Hsc' as -> _ _. }
  simpl. destruct r1 as [[L1 S1] | e1 |].
  - rewrite (proj1 (Hsame L1 S1) eq_refl). done.
  - destruct r2 as [[L2 S2] | e2 |]; [| done ..].
    by pose proof (proj2 (Hsame L2 S2) eq_refl).
  - destruct r2 as [[L2 S2] | e2 |]; [| done ..].
    by pose proof (proj2 (Hsame L2 S2) eq_refl).
Qed.

End Workers.

(* ================================================================== *)
(** * The globals of [SPOPlus] *)
(* ================================================================== *)

(** X17.  The model and the worker count are globals of the module:
    after [SPOPlus(m1, p1)] with a valid worker count, [forward] runs
    on [m1] with [p1]; after a further [SPOPlus(m2, p2)] it runs on
    [m2] with [p2], whichever object it is called through; a
    construction with an argument that is no [optModel] raises
    [TypeError] and leaves the globals as they were. *)
Theorem SPOPlus_objects_share_the_latest_model
    {M : Type} `{!optModel M} (modelSense : M → EPO) (cpu_count : nat)
    (m1 m2 : M) (p1 p2 : Z) (g : spo_globals M) (b : batch) :
  (0 ≤ p1 ≤ Z.of_nat cpu_count)%Z →
  (0 ≤ p2 ≤ Z.of_nat cpu_count)%Z →
  let first := SPOPlus_init cpu_count (an_optModel m1) p1 g in
  let second := SPOPlus_init cpu_count (an_optModel m2) p2 first.2 in
  let refused := SPOPlus_init cpu_count other_object p2 first.2 in
  first.1 = Ok () ∧ second.1 = Ok () ∧
  forward_on_globals modelSense first.2 b
  = Some (forward (modelSense m1) m1 (Z.to_nat p1) b) ∧
  forward_on_globals modelSense second.2 b
  = Some (forward (modelSense m2) m2 (Z.to_nat p2) b) ∧
  refused = (Raise (TypeError "arg model is not an optModel"), first.2).
Proof.
  intros H1 H2. cbv zeta. unfold SPOPlus_init.
  rewrite !(bool_decide_eq_true_2 _ H1). cbn [snd fst OPTMODEL PROCESSES].
  rewrite !(bool_decide_eq_true_2 _ H2). done.
Qed.

(** X18.  A construction [SPOPlus(m2, p2)] with a worker count outside
    [0 .. cpu_count] raises [ValueError] after the global model has been
    assigned: [forward] then runs on [m2] with the worker count of the
    earlier construction. *)
Theorem refused_worker_count_still_replaces_the_model
    {M : Type} `{!optModel M} (modelSense : M → EPO) (cpu_count : nat)
    (m1 m2 : M) (p1 p2 : Z) (g : spo_globals M) (b : batch) :
  (0 ≤ p1 ≤ Z.of_nat cpu_count)%Z →
  ¬ (0 ≤ p2 ≤ Z.of_nat cpu_count)%Z →
  let first := SPOPlus_init cpu_count (an_optModel m1) p1 g in
  let second := SPOPlus_init cpu_count (an_optModel m2) p2 first.2 in
  second.1 = Raise (InvalidProcessors p2 cpu_count) ∧
  forward_on_globals modelSense second.2 b
  = Some (forward (modelSense m2) m2 (Z.to_nat p1) b).
Proof.
  intros H1 H2. cbv zeta. unfold SPOPlus_init.
  rewrite !(bool_decide_eq_true_2 _ H1). cbn [snd fst OPTMODEL PROCESSES].
  rewrite !(bool_decide_eq_false_2 _ H2). done.
Qed.

(* ================================================================== *)
(** * Fitting before predicting *)
(* ================================================================== *)

(** X19.  For a two-stage predictor over a TSP model on [n] nodes:
    [predict] before any [fit] raises "Model is not fitted yet."; [fit]
    accepts the cost arrays of a shape [(k, w)] with [w = n * (n - 1) /
    2], after which [predict] returns what the fitted regressor
    predicts; on every other cost array [fit] raises [ValueError]. *)
Theorem autoSklearnPred_fits_the_width_of_the_model
    {A P : Type} (shape : A → list nat)
    (regressor_fit : P → A → A → P) (regressor_predict : P → A → A)
    (t : model_type) (n : nat) (o : tspmodel) (regressor : P) (x c x' : A) :
  tsp_init t n = Ok o →
  let self := autoSklearnPred_init regressor o in
  predict regressor_predict self x'
  = Raise (RuntimeError "Model is not fitted yet.") ∧
  ((∃ k w, shape c = [k; w] ∧ 2 * w = n * (n - 1)) →
   fit shape regressor_fit self x c
   = Ok (AutoSklearnPred (regressor_fit regressor x c) o true) ∧
   predict regressor_predict
     (AutoSklearnPred (regressor_fit regressor x c) o true) x'
   = Ok (regressor_predict (regressor_fit regressor x c) x')) ∧
  (¬ (∃ k w, shape c = [k; w] ∧ 2 * w = n * (n - 1)) →
   fit shape regressor_fit self x c
   = Raise (ValueError "Dimension of cost does not macth.")).
Proof.
  intros Ho. simpl.
  pose proof (tsp_init_fields _ _ _ Ho) as Hc.
  assert (2 * num_cost o = n * (n - 1)) as Hcost.
  { unfold num_cost. rewrite (c_edges _ _ _ Hc). apply edges_of_length. }
  split; [done |]. unfold fit. simpl. split.
  - intros (k & w & Hs & Hw). rewrite Hs. simpl.
    rewrite bool_decide_eq_true_2 by (f_equal; lia). done.
  - intros Hno.
    destruct (bool_decide (length (shape c) = 2)) eqn:Hlen; [| done].
    apply bool_decide_eq_true_1 in Hlen.
    destruct (shape c) as [|k [|w [|]]] eqn:Hs; try done. simpl.
    case_bool_decide as Hw; [| done].
    injection Hw as ->. destruct Hno. by exists k, (num_cost o).
Qed.

(* ================================================================== *)
(** * The gradient at equal solutions *)
(* ================================================================== *)

Lemma mat_sub_self (d : nat) (w : list (list Qc)) :
  Forall (λ r, length r = d) w →
  mat_sub w w = replicate (length w) (replicate d 0%Qc).
Proof.
  unfold mat_sub. induction 1 as [|r w Hr Hw IH]; [done |].
  simpl. rewrite IH. f_equal. clear -Hr. subst d.
  induction r as [|q r IH]; [done |]. simpl. rewrite IH. f_equal. ring.
Qed.

Lemma sum_zero_rows (d m : nat) :
  foldr (zip_with Qcplus) (replicate d 0%Qc) (replicate m (replicate d 0%Qc))
  = replicate d 0%Qc.
Proof.
  induction m as [|m IH]; [done |]. simpl. rewrite IH.
  clear. induction d as [|d IH]; [done |]. simpl. rewrite IH. f_equal.
Qed.

(** X20.  When the saved surrogate solutions are the true solutions
    ([n > 0] rows of [d] entries), [backward] returns the zero gradient
    for the predicted cost, for both senses and every upstream
    gradient. *)
Theorem backward_vanishes_at_equal_solutions
    (n d : nat) (modelSense : EPO) (w : list (list Qc)) (g : list Qc) :
  0 < n → length w = n → Forall (λ r, length r = d) w →
  backward modelSense (Saved w w) g
  = ((λ _, replicate d 0%Qc) <$> g, None, None, None).
Proof.
  intros Hn Hlen Hw. unfold backward. simpl.
  assert (Qcmult 2 <$> mean0 (mat_sub w w) = replicate d 0%Qc) as Hgrad.
  { rewrite (mat_sub_self d) by done. unfold mean0.
    rewrite Hlen. destruct n as [|m]; [lia |].
    change (hd [] (replicate (S m) (replicate d 0%Qc)))
      with (replicate d 0%Qc).
    rewrite !length_replicate, sum_zero_rows, !fmap_replicate.
    f_equal; unfold Qcdiv; ring. }
  assert ((λ gi : Qc, Qcmult gi <$> replicate d 0%Qc)
            <$> g = (λ _, replicate d 0%Qc) <$> g) as Hscale.
  { apply list_fmap_ext. intros i gi _. simpl.
    rewrite fmap_replicate. f_equal. ring. }
  destruct modelSense; rewrite Hgrad, Hscale; done.
Qed.

Lemma setObj_witness :
  (length costs4 ≠ num_cost DFJ4 →
   setObj DFJ4 costs4
   = Raise (ValueError "Size of cost vector cannot match vars.")) ∧
  (length costs4 = num_cost DFJ4 →
   ∃ e,
     edge_terms (type_self DFJ4) costs4 DFJ4 = Ok e ∧
     setObj DFJ4 costs4
     = Ok (set_model DFJ4 (setObjective (_model DFJ4) e)) ∧
     tsp_object (set_model DFJ4 (setObjective (_model DFJ4) e))).
Proof.
  apply (setObj_checks_the_size_and_sets_the_objective DFJ4 costs4).
  apply (tsp_object_init tspDFJModel 4). vm_compute. reflexivity.
Defined.

Lemma setObj_last_objective_witness :
  setObj DFJ4_priced tour_0123 = setObj DFJ4 tour_0123.
Proof.
  apply (setObj_last_objective_wins DFJ4 DFJ4_priced costs4 tour_0123).
  vm_compute. reflexivity.
Defined.

Lemma relaxed_solve_witness :
  ∃ sol,
    solve answers_halves GGRel3_priced = Ok (sol, Qc_of_Z 6) ∧
    length sol = num_cost GGRel3 ∧
    eval halves (Objective (_model GGRel3_priced))
    = dot (Qc_of_Z <$> [1; 2; 3]%Z) sol.
Proof.
  apply (relaxed_solve_prices_the_objective answers_halves GGRel3
           GGRel3_priced (Qc_of_Z <$> [1; 2; 3]%Z) halves (Qc_of_Z 6)).
  - apply (tsp_object_init tspGGModelRel 3). vm_compute. reflexivity.
  - left. reflexivity.
  - vm_compute. reflexivity.
  - reflexivity.
  - vm_compute. lia.
Defined.

Lemma solve_binary_witness :
  ∃ sol,
    solve exhaustive DFJ4_priced = Ok (sol, Qc_of_Z 4) ∧
    length sol = num_cost DFJ4_priced ∧
    Forall (λ v, v = 0%Qc ∨ v = 1%Qc) sol.
Proof.
  apply (solve_returns_a_binary_vector exhaustive DFJ4_priced tour_0123
           (Qc_of_Z 4)).
  - apply (setObj_object DFJ4), (tsp_object_init tspDFJModel 4).
    vm_compute. reflexivity.
  - vm_compute. intros [H | H]; discriminate H.
  - vm_compute. reflexivity.
  - vm_compute. lia.
Defined.

Lemma DFJ_solve_prices_witness :
  ∃ sol,
    solve exhaustive DFJ4_priced = Ok (sol, Qc_of_Z 4) ∧
    sol = take (num_cost DFJ4) tour_0123 ∧
    eval tour_0123 (Objective (_model DFJ4_priced)) = dot costs4 sol.
Proof.
  apply (DFJ_solve_prices_the_objective exhaustive DFJ4 DFJ4_priced costs4
           tour_0123 (Qc_of_Z 4)).
  - apply (tsp_object_init tspDFJModel 4). vm_compute. reflexivity.
  - reflexivity.
  - vm_compute. reflexivity.
  - vm_compute. reflexivity.
  - vm_compute. lia.
  - repeat (apply Forall_cons; split; [first [by left | by right] |]).
    apply Forall_nil_2.
Defined.

Lemma addConstr_size_witness :
  (length [1; 0]%Qc ≠ num_cost DFJ4 →
   addConstr 0 [1; 0]%Qc 0%Qc {[0 := DFJ4]}
   = Raise (ValueError "Size of coef vector cannot cost.")) ∧
  (length [1; 0]%Qc = num_cost DFJ4 →
   ∃ l σ', addConstr 0 [1; 0]%Qc 0%Qc {[0 := DFJ4]} = Ok (l, σ') ∧
           (l ∉ dom ({[0 := DFJ4]} : store))).
Proof.
  apply (addConstr_checks_the_size {[0 := DFJ4]} 0 DFJ4 [1; 0]%Qc 0%Qc).
  - reflexivity.
  - apply (tsp_object_init tspDFJModel 4). vm_compute. reflexivity.
Defined.

Lemma relax_witness :
  ∃ l r,
    relax (λ _ _, Raise KeyError) 0 {[0 := GG3]}
    = Ok (l, <[l := r]> {[0 := GG3]}) ∧
    (l ∉ dom ({[0 := GG3]} : store)) ∧
    tsp_init (relaxation_of (type_self GG3)) (num_nodes GG3) = Ok r ∧
    is_relaxation (type_self r) ∧
    num_cost r = length (edges_of (num_nodes GG3)) ∧
    <[l := r]> ({[0 := GG3]} : store) !! 0 = Some GG3 ∧
    relax (λ _ _, Raise KeyError) l (<[l := r]> {[0 := GG3]})
    = Raise (RuntimeError "Model has already been relaxed.").
Proof.
  apply (relax_builds_a_relaxation_once (λ _ _, Raise KeyError)
           {[0 := GG3]} 0 GG3).
  - reflexivity.
  - left. reflexivity.
Defined.

Lemma getTour_zero_witness :
  getTour 0 DFJ4 (replicate 6 0%Qc) = Ok [0].
Proof.
  apply (getTour_without_active_edges 0 DFJ4 (replicate 6 0%Qc)).
  - vm_compute. intros [H | H]; discriminate H.
  - vm_compute. lia.
  - intros k e v He Hv.
    do 6 (destruct k as [|k]; [injection Hv as <-; reflexivity |]).
    discriminate Hv.
Defined.

Lemma getTour_short_witness :
  getTour 5 DFJ4 [1; 1]%Qc = Raise IndexError.
Proof.
  apply (getTour_short_solution 5 DFJ4 [1; 1]%Qc).
  - vm_compute. intros [H | H]; discriminate H.
  - vm_compute. lia.
Defined.

Lemma getTour_isolated_witness :
  getTour 100 DFJ4 triangle_123 = Diverge.
Proof.
  apply (getTour_never_returns_from_an_isolated_start 100 DFJ4 triangle_123).
  - apply (tsp_object_init tspDFJModel 4). vm_compute. reflexivity.
  - vm_compute. intros [H | H]; discriminate H.
  - vm_compute. lia.
  - split.
    + intros k j v He Hv.
      do 3 (destruct k as [|k]; [injection Hv as <-; reflexivity |]).
      do 3 (destruct k as [|k]; [discriminate He |]).
      discriminate Hv.
    + exists 3, (1, 2), 1%Qc. split; [reflexivity |].
      split; reflexivity.
Defined.

Lemma subtourelim_any_witness :
  ∃ selected tour r,
    selected_of (x DFJ6) (replicate 15 1%Qc) = Ok selected ∧
    subtour selected 6 = Ok tour ∧
    _subtourelim (_model DFJ6) (replicate 15 1%Qc) = Ok r ∧
    (length tour < 6 → ∃ c, r = Some c ∧ subtour_cut 6 tour c) ∧
    (¬ length tour < 6 → r = None).
Proof.
  apply (subtourelim_never_fails 6 DFJ6 (replicate 15 1%Qc)).
  - apply (tsp_object_init tspDFJModel 6). vm_compute. reflexivity.
  - reflexivity.
  - reflexivity.
  - reflexivity.
Defined.

Lemma forward_workers_witness :
  (forward (optModel0 := tsp_optModel exhaustive) MINIMIZE
     (set_model DFJ4 (setObjective (_model DFJ4) (Const 0%Qc))) 1 batch4).1.1
  = Ok ([Qc_of_Z 8], Saved [tour_0213] [tour_0123]) ↔
  (forward (optModel0 := tsp_optModel exhaustive) MINIMIZE
     (set_model DFJ4 (setObjective (_model DFJ4) (Const 0%Qc))) 2 batch4).1.1
  = Ok ([Qc_of_Z 8], Saved [tour_0213] [tour_0123]).
Proof.
  apply (forward_workers_agree_without_added_constraints exhaustive
           tspDFJModel 4 DFJ4 ltac:(vm_compute; reflexivity)
           (Const 0%Qc) 1 6 batch4 MINIMIZE 2).
  - repeat split; repeat constructor.
  - lia.
Defined.

Lemma SPOPlus_share_witness :
  let first :=
    SPOPlus_init 4 (an_optModel DFJ4) 1 (SpoGlobals None None) in
  let second := SPOPlus_init 4 (an_optModel DFJ6) 2 first.2 in
  let refused := SPOPlus_init 4 other_object 2 first.2 in
  first.1 = Ok () ∧ second.1 = Ok () ∧
  forward_on_globals (optModel0 := tsp_optModel exhaustive)
    (λ _, MINIMIZE) first.2 batch4
  = Some (forward (optModel0 := tsp_optModel exhaustive)
            MINIMIZE DFJ4 (Z.to_nat 1) batch4) ∧
  forward_on_globals (optModel0 := tsp_optModel exhaustive)
    (λ _, MINIMIZE) second.2 batch4
  = Some (forward (optModel0 := tsp_optModel exhaustive)
            MINIMIZE DFJ6 (Z.to_nat 2) batch4) ∧
  refused = (Raise (TypeError "arg model is not an optModel"), first.2).
Proof.
  apply (SPOPlus_objects_share_the_latest_model
           (optModel0 := tsp_optModel exhaustive) (λ _, MINIMIZE) 4
           DFJ4 DFJ6 1 2 (SpoGlobals None None) batch4); lia.
Defined.

Lemma SPOPlus_refused_witness :
  let first :=
    SPOPlus_init 4 (an_optModel DFJ4) 1 (SpoGlobals None None) in
  let second := SPOPlus_init 4 (an_optModel DFJ6) 9 first.2 in
  second.1 = Raise (InvalidProcessors 9 4) ∧
  forward_on_globals (optModel0 := tsp_optModel exhaustive)
    (λ _, MINIMIZE) second.2 batch4
  = Some (forward (optModel0 := tsp_optModel exhaustive)
            MINIMIZE DFJ6 (Z.to_nat 1) batch4).
Proof.
  apply (refused_worker_count_still_replaces_the_model
           (optModel0 := tsp_optModel exhaustive) (λ _, MINIMIZE) 4
           DFJ4 DFJ6 1 9 (SpoGlobals None None) batch4); lia.
Defined.

Lemma autoSklearnPred_witness :
  let self := autoSklearnPred_init (P := nat) 0 DFJ4 in
  predict (A := list nat) (λ _ x, x) self [2; 3]
  = Raise (RuntimeError "Model is not fitted yet.") ∧
  ((∃ k w, id [5; 6] = [k; w] ∧ 2 * w = 4 * (4 - 1)) →
   fit id (λ p _ _, S p) self [5; 3] [5; 6]
   = Ok (AutoSklearnPred 1 DFJ4 true) ∧
   predict (A := list nat) (λ _ x, x) (AutoSklearnPred 1 DFJ4 true) [2; 3]
   = Ok [2; 3]) ∧
  (¬ (∃ k w, id [5; 6] = [k; w] ∧ 2 * w = 4 * (4 - 1)) →
   fit id (λ p _ _, S p) self [5; 3] [5; 6]
   = Raise (ValueError "Dimension of cost does not macth.")).
Proof.
  apply (autoSklearnPred_fits_the_width_of_the_model (A := list nat)
           (P := nat) id (λ p _ _, S p) (λ _ x, x) tspDFJModel 4 DFJ4 0
           [5; 3] [5; 6] [2; 3]).
  vm_compute. reflexivity.
Defined.

Lemma backward_vanishes_witness :
  backward MINIMIZE (Saved [tour_0213] [tour_0213]) [1%Qc]
  = ((λ _, replicate 6 0%Qc) <$> [1%Qc], None, None, None).
Proof.
  apply (backward_vanishes_at_equal_solutions 1 6 MINIMIZE [tour_0213]
           [1%Qc]).
  - lia.
  - reflexivity.
  - repeat constructor.
Defined.

(* ================================================================== *)
(** * Tours meet the constraints of the DFJ model *)
(* ================================================================== *)

Lemma cyc_next_inj (n i j : nat) :
  i < n → j < n → cyc_next n i = cyc_next n j → i = j.
Proof. unfold cyc_next. repeat case_bool_decide; lia. Qed.

Section Neighbours.

Context (n : nat) (c : list nat) (Hc : c ≡ₚ seq 0 n) (Hn : 3 ≤ n).

Lemma cyc_next_prev (p : nat) : p < n → cyc_next n (cyc_prev n p) = p.
Proof using Hn.
  intros Hp. unfold cyc_next, cyc_prev.
  repeat case_bool_decide; lia.
Qed.

Lemma cycle_two_neighbours (v : nat) :
  v < n →
  ∃ a b, a ≠ b ∧ ∀ w, cycle_edge c v w ↔ w = a ∨ w = b.
Proof using Hc Hn.
  intros Hv. destruct (cycle_index n c Hc v Hv) as [p Hp].
  destruct (cycle_lt n c Hc p v Hp) as [_ Hpn].
  pose proof (cycle_length n c Hc) as Hlen.
  destruct (lookup_lt_is_Some_2 c (cyc_next n p)) as [a Ha].
  { rewrite Hlen. by apply cyc_next_lt. }
  destruct (lookup_lt_is_Some_2 c (cyc_prev n p)) as [b Hb].
  { rewrite Hlen. unfold cyc_prev. case_bool_decide; lia. }
  exists a, b. split.
  - intros ->. pose proof (cycle_inj n c Hc _ _ _ Ha Hb) as Heq.
    unfold cyc_next, cyc_prev in Heq. repeat case_bool_decide; lia.
  - intros w. split.
    + intros [Hvw | Hwv].
      * left. pose proof (on_cycle_inv n c Hc p v w Hp Hvw) as Hw.
        congruence.
      * right. destruct Hwv as (j & Hj & Hjv). rewrite Hlen in Hjv.
        destruct (cycle_lt n c Hc j w Hj) as [_ Hjn].
        pose proof (cycle_inj n c Hc _ _ _ Hjv Hp) as Heq.
        assert (j = cyc_prev n p) as ->.
        { apply (cyc_next_inj n); [done | |].
          - unfold cyc_prev. case_bool_decide; lia.
          - by rewrite cyc_next_prev. }
        congruence.
    + intros [-> | ->].
      * left. exists p. by rewrite Hlen.
      * right. exists (cyc_prev n p). rewrite Hlen.
        by rewrite cyc_next_prev.
Qed.

End Neighbours.

Lemma hamiltonian_degree (n : nat) (cyc : list nat) (vals : list Qc)
    (v : nat) :
  3 ≤ n → hamiltonian n cyc vals → v < n → degree n vals v = 2.
Proof.
  intros Hn Hham Hv.
  pose proof (ham_nodes _ _ _ Hham) as Hc.
  destruct (cycle_two_neighbours n cyc Hc Hn v Hv) as (a & b & Hab & Hnb).
  rewrite <- selected_degree.
  rewrite <- (length_fmap snd).
  assert ((select (selected_pairs n vals) v).*2 ≡ₚ [a; b]) as ->; [| done].
  apply NoDup_Permutation.
  - apply NoDup_fmap_2_strong.
    + intros [x1 y1] [x2 y2] H1 H2. simpl. intros ->.
      apply elem_of_select in H1 as [H1 _], H2 as [H2 _]. simpl in *.
      congruence.
    + apply NoDup_filter, NoDup_selected.
  - apply NoDup_cons. split; [| apply NoDup_singleton].
    by intros Hin%list_elem_of_singleton.
  - intros w. rewrite elem_of_neighbours.
    rewrite (selected_cycle n cyc vals v w) by (done || lia).
    rewrite Hnb, elem_of_cons, list_elem_of_singleton. done.
Qed.

Lemma ones_add (a b : nat) : ones (a + b) = (ones a + ones b)%Qc.
Proof.
  induction a as [|a IH]; simpl.
  - unfold ones. simpl. ring.
  - unfold ones in *. simpl. rewrite IH. ring.
Qed.

Lemma eval_quicksum_app (vals : list Qc) (l k : list linexpr) :
  eval vals (quicksum (l ++ k))
  = (eval vals (quicksum l) + eval vals (quicksum k))%Qc.
Proof.
  induction l as [|a l IH].
  - simpl. ring.
  - rewrite <- app_comm_cons, !eval_quicksum_cons, IH. ring.
Qed.

Lemma imap_shift {K} (h : K → nat * nat) (es : list K) (b : nat) :
  imap (λ p k, (h k, b + p)) es = zip (h <$> es) (seq b (length es)).
Proof.
  revert b. induction es as [|e es IH]; intros b; [done |].
  simpl. rewrite Nat.add_0_r. f_equal. rewrite <- IH.
  apply imap_ext. intros p k _. simpl. f_equal. lia.
Qed.

Lemma active_zero : ¬ active 0%Qc.
Proof. by vm_compute. Qed.

Lemma active_one : active 1%Qc.
Proof. by vm_compute. Qed.

(** The sum of the values of the variables under the keys that start
    with [i]: the number of chosen keys that start with [i]. *)
Lemma row_sum {K} (h : K → nat * nat) (i : nat) (vals : list Qc)
    (es : list K) (b : nat) (vs : list Qc) :
  (∀ p v, vs !! p = Some v →
          vals !! (b + p) = Some v ∧ (v = 0%Qc ∨ v = 1%Qc)) →
  length es ≤ length vs →
  eval vals (quicksum (Var <$>
    (filter (λ e : nat * nat * nat, e.1.1 = i)
       (zip (h <$> es) (seq b (length es)))).*2))
  = ones (length (filter (λ e : K, (h e).1 = i)
                    (filter (λ e : K * Qc, active e.2) (zip es vs)).*1)).
Proof.
  revert b vs. induction es as [|e es IH]; intros b vs Hvs Hlen; [done |].
  destruct vs as [|v vs]; [simpl in Hlen; lia |].
  destruct (Hvs 0 v eq_refl) as [Hv Hbin]. rewrite Nat.add_0_r in Hv.
  assert (eval vals (quicksum (Var <$>
            (filter (λ e : nat * nat * nat, e.1.1 = i)
               (zip (h <$> es) (seq (S b) (length es)))).*2))
          = ones (length (filter (λ e : K, (h e).1 = i)
                    (filter (λ e : K * Qc, active e.2) (zip es vs)).*1)))
    as Hrest.
  { apply IH; [| simpl in Hlen; lia].
    intros p q Hq. destruct (Hvs (S p) q Hq) as [Hq' Hqb].
    split; [| done]. by replace (S b + p) with (b + S p) by lia. }
  cbn [fmap list_fmap length seq zip zip_with].
  rewrite !filter_cons. cbn [fst snd].
  destruct (decide ((h e).1 = i)) as [Hi | Hi].
  - cbn [fmap list_fmap]. rewrite eval_quicksum_cons, Hrest.
    cbn [eval snd]. rewrite Hv. cbn [default].
    destruct Hbin as [-> | ->].
    + rewrite decide_False by apply active_zero. unfold id. ring.
    + rewrite decide_True by apply active_one.
      cbn [fmap list_fmap fst]. rewrite filter_cons.
      rewrite decide_True by done. cbn [length].
      unfold ones. cbn [Nat.iter]. done.
  - rewrite Hrest.
    destruct (decide (active v)); [| done].
    cbn [fmap list_fmap fst]. rewrite filter_cons.
    by rewrite decide_False by done.
Qed.

Lemma length_filter_swap (i : nat) (l : list (nat * nat)) :
  length (filter (λ e : nat * nat, (swap e).1 = i) l)
  = length (filter (λ e : nat * nat, e.1 = i) (swap <$> l)).
Proof.
  induction l as [|e l IH]; [done |].
  rewrite fmap_cons, !filter_cons.
  destruct (decide ((swap e).1 = i)); cbn [length]; by rewrite IH.
Qed.

Lemma DFJ_row_sum (n i : nat) (vals : list Qc) :
  length vals = length (edges_of n) →
  Forall (λ v, v = 0%Qc ∨ v = 1%Qc) vals →
  eval vals (td_sum_row (DFJ_x n) i)
  = ones (length (select (selected_pairs n vals) i)).
Proof.
  intros Hlen Hbin. unfold td_sum_row, DFJ_x.
  rewrite filter_app, !fmap_app, eval_quicksum_app.
  assert (∀ p v, vals !! p = Some v →
            vals !! (0 + p) = Some v ∧ (v = 0%Qc ∨ v = 1%Qc)) as Hvs.
  { intros p v Hp. split; [done |].
    by apply (Forall_lookup_1 _ _ _ _ Hbin Hp). }
  change (imap (λ p k, (k, p)) (edges_of n))
    with (imap (λ p k, (id k, 0 + p)) (edges_of n)).
  change (imap (λ p k, (swap k, p)) (edges_of n))
    with (imap (λ p k, (swap k, 0 + p)) (edges_of n)).
  rewrite !imap_shift.
  rewrite (row_sum id i vals (edges_of n) 0 vals Hvs) by lia.
  rewrite (row_sum swap i vals (edges_of n) 0 vals Hvs) by lia.
  rewrite <- ones_add. f_equal.
  unfold select, selected_pairs. rewrite filter_app, length_app.
  by rewrite length_filter_swap.
Qed.

Lemma DFJ_constraints (n : nat) (o : tspmodel) :
  tsp_init tspDFJModel n = Ok o →
  Constrs (_model o)
  = (λ i, Constr (td_sum_row (DFJ_x n) i) EQUAL (Const 2%Qc)) <$> seq 0 n.
Proof.
  unfold tsp_init. cbn [_getModel]. unfold tspDFJModel_getModel, addVars.
  cbv beta iota zeta. simpl length at 1.
  change (λ p k, (k, 0 + p)) with (λ (p : nat) (k : nat * nat), (k, p)).
  rewrite mirror_keys_exact.
  - cbn [mbind result_bind]. by intros [= <-].
  - apply NoDup_edges_of.
  - intros [a b] He. apply elem_of_edges_of in He. simpl. lia.
Qed.

(** X22.  The 0/1 vector of a tour through all [n >= 3] nodes meets
    every constraint of [tspDFJModel(n)], and the callback adds no cut
    to it: the solver may accept it as it is. *)
Theorem tours_are_feasible_for_the_DFJ_model
    (n : nat) (cyc : list nat) (vals : list Qc) :
  3 ≤ n → hamiltonian n cyc vals →
  Forall (λ v, v = 0%Qc ∨ v = 1%Qc) vals →
  ∃ o,
    tsp_init tspDFJModel n = Ok o ∧
    Forall (λ c, holds vals c = true) (Constrs (_model o)) ∧
    _subtourelim (_model o) vals = Ok None.
Proof.
  intros Hn Hham Hbin.
  destruct (tsp_init_returns tspDFJModel n) as (o & Ho & _).
  exists o. split; [done |].
  pose proof (ham_length _ _ _ Hham) as Hlen.
  pose proof (ham_nodes _ _ _ Hham) as Hcyc.
  set (sel := selected_pairs n vals).
  assert (∀ v, v < n → length (select sel v) = 2) as Hdeg.
  { intros v Hv. unfold sel. rewrite selected_degree.
    by apply (hamiltonian_degree n cyc). }
  split.
  - rewrite (DFJ_constraints n o Ho).
    apply Forall_fmap, Forall_forall. intros i Hi. apply elem_of_seq in Hi.
    unfold compose, holds. cbn [sense lhs rhs]. apply bool_decide_eq_true_2.
    rewrite DFJ_row_sum by done. fold sel. rewrite Hdeg by lia.
    by vm_compute.
  - destruct (DFJ_fields n o Ho) as [Hx Hmn].
    pose proof (selected_sym n vals) as Hsym.
    pose proof (selected_range n vals) as Hrange.
    destruct (subtour_spec sel n Hsym (selected_irrefl n vals)
                (NoDup_selected n vals) Hrange Hdeg ltac:(lia))
      as (tour & Htour & (Hnd & root & Hroot & Hmem) & _).
    unfold _subtourelim. rewrite Hx, Hmn.
    rewrite selected_of_DFJ by done. cbn [mbind result_bind].
    fold sel. rewrite Htour. cbn [mbind result_bind].
    rewrite bool_decide_eq_false_2; [done |].
    assert (length (seq 0 n) ≤ length tour) as Hle.
    { apply submseteq_length, NoDup_submseteq; [apply NoDup_seq |].
      intros w Hw. apply Hmem.
      apply (chain_linked sel Hsym cyc).
      - apply cycle_chain; [lia | done].
      - rewrite Hcyc. apply elem_of_seq. lia.
      - by rewrite Hcyc. }
    rewrite length_seq in Hle. lia.
Qed.

Lemma tours_are_feasible_witness :
  ∃ o,
    tsp_init tspDFJModel 4 = Ok o ∧
    Forall (λ c, holds tour_0213 c = true) (Constrs (_model o)) ∧
    _subtourelim (_model o) tour_0213 = Ok None.
Proof.
  apply (tours_are_feasible_for_the_DFJ_model 4 [2; 1; 3; 0] tour_0213).
  - lia.
  - apply hamiltonian_b_true. vm_compute. reflexivity.
  - repeat (apply Forall_cons; split; [first [by left | by right] |]).
    apply Forall_nil_2.
Defined.

(* ================================================================== *)
(** * A batch of the wrong width *)
(* ================================================================== *)

(** X23.  For a model object and a batch of [n > 0] examples that
    passes the consistency check but has [d] costs per example where
    the model has another number of edges, [forward] raises the
    [ValueError] of [setObj], with one worker and with many; with one
    worker the model is left as it was, after the one call of [setObj]
    that failed: nothing is solved. *)
Theorem forward_reports_a_wrong_cost_width
    (optimize :
       grbmodel → option (grbmodel → list Qc → result exn (option constr)) →
       option (list Qc * Qc))
    (o : tspmodel) (n d : nat) (b : batch) (modelSense : EPO)
    (processes : nat) :
  tsp_object o → batch_shape n d b → 0 < n → consistent b →
  d ≠ num_cost o →
  let run := forward (optModel0 := tsp_optModel optimize) modelSense o
               processes b in
  run.1.1
  = Raise (ModelError (ValueError "Size of cost vector cannot match vars.")) ∧
  (processes = 1 →
   ∃ cost, surrogates b !! 0 = Some cost ∧ run.1.2 = o ∧
           run.2 = [SetObj cost]).
Proof.
  intros Hobj Hb Hn Hcons Hd. cbv zeta. unfold forward.
  pose proof Hb as (Hz & _). rewrite Hz.
  rewrite (check_sol_consistent n d b Hb Hcons).
  destruct (shape_rows n d b Hb 0 Hn)
    as (cp & c & w & z & Ecp & Ec & Ew & Ez & Lcp & Lc & Lw).
  pose proof (surrogates_lookup b 0 cp c Ecp Ec) as Hsur.
  set (cost := zip_with (λ p q, 2 * p - q)%Qc cp c) in *.
  assert (length cost ≠ num_cost o) as Hcost.
  { unfold cost. rewrite length_zip_with. lia. }
  assert (∀ m, num_cost m = num_cost o →
               setObj m cost
               = Raise (ValueError "Size of cost vector cannot match vars."))
    as Hraise.
  { intros m Hm. unfold setObj, tspGGModel_setObj, tspDFJModel_setObj.
    rewrite bool_decide_eq_true_2 by congruence. by destruct (type_self m). }
  destruct n as [|m]; [lia |].
  case_bool_decide as Hp.
  - cbn [seq single_core]. unfold np_getitem. rewrite Ecp, Ec.
    cbn [mbind result_bind]. rewrite surrogate_cost_Ok by congruence.
    fold cost. simpl om_setObj. rewrite (Hraise o eq_refl). simpl.
    split; [done |]. intros _. by exists cost.
  - split; [| done]. unfold multi_core.
    rewrite (surrogate_costs_spec (S m) d b Hb).
    unfold amap. rewrite take_ge by (rewrite (surrogates_length (S m) d b Hb); lia).
    destruct (surrogates b) as [|cost' costs] eqn:Hs; [done |].
    injection Hsur as ->.
    destruct (tsp_object_base o Hobj) as (base & Hbase & _ & He & _).
    cbn [forM]. unfold solveWithObj4Par. simpl om_rebuild.
    unfold tsp_rebuild. rewrite Hbase. cbn [mbind result_bind].
    simpl om_setObj. rewrite Hraise; [done |].
    unfold num_cost. by rewrite He.
Qed.

Lemma forward_wrong_width_witness :
  let run := forward (optModel0 := tsp_optModel exhaustive) MINIMIZE DFJ6
               1 batch4 in
  run.1.1
  = Raise (ModelError (ValueError "Size of cost vector cannot match vars.")) ∧
  (1 = 1 →
   ∃ cost, surrogates batch4 !! 0 = Some cost ∧ run.1.2 = DFJ6 ∧
           run.2 = [SetObj cost]).
Proof.
  apply (forward_reports_a_wrong_cost_width exhaustive DFJ6 1 6 batch4
           MINIMIZE 1).
  - apply (tsp_object_init tspDFJModel 6). vm_compute. reflexivity.
  - repeat split; repeat constructor.
  - lia.
  - apply (consistent_by_check 1 6);
      [repeat split; repeat constructor | vm_compute; reflexivity].
  - vm_compute. lia.
Defined.
